(** * vibecode: the tool layer and the agent loop, embedded in Rocq

    The JavaScript sources are [vibecode.js] (the streaming variant) and
    its older sibling [nanocode] (the non-streaming variant).  Both are
    modelled by executable Gallina definitions that keep the names of the
    functions they embed.

    Conventions of the embedding:
    - a JavaScript string is a [string]; a character is an 8-bit code
      unit ([ascii]), which covers the Latin-1 range of UTF-16;
    - a JavaScript integer is a [Z];
    - a call either returns, throws an [Error] with a message, or falls
      outside the modelled fragment of JavaScript ([Beyond]);
    - a value of one type that is used at another is converted by
      JavaScript; where the conversion is not spelled out, what the
      call does then is left open and stays a parameter;
    - the file system is an explicit state threaded through the tools. *)

From Stdlib Require Import Bool Arith ZArith Lia List Ascii String.
From Stdlib Require Import DecimalString Sorted Permutation.
Import ListNotations.
Local Open Scope list_scope.
Local Open Scope string_scope.

Set Implicit Arguments.
Set Warnings "-register-all".

(* ================================================================= *)
(** ** Outcomes of a call *)

Inductive outcome (A : Type) : Type :=
| Ret (a : A)            (* normal completion *)
| Throw (msg : string)   (* an Error with this message was thrown *)
| Beyond.                (* behaviour outside the modelled fragment *)

Arguments Ret {A} a.
Arguments Throw {A} msg.
Arguments Beyond {A}.

Definition bind {A B : Type} (x : outcome A) (k : A -> outcome B) : outcome B :=
  match x with
  | Ret a => k a
  | Throw m => Throw m
  | Beyond => Beyond
  end.

(** [try { body } catch (err) { handler(err.message) }], for a body
    that leaves a state behind: the handler starts from the state that
    the body had reached when it threw. *)
Definition try_catch {A S : Type} (body : outcome A * S)
  (handler : string -> S -> outcome A * S) : outcome A * S :=
  match body with
  | (Throw message, s) => handler message s
  | other => other
  end.

(* ================================================================= *)
(** ** JavaScript strings *)

Definition chr (n : nat) : ascii := ascii_of_nat n.
Definition LF : ascii := chr 10.
Definition CR : ascii := chr 13.
Definition DQUOTE : ascii := chr 34.
Definition str1 (c : ascii) : string := String c EmptyString.
Definition NL : string := str1 LF.
Definition quoted (s : string) : string := String DQUOTE (s ++ str1 DQUOTE).

Fixpoint starts_with (p s : string) : bool :=
  match p with
  | EmptyString => true
  | String a p' =>
      match s with
      | EmptyString => false
      | String b s' => Ascii.eqb a b && starts_with p' s'
      end
  end.

Fixpoint drop (n : nat) (s : string) : string :=
  match n with
  | O => s
  | S k => match s with
           | EmptyString => EmptyString
           | String _ s' => drop k s'
           end
  end.

(** [text.includes(old)] *)
Fixpoint includes (text old : string) : bool :=
  starts_with old text ||
  match text with
  | EmptyString => false
  | String _ t => includes t old
  end.

(** [s.replace(/lit/g, rep)] for a regex literal that denotes the plain,
    non-empty text [pat] and a replacement [rep] without [$]: the
    matches are found left to right and do not overlap.  [skip] counts
    the characters of a match still to be passed over. *)
Fixpoint replace_go (pat rep : string) (skip : nat) (s : string) : string :=
  match s with
  | EmptyString => EmptyString
  | String c s' =>
      match skip with
      | S k => replace_go pat rep k s'
      | O =>
          if starts_with pat s
          then rep ++ replace_go pat rep (String.length pat - 1) s'
          else String c (replace_go pat rep 0 s')
      end
  end.

Definition replace_all (pat rep s : string) : string := replace_go pat rep 0 s.

(** [s.split(sep)] for a non-empty separator; the result is never empty. *)
Fixpoint split_go (sep : string) (skip : nat) (s : string) : list string :=
  match s with
  | EmptyString => [EmptyString]
  | String c s' =>
      match skip with
      | S k => split_go sep k s'
      | O =>
          if starts_with sep s
          then EmptyString :: split_go sep (String.length sep - 1) s'
          else match split_go sep 0 s' with
               | h :: t => String c h :: t
               | [] => [str1 c]
               end
      end
  end.

(** [s.split(sep)]: an empty separator splits between every two
    characters (and gives no piece at all for the empty string). *)
Definition split (sep s : string) : list string :=
  match sep with
  | EmptyString => map str1 (list_ascii_of_string s)
  | _ => split_go sep 0 s
  end.

(** [pieces.join(sep)] *)
Definition join (sep : string) (pieces : list string) : string :=
  String.concat sep pieces.

(** White space and line terminators below U+0100, as [trim] sees them. *)
Definition is_space (c : ascii) : bool :=
  let n := nat_of_ascii c in
  (Nat.leb 9 n && Nat.leb n 13) || Nat.eqb n 32 || Nat.eqb n 160.

Fixpoint trimEnd (s : string) : string :=
  match s with
  | EmptyString => EmptyString
  | String c s' =>
      match trimEnd s' with
      | EmptyString => if is_space c then EmptyString else str1 c
      | t => String c t
      end
  end.

Fixpoint trimStart (s : string) : string :=
  match s with
  | EmptyString => EmptyString
  | String c s' => if is_space c then trimStart s' else s
  end.

Definition trim (s : string) : string := trimEnd (trimStart s).

(** [String(n)] for an integer. *)
Definition String_of (n : Z) : string := NilZero.string_of_int (Z.to_int n).

Fixpoint spaces (n : nat) : string :=
  match n with
  | O => EmptyString
  | S k => String " " (spaces k)
  end.

(** [s.padStart(width)]: blanks are put in front of [s]. *)
Definition padStart (width : nat) (s : string) : string :=
  spaces (width - String.length s) ++ s.

(** [xs.slice(start, stop)] with JavaScript's relative indices: a negative
    index counts from the end, and both are clamped to the array. *)
Definition clamp_index (len i : Z) : Z :=
  if (i <? 0)%Z then Z.max (len + i) 0 else Z.min i len.

Definition slice {A : Type} (xs : list A) (start stop : Z) : list A :=
  let len := Z.of_nat (List.length xs) in
  let k := clamp_index len start in
  let final := clamp_index len stop in
  firstn (Z.to_nat (final - k)) (skipn (Z.to_nat k) xs).

(** The text before and after the first occurrence of [old] in [text]. *)
Fixpoint split_first (old text : string) : option (string * string) :=
  if starts_with old text
  then Some (EmptyString, drop (String.length old) text)
  else match text with
       | EmptyString => None
       | String c t =>
           match split_first old t with
           | Some (b, a) => Some (String c b, a)
           | None => None
           end
       end.

(** GetSubstitution of ECMA-262 for a string pattern, which has no
    capture groups: [$$] is a dollar, [$&] the matched text, [$`] the
    text before the match, [$'] the text after it; any other [$] stands
    for itself. *)
Fixpoint GetSubstitution (matched before after rep : string) : string :=
  match rep with
  | EmptyString => EmptyString
  | String a rest =>
      if Ascii.eqb a "$"
      then match rest with
           | EmptyString => str1 a
           | String c rest' =>
               if Ascii.eqb c "$"
               then String "$" (GetSubstitution matched before after rest')
               else if Ascii.eqb c "&"
               then matched ++ GetSubstitution matched before after rest'
               else if Ascii.eqb c "`"
               then before ++ GetSubstitution matched before after rest'
               else if Ascii.eqb c "'"
               then after ++ GetSubstitution matched before after rest'
               else String a (GetSubstitution matched before after rest)
           end
      else String a (GetSubstitution matched before after rest)
  end.

(** [text.replace(old, rep)] with a string pattern: only the first
    occurrence is replaced, and [rep] goes through [GetSubstitution]. *)
Definition replace_first (old rep text : string) : string :=
  match split_first old text with
  | None => text
  | Some (before, after) =>
      before ++ GetSubstitution old before after rep ++ after
  end.

(* ================================================================= *)
(** ** Regular expressions

    The fragment of [RegExp] that the sources build themselves: single
    characters, escaped syntax characters, the dot, character classes
    without ranges, the greedy quantifiers [*] and [+], and the
    assertions [^] and [$] (no flags, so [^] holds at index 0 only and
    the dot refuses line terminators). *)

Inductive atom : Type :=
| AChar (c : ascii)
| AAny
| AClass (neg : bool) (members : list ascii).

Inductive quant : Type := QOne | QStar | QPlus.

Inductive term : Type :=
| TBol
| TEol
| TAtom (a : atom) (q : quant).

Inductive compiled : Type :=
| Compiled (r : list term)
| SyntaxError (why : string)   (* the constructor throws *)
| Unsupported.                 (* syntax outside the fragment *)

(** SyntaxCharacter of ECMA-262. *)
Definition syntax_char (c : ascii) : bool :=
  existsb (Ascii.eqb c)
    ["^"; "$"; "\"; "."; "*"; "+"; "?"; "("; ")"; "["; "]"; "{"; "}"; "|"]%char.

Inductive pmode : Type :=
| PNormal
| PEscape
| PClassStart
| PClass (neg : bool) (members : list ascii).

Definition flush (pending : option atom) (acc : list term) : list term :=
  match pending with
  | Some a => TAtom a QOne :: acc
  | None => acc
  end.

(** The pattern is read left to right; [pending] is the atom just read,
    which a quantifier may still follow, and [acc] holds the terms read
    before it, last one first. *)
Fixpoint parse_go (mode : pmode) (pending : option atom) (acc : list term)
  (s : string) : compiled :=
  match s with
  | EmptyString =>
      match mode with
      | PNormal => Compiled (rev (flush pending acc))
      | PEscape => SyntaxError "\ at end of pattern"
      | _ => SyntaxError "Unterminated character class"
      end
  | String c s' =>
      match mode with
      | PNormal =>
          if Ascii.eqb c "\" then parse_go PEscape None (flush pending acc) s'
          else if Ascii.eqb c "[" then parse_go PClassStart None (flush pending acc) s'
          else if Ascii.eqb c "." then parse_go PNormal (Some AAny) (flush pending acc) s'
          else if Ascii.eqb c "^" then parse_go PNormal None (TBol :: flush pending acc) s'
          else if Ascii.eqb c "$" then parse_go PNormal None (TEol :: flush pending acc) s'
          else if Ascii.eqb c "*" then
            match pending with
            | Some a => parse_go PNormal None (TAtom a QStar :: acc) s'
            | None => SyntaxError "Nothing to repeat"
            end
          else if Ascii.eqb c "+" then
            match pending with
            | Some a => parse_go PNormal None (TAtom a QPlus :: acc) s'
            | None => SyntaxError "Nothing to repeat"
            end
          else if syntax_char c then Unsupported
          else parse_go PNormal (Some (AChar c)) (flush pending acc) s'
      | PEscape =>
          if syntax_char c || Ascii.eqb c "/"
          then parse_go PNormal (Some (AChar c)) acc s'
          else Unsupported
      | PClassStart =>
          if Ascii.eqb c "^" then parse_go (PClass true []) None acc s'
          else if Ascii.eqb c "]" then parse_go PNormal (Some (AClass false [])) acc s'
          else if Ascii.eqb c "\" || Ascii.eqb c "-" then Unsupported
          else parse_go (PClass false [c]) None acc s'
      | PClass neg ms =>
          if Ascii.eqb c "]" then parse_go PNormal (Some (AClass neg (rev ms))) acc s'
          else if Ascii.eqb c "\" || Ascii.eqb c "-" then Unsupported
          else parse_go (PClass neg (c :: ms)) None acc s'
      end
  end.

(** [new RegExp(source)] *)
Definition RegExp_new (source : string) : compiled :=
  parse_go PNormal None [] source.

Definition line_terminator (c : ascii) : bool :=
  Ascii.eqb c LF || Ascii.eqb c CR.

Definition atom_matches (a : atom) (c : ascii) : bool :=
  match a with
  | AChar d => Ascii.eqb c d
  | AAny => negb (line_terminator c)
  | AClass neg ms => xorb neg (existsb (Ascii.eqb c) ms)
  end.

(** A greedy run of [a], then the continuation [k]; the longest run is
    tried first, as the backtracking matcher of ECMA-262 does.  The
    boolean says whether the position is index 0. *)
Fixpoint greedy (a : atom) (k : bool -> string -> option string)
  (at0 : bool) (s : string) : option string :=
  match s with
  | EmptyString => k at0 s
  | String c s' =>
      if atom_matches a c
      then match greedy a k false s' with
           | Some e => Some e
           | None => k at0 s
           end
      else k at0 s
  end.

(** A match of [r] that starts here: what is left of [s] after it. *)
Fixpoint match_here (r : list term) : bool -> string -> option string :=
  match r with
  | [] => fun _ s => Some s
  | TBol :: r' => fun at0 s => if at0 then match_here r' at0 s else None
  | TEol :: r' =>
      fun at0 s =>
        match s with
        | EmptyString => match_here r' at0 s
        | String _ _ => None
        end
  | TAtom a QOne :: r' =>
      fun _ s =>
        match s with
        | EmptyString => None
        | String c s' => if atom_matches a c then match_here r' false s' else None
        end
  | TAtom a QStar :: r' => greedy a (match_here r')
  | TAtom a QPlus :: r' =>
      fun _ s =>
        match s with
        | EmptyString => None
        | String c s' =>
            if atom_matches a c then greedy a (match_here r') false s' else None
        end
  end.

Fixpoint search (r : list term) (at0 : bool) (s : string) : bool :=
  match match_here r at0 s with
  | Some _ => true
  | None =>
      match s with
      | EmptyString => false
      | String _ s' => search r false s'
      end
  end.

(** [regex.test(s)] without the [g] flag: is there a match anywhere? *)
Definition test (r : list term) (s : string) : bool := search r true s.

(** The number of matches [s.match(regex)] collects under the [g] flag:
    the scan resumes where the last match ended, one character further
    after an empty match. *)
Fixpoint count_go (r : list term) (skip : nat) (at0 : bool) (s : string) : nat :=
  match skip with
  | S k =>
      match s with
      | EmptyString => 0
      | String _ s' => count_go r k false s'
      end
  | O =>
      match match_here r at0 s with
      | Some e =>
          S match s with
            | EmptyString => 0
            | String _ s' =>
                count_go r (String.length s - String.length e - 1) false s'
            end
      | None =>
          match s with
          | EmptyString => 0
          | String _ s' => count_go r 0 false s'
          end
      end
  end.

Definition match_count (r : list term) (s : string) : nat := count_go r 0 true s.

(* ================================================================= *)
(** ** Helper functions of the sources *)

Fixpoint escapeRegExp (s : string) : string :=
  match s with
  | EmptyString => EmptyString
  | String c s' =>
      if syntax_char c
      then String "\" (String c (escapeRegExp s'))
      else String c (escapeRegExp s')
  end.

Definition DOUBLE_STAR : string := "__DOUBLE_STAR__".

(** The chain of replacements in [matchPattern] of [vibecode.js]. *)
Definition regexPattern (pattern : string) : string :=
  replace_all "?" "."
    (replace_all DOUBLE_STAR ".*"
       (replace_all "*" "[^/]*"
          (replace_all "**" DOUBLE_STAR
             (replace_all "." "\." pattern)))).

Definition invalid_regexp (source why : string) : string :=
  "Invalid regular expression: /" ++ source ++ "/: " ++ why.

Definition RegExp_test (source s : string) : outcome bool :=
  match RegExp_new source with
  | Compiled r => Ret (test r s)
  | SyntaxError why => Throw (invalid_regexp source why)
  | Unsupported => Beyond
  end.

Definition matchPattern (filepath pattern : string) : outcome bool :=
  RegExp_test ("^" ++ regexPattern pattern ++ "$") filepath.

(** [new RegExp(source)] by the engine of this development, which knows
    the fragment above: the predicate that [test] computes, or the
    [SyntaxError] thrown. *)
Definition fragment_RegExp (source : string) : outcome (string -> bool) :=
  match RegExp_new source with
  | Compiled r => Ret (test r)
  | SyntaxError why => Throw (invalid_regexp source why)
  | Unsupported => Beyond
  end.

Definition no_replace : string :=
  "Cannot read properties of undefined (reading 'replace')".

(** [matchPattern(filepath, pattern)] over any engine [RegExp]; the
    pattern is [undefined] where the caller has none, and then
    [pattern.replace] throws.  Over the engine of this development it
    is [matchPattern]. *)
Definition matchPattern_by (RegExp : string -> outcome (string -> bool))
  (filepath : string) (pattern : option string) : outcome bool :=
  match pattern with
  | None => Throw no_replace
  | Some pattern =>
      match RegExp ("^" ++ regexPattern pattern ++ "$") with
      | Ret re => Ret (re filepath)
      | Throw m => Throw m
      | Beyond => Beyond
      end
  end.

(** The non-streaming variant has the same [matchPattern] but for the
    chain of replacements: no placeholder protects the translation of
    [**]. *)
Module Nano.

Definition regexPattern (pattern : string) : string :=
  replace_all "?" "."
    (replace_all "*" "[^/]*"
       (replace_all "**" ".*"
          (replace_all "." "\." pattern))).

Definition matchPattern (filepath pattern : string) : outcome bool :=
  RegExp_test ("^" ++ regexPattern pattern ++ "$") filepath.

Definition matchPattern_by (RegExp : string -> outcome (string -> bool))
  (filepath : string) (pattern : option string) : outcome bool :=
  match pattern with
  | None => Throw no_replace
  | Some pattern =>
      match RegExp ("^" ++ regexPattern pattern ++ "$") with
      | Ret re => Ret (re filepath)
      | Throw m => Throw m
      | Beyond => Beyond
      end
  end.

End Nano.

(* ================================================================= *)
(** ** The file system

    A tree of directory entries, as [fs.readdirSync], [fs.statSync] and
    [fs.readFileSync] show it to the tools.  Paths are resolved the way
    the kernel does it, one segment after the other, starting at the
    root or at the working directory. *)

Inductive node : Type :=
| File (content : string) (mtime : Z)   (* a file that can be read *)
| Locked (mtime : Z)                    (* stat succeeds, reading throws *)
| Dir (entries : list (string * node))  (* a directory that can be listed *)
| NoList                                (* a directory closed to the process:
                                           listing and entering it throw *)
| Broken.                               (* stat throws *)

Record FS : Type := mkFS {
  root : node;
  cwd : list string;   (* process.cwd(), as segments below the root *)
  now : Z              (* the clock that stamps a written file *)
}.

Fixpoint lookup {V : Type} (name : string) (es : list (string * V)) : option V :=
  match es with
  | [] => None
  | (k, v) :: es' => if String.eqb k name then Some v else lookup name es'
  end.

Fixpoint get (n : node) (path : list string) : option node :=
  match path with
  | [] => Some n
  | s :: rest =>
      match n with
      | Dir es =>
          match lookup s es with
          | Some child => get child rest
          | None => None
          end
      | _ => None
      end
  end.

Definition is_dot (s : string) : bool :=
  String.eqb s EmptyString || String.eqb s ".".

(** Walks [segs] from the position [pos] (last segment first); every
    step needs a listable directory to step from. *)
Fixpoint canon (top : node) (pos segs : list string) : option (list string) :=
  match segs with
  | [] => Some pos
  | s :: rest =>
      match get top (rev pos) with
      | Some (Dir _) =>
          if is_dot s then canon top pos rest
          else if String.eqb s ".." then canon top (tl pos) rest
          else canon top (s :: pos) rest
      | _ => None
      end
  end.

Definition is_absolute (p : string) : bool := starts_with "/" p.

Definition start_of (fs : FS) (p : string) : list string :=
  if is_absolute p then [] else rev (cwd fs).

Definition node_at (fs : FS) (p : string) : option node :=
  match p with
  | EmptyString => None
  | _ =>
      match canon (root fs) (start_of fs p) (split "/" p) with
      | Some pos => get (root fs) (rev pos)
      | None => None
      end
  end.

Definition ENOENT (syscall p : string) : string :=
  "ENOENT: no such file or directory, " ++ syscall ++ " '" ++ p ++ "'".
Definition ENOTDIR (syscall p : string) : string :=
  "ENOTDIR: not a directory, " ++ syscall ++ " '" ++ p ++ "'".
Definition EACCES (syscall p : string) : string :=
  "EACCES: permission denied, " ++ syscall ++ " '" ++ p ++ "'".
Definition EISDIR_read : string := "EISDIR: illegal operation on a directory, read".
Definition EISDIR_open (p : string) : string :=
  "EISDIR: illegal operation on a directory, open '" ++ p ++ "'".

(** The error of a step that cannot start from [n]: a file is no
    directory, a closed directory may not be entered, and anything else
    is not there. *)
Definition no_step (n : option node) (syscall p : string) : string :=
  match n with
  | Some (File _ _) | Some (Locked _) => ENOTDIR syscall p
  | Some NoList => EACCES syscall p
  | _ => ENOENT syscall p
  end.

(** The error the kernel gives where the walk of [canon] stops. *)
Fixpoint canon_error (top : node) (pos segs : list string) (syscall p : string)
  : string :=
  match segs with
  | [] => ENOENT syscall p
  | s :: rest =>
      match get top (rev pos) with
      | Some (Dir _) =>
          if is_dot s then canon_error top pos rest syscall p
          else if String.eqb s ".." then canon_error top (tl pos) rest syscall p
          else canon_error top (s :: pos) rest syscall p
      | other => no_step other syscall p
      end
  end.

(** The error of [open] for a path at which [node_at] finds nothing. *)
Definition open_error (fs : FS) (p : string) : string :=
  match p with
  | EmptyString => ENOENT "open" p
  | _ =>
      match canon (root fs) (start_of fs p) (split "/" p) with
      | Some _ => ENOENT "open" p
      | None => canon_error (root fs) (start_of fs p) (split "/" p) "open" p
      end
  end.

(** [fs.readFileSync(p, 'utf-8')] *)
Definition readFileSync (fs : FS) (p : string) : outcome string :=
  match node_at fs p with
  | Some (File content _) => Ret content
  | Some (Locked _) | Some NoList => Throw (EACCES "open" p)
  | Some (Dir _) => Throw EISDIR_read
  | Some Broken => Throw (ENOENT "open" p)
  | None => Throw (open_error fs p)
  end.

Fixpoint set_entry (name : string) (v : node) (es : list (string * node))
  : list (string * node) :=
  match es with
  | [] => [(name, v)]
  | (k, x) :: es' =>
      if String.eqb k name then (k, v) :: es' else (k, x) :: set_entry name v es'
  end.

Fixpoint map_entry (name : string) (f : node -> node) (es : list (string * node))
  : list (string * node) :=
  match es with
  | [] => []
  | (k, x) :: es' =>
      if String.eqb k name then (k, f x) :: es' else (k, x) :: map_entry name f es'
  end.

(** The tree with the entry [name] of the directory at [dir] set to [v]. *)
Fixpoint put (n : node) (dir : list string) (name : string) (v : node) : node :=
  match dir with
  | [] =>
      match n with
      | Dir es => Dir (set_entry name v es)
      | _ => n
      end
  | d :: rest =>
      match n with
      | Dir es => Dir (map_entry d (fun child => put child rest name v) es)
      | _ => n
      end
  end.

(** [fs.writeFileSync(p, content)]: the file is created or overwritten
    in an existing directory and stamped with the clock. *)
Definition writeFileSync (fs : FS) (p content : string) : outcome FS :=
  match p with
  | EmptyString => Throw (ENOENT "open" p)
  | _ =>
      let segs := split "/" p in
      let name := last segs EmptyString in
      match canon (root fs) (start_of fs p) (removelast segs) with
      | None =>
          Throw (canon_error (root fs) (start_of fs p) (removelast segs) "open" p)
      | Some pos =>
          match get (root fs) (rev pos) with
          | Some (Dir es) =>
              if is_dot name || String.eqb name ".." then Throw (EISDIR_open p)
              else
                let written :=
                  mkFS (put (root fs) (rev pos) name (File content (now fs)))
                       (cwd fs) (now fs) in
                match lookup name es with
                | None | Some (File _ _) => Ret written
                | Some (Locked _) => Throw (EACCES "open" p)
                | Some (Dir _) | Some NoList => Throw (EISDIR_open p)
                | Some Broken => Throw (ENOENT "open" p)
                end
          | other => Throw (no_step other "open" p)
          end
      end
  end.

(* ----------------------------------------------------------------- *)
(** *** Node's [path] module (POSIX) *)

(** [normalizeString]: [.] and empty segments vanish, [..] removes the
    segment before it; [stack] holds the result so far, last first. *)
Fixpoint normalize_segs (allowAboveRoot : bool) (stack segs : list string)
  : list string :=
  match segs with
  | [] => rev stack
  | s :: rest =>
      if is_dot s then normalize_segs allowAboveRoot stack rest
      else if String.eqb s ".." then
        match stack with
        | t :: stack' =>
            if String.eqb t ".."
            then normalize_segs allowAboveRoot (s :: stack) rest
            else normalize_segs allowAboveRoot stack' rest
        | [] =>
            if allowAboveRoot
            then normalize_segs allowAboveRoot [s] rest
            else normalize_segs allowAboveRoot [] rest
        end
      else normalize_segs allowAboveRoot (s :: stack) rest
  end.

Definition ends_with_slash (p : string) : bool :=
  String.eqb (last (split "/" p) "x") EmptyString.

(** [path.normalize(p)] *)
Definition path_normalize (p : string) : string :=
  match p with
  | EmptyString => "."
  | _ =>
      let absolute := is_absolute p in
      let trailing := ends_with_slash p in
      let body := join "/" (normalize_segs (negb absolute) [] (split "/" p)) in
      match body with
      | EmptyString =>
          if absolute then "/" else if trailing then "./" else "."
      | _ =>
          (if absolute then "/" else EmptyString)
            ++ body ++ (if trailing then "/" else EmptyString)
      end
  end.

(** [path.join(a, b)] *)
Definition path_join (a b : string) : string :=
  match a, b with
  | EmptyString, EmptyString => "."
  | EmptyString, _ => path_normalize b
  | _, EmptyString => path_normalize a
  | _, _ => path_normalize (a ++ "/" ++ b)
  end.

(** The segments of [path.resolve(p)] below the root. *)
Definition resolve_segs (wd : list string) (p : string) : list string :=
  normalize_segs false [] ((if is_absolute p then [] else wd) ++ split "/" p).

Fixpoint strip_common (xs ys : list string) : list string * list string :=
  match xs, ys with
  | x :: xs', y :: ys' =>
      if String.eqb x y then strip_common xs' ys' else (xs, ys)
  | _, _ => (xs, ys)
  end.

(** [path.relative(from, to)] in a process whose working directory is [wd]. *)
Definition path_relative (wd : list string) (from to : string) : string :=
  let (up, down) := strip_common (resolve_segs wd from) (resolve_segs wd to) in
  join "/" (map (fun _ => "..") up ++ down).

(* ================================================================= *)
(** ** Tool implementations *)

(** The argument object of a tool call, read at the types its schema
    declares; a property that is absent is [None]. *)
Record Args : Type := mkArgs {
  a_path : option string;
  a_offset : option Z;
  a_limit : option Z;
  a_content : option string;
  a_old : option string;
  a_new : option string;
  a_all : option bool;
  a_pat : option string;
  a_cmd : option string
}.

(** What a tool call leaves behind: its completion and the file system. *)
Definition effect : Type := (outcome string * FS)%type.

(** [x || d] on an optional integer: [undefined] and [0] are falsy. *)
Definition or_int (x : option Z) (d : Z) : Z :=
  match x with
  | Some 0%Z | None => d
  | Some z => z
  end.

(** [x || d] on an optional string: [undefined] and the empty string
    are falsy. *)
Definition or_str (x : option string) (d : string) : string :=
  match x with
  | Some EmptyString | None => d
  | Some s => s
  end.

Definition truthy (x : option bool) : bool :=
  match x with
  | Some b => b
  | None => false
  end.

(** The text an optional string is converted to where a text is needed:
    [undefined] is spelled out. *)
Definition ToString (x : option string) : string :=
  match x with
  | Some s => s
  | None => "undefined"
  end.

(** The messages of the [TypeError] that [fs] throws for a path, and
    for the data to write, that is [undefined]. *)
Definition invalid_path : string :=
  "The " ++ quoted "path"
    ++ " argument must be of type string or an instance of Buffer or URL."
    ++ " Received undefined".

Definition invalid_data : string :=
  "The " ++ quoted "data"
    ++ " argument must be of type string or an instance of Buffer, TypedArray,"
    ++ " or DataView. Received undefined".

Fixpoint mapi_from {A B : Type} (i : nat) (f : nat -> A -> B) (xs : list A) : list B :=
  match xs with
  | [] => []
  | x :: xs' => f i x :: mapi_from (S i) f xs'
  end.

(** [xs.map((x, idx) => f idx x)] *)
Definition mapi {A B : Type} (f : nat -> A -> B) (xs : list A) : list B :=
  mapi_from 0 f xs.

Definition numbered (offset : Z) (idx : nat) (line : string) : string :=
  padStart 4 (String_of (offset + Z.of_nat idx + 1)) ++ "| " ++ line.

Definition read (args : Args) (fs : FS) : effect :=
  match a_path args with
  | None => (Throw invalid_path, fs)
  | Some p =>
      match readFileSync fs p with
      | Ret text =>
          let lines := split NL text in
          let offset := or_int (a_offset args) 0 in
          let limit := or_int (a_limit args) (Z.of_nat (List.length lines)) in
          let selected := slice lines offset (offset + limit) in
          (Ret (join NL (mapi (numbered offset) selected)), fs)
      | Throw m => (Throw m, fs)
      | Beyond => (Beyond, fs)
      end
  end.

(** [fs.writeFileSync] looks at the data before it opens the path. *)
Definition write (args : Args) (fs : FS) : effect :=
  match a_content args with
  | None => (Throw invalid_data, fs)
  | Some content =>
      match a_path args with
      | None => (Throw invalid_path, fs)
      | Some p =>
          match writeFileSync fs p content with
          | Ret fs' => (Ret "ok", fs')
          | Throw m => (Throw m, fs)
          | Beyond => (Beyond, fs)
          end
      end
  end.

Definition appears (count : nat) : string :=
  "error: old_string appears " ++ String_of (Z.of_nat count)
    ++ " times, must be unique (use all=true)".

(** Where [old] is [undefined], [includes] looks for the text
    [undefined] and [escapeRegExp] throws; where [newStr] is
    [undefined], [join] falls back on its comma and [replace] puts the
    text [undefined]. *)
Definition edit (args : Args) (fs : FS) : effect :=
  match a_path args with
  | None => (Throw invalid_path, fs)
  | Some p =>
      match readFileSync fs p with
      | Ret text =>
          if negb (includes text (ToString (a_old args)))
          then (Ret "error: old_string not found", fs)
          else
            match a_old args with
            | None => (Throw no_replace, fs)
            | Some old =>
                match RegExp_new (escapeRegExp old) with
                | Compiled re =>
                    let count := match_count re text in
                    if negb (truthy (a_all args)) && Nat.ltb 1 count
                    then (Ret (appears count), fs)
                    else
                      let replacement :=
                        if truthy (a_all args)
                        then join match a_new args with
                                  | Some newStr => newStr
                                  | None => ","
                                  end (split old text)
                        else replace_first old (ToString (a_new args)) text in
                      match writeFileSync fs p replacement with
                      | Ret fs' => (Ret "ok", fs')
                      | Throw m => (Throw m, fs)
                      | Beyond => (Beyond, fs)
                      end
                | SyntaxError why =>
                    (Throw (invalid_regexp (escapeRegExp old) why), fs)
                | Unsupported => (Beyond, fs)
                end
            end
      | Throw m => (Throw m, fs)
      | Beyond => (Beyond, fs)
      end
  end.

(* ----------------------------------------------------------------- *)
(** *** glob *)

Record found : Type := mkFound { f_path : string; f_mtime : Z }.

Section Glob.

(** [new RegExp(source)], by whatever engine runs the program. *)
Variable RegExp : string -> outcome (string -> bool).

(** The body of the inner [try] of [glob] for an entry that is no
    directory: a throwing [matchPattern] is caught and skips the file. *)
Definition glob_file (wd : list string) (pattern : option string)
  (filepath : string) (mtime : Z) (results : list found) : outcome (list found) :=
  let relativePath := path_relative wd "." filepath in
  match matchPattern_by RegExp relativePath pattern with
  | Ret true => Ret (results ++ [mkFound relativePath mtime])%list
  | Ret false => Ret results
  | Throw _ => Ret results
  | Beyond => Beyond
  end.

(** [walk(dir)] inside [glob]; [n] is what the file system holds at
    [dir], and [results] is the array the closure pushes to. *)
Fixpoint glob_walk (wd : list string) (pattern : option string) (dir : string)
  (n : node) (results : list found) : outcome (list found) :=
  match n with
  | Dir files =>
      (fix each (files : list (string * node)) (results : list found)
         : outcome (list found) :=
         match files with
         | [] => Ret results
         | (file, child) :: rest =>
             let filepath := path_join dir file in
             bind
               match child with
               | Broken => Ret results
               | Dir _ | NoList => glob_walk wd pattern filepath child results
               | File _ mtime | Locked mtime =>
                   glob_file wd pattern filepath mtime results
               end
               (each rest)
         end) files results
  | _ => Ret results
  end.

End Glob.

(** [xs.sort(compare)]: the sort is stable; an element is inserted in
    front of the first one it does not have to follow. *)
Fixpoint insert_sorted {A : Type} (compare : A -> A -> Z) (x : A) (xs : list A)
  : list A :=
  match xs with
  | [] => [x]
  | y :: ys =>
      if (0 <? compare x y)%Z
      then y :: insert_sorted compare x ys
      else x :: xs
  end.

Definition Array_sort {A : Type} (compare : A -> A -> Z) (xs : list A) : list A :=
  fold_right (insert_sorted compare) [] xs.

Definition or_none (s : string) : string :=
  match s with
  | EmptyString => "none"
  | _ => s
  end.

Definition by_mtime (a b : found) : Z := (f_mtime b - f_mtime a)%Z.

(** What [walk(basePath)] starts from: a path that does not lead to a
    node behaves like a directory whose listing throws. *)
Definition node_or_missing (fs : FS) (p : string) : node :=
  match node_at fs p with
  | Some n => n
  | None => Broken
  end.

(** [glob(args)] over an engine [RegExp]. *)
Definition glob_by (RegExp : string -> outcome (string -> bool))
  (args : Args) (fs : FS) : effect :=
  let basePath := or_str (a_path args) "." in
  let pattern := a_pat args in
  match glob_walk RegExp (cwd fs) pattern basePath (node_or_missing fs basePath) [] with
  | Ret results =>
      (Ret (or_none (join NL (map f_path (Array_sort by_mtime results)))), fs)
  | Throw m => (Throw m, fs)
  | Beyond => (Beyond, fs)
  end.

(** [glob] over the engine of this development. *)
Definition glob (args : Args) (fs : FS) : effect := glob_by fragment_RegExp args fs.

(* ================================================================= *)
(** ** JSON

    [JSON.parse] after ECMA-404.  An integer literal is kept as a [Z];
    a number with a fraction or an exponent is kept as its lexeme. *)

Inductive JSON : Type :=
| JNull
| JBool (b : bool)
| JNum (n : Z)
| JReal (lexeme : string)
| JStr (s : string)
| JArr (items : list JSON)
| JObj (fields : list (string * JSON)).

(** The message of the [SyntaxError]; its wording depends on the engine
    and on the place of the error, and one text stands for all of them. *)
Definition json_error : string := "Unexpected token in JSON".

Definition is_ws (c : ascii) : bool :=
  existsb (Ascii.eqb c) [" "%char; chr 9; LF; CR].

Fixpoint skip_ws (s : string) : string :=
  match s with
  | EmptyString => EmptyString
  | String c s' => if is_ws c then skip_ws s' else s
  end.

Definition is_digit (c : ascii) : bool :=
  Nat.leb 48 (nat_of_ascii c) && Nat.leb (nat_of_ascii c) 57.

Definition hex_value (c : ascii) : option nat :=
  let n := nat_of_ascii c in
  if Nat.leb 48 n && Nat.leb n 57 then Some (n - 48)
  else if Nat.leb 65 n && Nat.leb n 70 then Some (n - 55)
  else if Nat.leb 97 n && Nat.leb n 102 then Some (n - 87)
  else None.

(** The character a one-letter escape stands for. *)
Definition unescape (c : ascii) : option ascii :=
  if Ascii.eqb c DQUOTE then Some DQUOTE
  else if Ascii.eqb c "\" then Some "\"%char
  else if Ascii.eqb c "/" then Some "/"%char
  else if Ascii.eqb c "b" then Some (chr 8)
  else if Ascii.eqb c "f" then Some (chr 12)
  else if Ascii.eqb c "n" then Some LF
  else if Ascii.eqb c "r" then Some CR
  else if Ascii.eqb c "t" then Some (chr 9)
  else None.

Definition cons_char (c : ascii) (r : outcome (string * string))
  : outcome (string * string) :=
  bind r (fun '(body, rest) => Ret (String c body, rest)).

(** The rest of a string literal, after its opening quote. *)
Fixpoint json_string (s : string) : outcome (string * string) :=
  match s with
  | EmptyString => Throw json_error
  | String c s' =>
      if Ascii.eqb c DQUOTE then Ret (EmptyString, s')
      else if Ascii.eqb c "\" then
        match s' with
        | EmptyString => Throw json_error
        | String e s'' =>
            match unescape e with
            | Some d => cons_char d (json_string s'')
            | None =>
                if Ascii.eqb e "u" then
                  match s'' with
                  | String h1 (String h2 (String h3 (String h4 r))) =>
                      match hex_value h1, hex_value h2, hex_value h3, hex_value h4 with
                      | Some a, Some b, Some c3, Some d =>
                          if Nat.eqb a 0 && Nat.eqb b 0
                          then cons_char (chr (16 * c3 + d)) (json_string r)
                          else Beyond   (* a code unit above U+00FF *)
                      | _, _, _, _ => Throw json_error
                      end
                  | _ => Throw json_error
                  end
                else Throw json_error
            end
        end
      else if Nat.ltb (nat_of_ascii c) 32 then Throw json_error
      else cons_char c (json_string s')
  end.

Fixpoint take_digits (s : string) : string * string :=
  match s with
  | String c s' =>
      if is_digit c
      then let (ds, rest) := take_digits s' in (String c ds, rest)
      else (EmptyString, s)
  | EmptyString => (EmptyString, EmptyString)
  end.

Fixpoint digits_value (acc : Z) (ds : string) : Z :=
  match ds with
  | EmptyString => acc
  | String c ds' => digits_value (10 * acc + Z.of_nat (nat_of_ascii c - 48)) ds'
  end.

(** A number, from its first digit on; [neg] tells of a sign before it. *)
Definition json_number (neg : bool) (s : string) : outcome (JSON * string) :=
  let (int_part, r1) := take_digits s in
  let sign := if neg then "-" else EmptyString in
  match int_part with
  | EmptyString => Throw json_error
  | String d more =>
      if Ascii.eqb d "0" && negb (String.eqb more EmptyString) then Throw json_error
      else
        let after_frac :=
          match r1 with
          | String "." r2 =>
              let (frac, r3) := take_digits r2 in
              match frac with
              | EmptyString => Throw json_error
              | _ => Ret (Some ("." ++ frac), r3)
              end
          | _ => Ret (None, r1)
          end in
        bind after_frac (fun '(frac, r3) =>
          let after_exp :=
            match r3 with
            | String e r4 =>
                if Ascii.eqb e "e" || Ascii.eqb e "E" then
                  let (esign, r5) :=
                    match r4 with
                    | String sg r' =>
                        if Ascii.eqb sg "+" || Ascii.eqb sg "-"
                        then (str1 sg, r') else (EmptyString, r4)
                    | EmptyString => (EmptyString, r4)
                    end in
                  let (ex, r6) := take_digits r5 in
                  match ex with
                  | EmptyString => Throw json_error
                  | _ => Ret (Some (str1 e ++ esign ++ ex), r6)
                  end
                else Ret (None, r3)
            | EmptyString => Ret (None, r3)
            end in
          bind after_exp (fun '(ex, rest) =>
            match frac, ex with
            | None, None =>
                let v := digits_value 0 int_part in
                Ret (JNum (if neg then (- v)%Z else v), rest)
            | _, _ =>
                Ret (JReal (sign ++ int_part
                              ++ match frac with Some f => f | None => EmptyString end
                              ++ match ex with Some x => x | None => EmptyString end),
                     rest)
            end))
  end.

(** A value, the members of an object after its brace, the elements of
    an array after its bracket.  Every call reads at least one character
    before it calls again, so [fuel] above the length of the text is
    never used up. *)
Fixpoint json_value (fuel : nat) (s : string) : outcome (JSON * string) :=
  match fuel with
  | O => Beyond
  | S fuel' =>
      match skip_ws s with
      | EmptyString => Throw json_error
      | String c s' =>
          if Ascii.eqb c "{" then
            match skip_ws s' with
            | String "}" rest => Ret (JObj [], rest)
            | inner => json_members fuel' inner []
            end
          else if Ascii.eqb c "[" then
            match skip_ws s' with
            | String "]" rest => Ret (JArr [], rest)
            | inner => json_elements fuel' inner []
            end
          else if Ascii.eqb c DQUOTE then
            bind (json_string s') (fun '(body, rest) => Ret (JStr body, rest))
          else if Ascii.eqb c "-" then json_number true s'
          else if is_digit c then json_number false (String c s')
          else if starts_with "true" (String c s') then Ret (JBool true, drop 4 (String c s'))
          else if starts_with "false" (String c s') then Ret (JBool false, drop 5 (String c s'))
          else if starts_with "null" (String c s') then Ret (JNull, drop 4 (String c s'))
          else Throw json_error
      end
  end

with json_members (fuel : nat) (s : string) (acc : list (string * JSON))
  : outcome (JSON * string) :=
  match fuel with
  | O => Beyond
  | S fuel' =>
      match skip_ws s with
      | String c s' =>
          if Ascii.eqb c DQUOTE then
            bind (json_string s') (fun '(key, r1) =>
              match skip_ws r1 with
              | String ":" r2 =>
                  bind (json_value fuel' r2) (fun '(v, r3) =>
                    match skip_ws r3 with
                    | String "," r4 => json_members fuel' r4 (acc ++ [(key, v)])%list
                    | String "}" r4 => Ret (JObj (acc ++ [(key, v)])%list, r4)
                    | _ => Throw json_error
                    end)
              | _ => Throw json_error
              end)
          else Throw json_error
      | EmptyString => Throw json_error
      end
  end

with json_elements (fuel : nat) (s : string) (acc : list JSON)
  : outcome (JSON * string) :=
  match fuel with
  | O => Beyond
  | S fuel' =>
      bind (json_value fuel' s) (fun '(v, r1) =>
        match skip_ws r1 with
        | String "," r2 => json_elements fuel' r2 (acc ++ [v])%list
        | String "]" r2 => Ret (JArr (acc ++ [v])%list, r2)
        | _ => Throw json_error
        end)
  end.

(** [JSON.parse(text)]; a [SyntaxError] is a [Throw]. *)
Definition JSON_parse (text : string) : outcome JSON :=
  bind (json_value (2 * String.length text + 2) text) (fun '(v, rest) =>
    match skip_ws rest with
    | EmptyString => Ret v
    | _ => Throw json_error
    end).

(** [o[key]] on a parsed value: a later duplicate of a key has replaced
    an earlier one, and a value that is no object has no such property. *)
Definition prop (j : JSON) (key : string) : option JSON :=
  match j with
  | JObj fields => lookup key (rev fields)
  | _ => None
  end.

Definition as_str (v : option JSON) : option (option string) :=
  match v with
  | None => Some None
  | Some (JStr s) => Some (Some s)
  | Some _ => None
  end.

Definition as_int (v : option JSON) : option (option Z) :=
  match v with
  | None => Some None
  | Some (JNum n) => Some (Some n)
  | Some _ => None
  end.

Definition as_bool (v : option JSON) : option (option bool) :=
  match v with
  | None => Some None
  | Some (JBool b) => Some (Some b)
  | Some _ => None
  end.

(** The argument object at the types of the schemas; [None] when a
    property holds a value of another type, which JavaScript would
    convert, or when the value is [null]. *)
Definition args_of (j : JSON) : option Args :=
  match j with
  | JNull => None
  | _ =>
      match as_str (prop j "path"), as_int (prop j "offset"), as_int (prop j "limit"),
            as_str (prop j "content"), as_str (prop j "old"), as_str (prop j "new"),
            as_bool (prop j "all"), as_str (prop j "pat"), as_str (prop j "cmd") with
      | Some p, Some o, Some l, Some c, Some old, Some new, Some all, Some pat, Some cmd =>
          Some (mkArgs p o l c old new all pat cmd)
      | _, _, _, _, _, _, _, _, _ => None
      end
  end.

(* ----------------------------------------------------------------- *)
(** *** The preview of the arguments *)

(** [obj[key] = v]: a key that is there keeps its place. *)
Fixpoint assign {V : Type} (key : string) (v : V) (obj : list (string * V))
  : list (string * V) :=
  match obj with
  | [] => [(key, v)]
  | (k, x) :: rest =>
      if String.eqb k key then (k, v) :: rest else (k, x) :: assign key v rest
  end.

Fixpoint digits_only (s : string) : bool :=
  match s with
  | EmptyString => true
  | String c s' => is_digit c && digits_only s'
  end.

(** The array index that a property key spells: a decimal number
    without a leading zero, below 2^32 - 1. *)
Definition index_key (key : string) : option Z :=
  match key with
  | EmptyString => None
  | String c rest =>
      if digits_only key && (negb (Ascii.eqb c "0") || String.eqb rest EmptyString)
      then let n := digits_value 0 key in
           if (n <=? 4294967294)%Z then Some n else None
      else None
  end.

(** The own properties of the object that [JSON.parse] makes of the
    members of an object literal, in the order of their creation. *)
Definition own_properties (fields : list (string * JSON)) : list (string * JSON) :=
  fold_left (fun obj kv => assign (fst kv) (snd kv) obj) fields [].

(** [Object.values(o)]: the values under array indices come first, in
    ascending order, then the other values in the order of creation; a
    string gives its characters, and [null] throws. *)
Definition Object_values (o : JSON) : outcome (list JSON) :=
  match o with
  | JNull => Throw "Cannot convert undefined or null to object"
  | JObj fields =>
      let props := own_properties fields in
      let indexed :=
        flat_map (fun kv => match index_key (fst kv) with
                            | Some i => [(i, snd kv)]
                            | None => []
                            end) props in
      let named :=
        filter (fun kv => match index_key (fst kv) with
                          | Some _ => false
                          | None => true
                          end) props in
      Ret (map snd (Array_sort (fun a b => (fst a - fst b)%Z) indexed)
             ++ map snd named)%list
  | JArr items => Ret items
  | JStr s => Ret (map (fun c => JStr (str1 c)) (list_ascii_of_string s))
  | _ => Ret []
  end.

(** [String(v)] throws: an object with a property [toString] of its own
    -- which, coming from JSON, is no function -- cannot be converted
    to a primitive value, and an array is the join of its elements. *)
Fixpoint unprintable (v : JSON) : bool :=
  match v with
  | JObj fields => existsb (fun kv => String.eqb (fst kv) "toString") fields
  | JArr items => existsb unprintable items
  | _ => false
  end.

(** [String(Object.values(toolArgs)[0] || "").slice(0, 50)]: the text
    goes to the console; what the loop keeps of it is whether it could
    be made. *)
Definition argPreview (toolArgs : JSON) : outcome unit :=
  bind (Object_values toolArgs) (fun values =>
    match values with
    | first :: _ =>
        if unprintable first
        then Throw "Cannot convert object to primitive value"
        else Ret tt
    | [] => Ret tt
    end).

(* ================================================================= *)
(** ** Conversation state and the tool-call assembler *)

Record ToolCall : Type := mkToolCall {
  tc_id : option string;      (* [id]; [undefined] is [None] *)
  tc_name : string;           (* [function.name] *)
  tc_arguments : string       (* [function.arguments] *)
}.

Inductive Message : Type :=
| UserMsg (content : string)
| AssistantMsg (content : string) (tool_calls : option (list ToolCall))
| ToolMsg (tool_call_id : option string) (name : string) (content : string).

(** One element of [delta.tool_calls]. *)
Record Fragment : Type := mkFragment {
  fr_index : Z;                   (* [tc.index], an integer *)
  fr_id : option string;
  fr_name : option string;        (* [tc.function.name] *)
  fr_arguments : option string    (* [tc.function.arguments] *)
}.

(** [choices[0].delta] of one chunk of the stream. *)
Record Delta : Type := mkDelta {
  d_content : option string;
  d_tool_calls : option (list Fragment)
}.

(** A JavaScript array with holes. *)
Definition sparse (A : Type) : Type := list (option A).

(** [arr[i]] *)
Definition array_get {A : Type} (arr : sparse A) (i : nat) : option A :=
  nth i arr None.

(** [arr[i] = v]: writing past the end leaves holes in between. *)
Fixpoint array_set {A : Type} (arr : sparse A) (i : nat) (v : A) : sparse A :=
  match i, arr with
  | O, [] => [Some v]
  | O, _ :: rest => Some v :: rest
  | S k, [] => None :: array_set [] k v
  | S k, slot :: rest => slot :: array_set rest k v
  end.

(** [arr.filter(Boolean)] on an array of objects: the holes go. *)
Fixpoint compact {A : Type} (arr : sparse A) : list A :=
  match arr with
  | [] => []
  | Some v :: rest => v :: compact rest
  | None :: rest => compact rest
  end.

(** An array object: its elements, and the properties it has been given
    under keys that are no array indices.  [filter], like every method
    of an array, sees the elements only. *)
Record JSArray (A : Type) : Type := mkJSArray {
  elements : sparse A;
  others : list (Z * A)
}.

(** The place of the element that an integer key names: the array
    indices are the integers from 0 to 2^32 - 2. *)
Definition array_index (key : Z) : option nat :=
  if (0 <=? key)%Z && (key <? 4294967295)%Z then Some (Z.to_nat key) else None.

Fixpoint other_get {A : Type} (key : Z) (props : list (Z * A)) : option A :=
  match props with
  | [] => None
  | (k, v) :: rest => if Z.eqb k key then Some v else other_get key rest
  end.

Fixpoint other_set {A : Type} (key : Z) (v : A) (props : list (Z * A))
  : list (Z * A) :=
  match props with
  | [] => [(key, v)]
  | (k, x) :: rest =>
      if Z.eqb k key then (k, v) :: rest else (k, x) :: other_set key v rest
  end.

(** [arr[key]] *)
Definition js_get {A : Type} (arr : JSArray A) (key : Z) : option A :=
  match array_index key with
  | Some i => array_get (elements arr) i
  | None => other_get key (others arr)
  end.

(** [arr[key] = v] *)
Definition js_set {A : Type} (arr : JSArray A) (key : Z) (v : A) : JSArray A :=
  match array_index key with
  | Some i => mkJSArray (array_set (elements arr) i v) (others arr)
  | None => mkJSArray (elements arr) (other_set key v (others arr))
  end.

(** [if (x) acc += x]: [undefined] and the empty string are falsy. *)
Definition append_truthy (acc : string) (x : option string) : string :=
  match x with
  | Some (String c s) => acc ++ String c s
  | _ => acc
  end.

(** The body of [for (const tc of delta.tool_calls)]. *)
Definition merge_fragment (toolCalls : JSArray ToolCall) (tc : Fragment)
  : JSArray ToolCall :=
  let toolCalls :=
    match js_get toolCalls (fr_index tc) with
    | Some _ => toolCalls
    | None =>
        js_set toolCalls (fr_index tc)
          (mkToolCall (fr_id tc) EmptyString EmptyString)
    end in
  match js_get toolCalls (fr_index tc) with
  | Some acc =>
      js_set toolCalls (fr_index tc)
        (mkToolCall (tc_id acc)
           (append_truthy (tc_name acc) (fr_name tc))
           (append_truthy (tc_arguments acc) (fr_arguments tc)))
  | None => toolCalls
  end.

(** The body of [for await (const chunk of callApi(...))]. *)
Definition on_chunk (st : string * JSArray ToolCall) (delta : Delta)
  : string * JSArray ToolCall :=
  let (fullContent, toolCalls) := st in
  (append_truthy fullContent (d_content delta),
   match d_tool_calls delta with
   | Some tcs => fold_left merge_fragment tcs toolCalls
   | None => toolCalls
   end).

(** The stream read to its end, then [toolCalls.filter(Boolean)]. *)
Definition assemble (chunks : list Delta) : string * list ToolCall :=
  let (fullContent, toolCalls) :=
    fold_left on_chunk chunks (EmptyString, mkJSArray [] []) in
  (fullContent, compact (elements toolCalls)).

(* ================================================================= *)
(** ** Tools that reach outside, the registry, and the agent loop *)

(** What [execSync] did: the output of a command that exited with 0;
    the error thrown for a command that ended otherwise, with the output
    captured until then; or the error thrown because no shell could be
    started, which carries no output ([stdout] and [stderr] are
    [null]). *)
Inductive exec : Type :=
| Exited (stdout : string)
| Failed (message stdout stderr : string)
| Unstarted (message : string).

(** What a call does that is not spelled out here: it returns a text or
    throws an error. *)
Inductive completion : Type :=
| Returned (text : string)
| Thrown (message : string).

Section Registry.

(** The shell, and the regular expressions of the user's patterns, are
    left open: [execSync cmd fs] runs a command on a file system, and
    [RegExp source] is [new RegExp(source)], which throws or gives the
    predicate that [test] computes. *)
Variable execSync : string -> FS -> exec * FS.
Variable RegExp : string -> outcome (string -> bool).

(** So are the conversions of JavaScript: [converts name args fs] is
    what the handler of the tool [name] does with an argument object in
    which a property holds a value of another type than its schema
    says -- a number for a path, a text for an offset --, and the file
    system it leaves. *)
Variable converts : string -> JSON -> FS -> completion * FS.

Definition or_empty (s : string) : string :=
  match s with
  | EmptyString => "(empty)"
  | _ => s
  end.

(** The [TypeError] of the [catch] block of [bash] for an error without
    output: the sum of [stdout] and [stderr] is a number then. *)
Definition no_trim : string := "(error.stdout + error.stderr).trim is not a function".

(** A command that is [undefined] makes [execSync] throw a [TypeError],
    which has no output either. *)
Definition bash (args : Args) (fs : FS) : effect :=
  match a_cmd args with
  | None => (Throw no_trim, fs)
  | Some cmd =>
      match execSync cmd fs with
      | (Exited result, fs') => (Ret (or_empty (trim result)), fs')
      | (Failed _ stdout stderr, fs') => (Ret (or_empty (trim (stdout ++ stderr))), fs')
      | (Unstarted _, fs') => (Throw no_trim, fs')
      end
  end.

Definition undo (args : Args) (fs : FS) : effect :=
  let filepath := ToString (a_path args) in
  match execSync ("git status --porcelain " ++ filepath) fs with
  | (Exited out, fs1) =>
      match trim out with
      | EmptyString => (Ret (filepath ++ " has no uncommitted changes"), fs1)
      | _ =>
          match execSync ("git checkout -- " ++ filepath) fs1 with
          | (Exited _, fs2) =>
              (Ret ("restored " ++ filepath ++ " from git repository"), fs2)
          | (Failed message _ _, fs2) | (Unstarted message, fs2) =>
              (Ret ("error: " ++ message), fs2)
          end
      end
  | (Failed message _ _, fs1) | (Unstarted message, fs1) =>
      (Ret ("error: " ++ message), fs1)
  end.

Definition diff (args : Args) (fs : FS) : effect :=
  let target := or_str (a_path args) EmptyString in
  bash (mkArgs None None None None None None None None (Some ("git diff " ++ target))) fs.

(* ----------------------------------------------------------------- *)
(** *** grep *)

Definition hit_line (filepath : string) (idx : nat) (line : string) : string :=
  filepath ++ ":" ++ String_of (Z.of_nat idx + 1) ++ ":" ++ trimEnd line.

(** [lines.forEach((line, idx) => ...)], from index [idx] on. *)
Fixpoint grep_lines (pattern : string -> bool) (filepath : string) (idx : nat)
  (lines : list string) (hits : list string) : list string :=
  match lines with
  | [] => hits
  | line :: rest =>
      grep_lines pattern filepath (S idx) rest
        (if pattern line then (hits ++ [hit_line filepath idx line])%list else hits)
  end.

(** [walk(dir)] inside [grep]. *)
Fixpoint grep_walk (pattern : string -> bool) (dir : string) (n : node)
  (hits : list string) : list string :=
  match n with
  | Dir files =>
      (fix each (files : list (string * node)) (hits : list string) : list string :=
         match files with
         | [] => hits
         | (file, child) :: rest =>
             let filepath := path_join dir file in
             each rest
               match child with
               | Broken | Locked _ => hits
               | Dir _ | NoList => grep_walk pattern filepath child hits
               | File content _ =>
                   grep_lines pattern filepath 0 (split NL content) hits
               end
         end) files hits
  | _ => hits
  end.

(** [new RegExp(undefined)] is the regular expression of the empty
    source. *)
Definition grep (args : Args) (fs : FS) : effect :=
  match RegExp match a_pat args with
               | Some pat => pat
               | None => EmptyString
               end with
  | Ret pattern =>
      let basePath := or_str (a_path args) "." in
      let hits := grep_walk pattern basePath (node_or_missing fs basePath) [] in
      (Ret (or_none (join NL (firstn 50 hits))), fs)
  | Throw m => (Throw m, fs)
  | Beyond => (Beyond, fs)
  end.

(* ----------------------------------------------------------------- *)
(** *** Tool definitions and dispatch *)

Definition TOOLS : list (string * (Args -> FS -> effect)) :=
  [ ("read", read); ("write", write); ("edit", edit); ("glob", glob_by RegExp);
    ("grep", grep); ("bash", bash); ("diff", diff); ("undo", undo) ].

(** The properties every object inherits from [Object.prototype]. *)
Definition inherited (name : string) : bool :=
  existsb (String.eqb name)
    [ "constructor"; "__proto__"; "hasOwnProperty"; "isPrototypeOf";
      "propertyIsEnumerable"; "toLocaleString"; "toString"; "valueOf";
      "__defineGetter__"; "__defineSetter__"; "__lookupGetter__";
      "__lookupSetter__" ].

(** What a handler throws when its argument is [null]: the first
    property it reads cannot be read.  [bash] reads inside its [try],
    and its [catch] block finds an error without output. *)
Definition null_args (name : string) : string :=
  if String.eqb name "bash" then no_trim
  else "Cannot read properties of null (reading '"
         ++ (if String.eqb name "grep" then "pat" else "path") ++ "')".

Definition reads_only (name : string) : bool :=
  existsb (String.eqb name) ["read"; "glob"; "grep"].

Definition writes_files (name : string) : bool :=
  existsb (String.eqb name) ["write"; "edit"].

(** A handler at work on an argument object that needs conversions.
    What its code shows is kept: [read], [glob] and [grep] write
    nothing, and [write] and [edit] have written nothing unless they
    return [ok]. *)
Definition converting (name : string) (args : JSON) (fs : FS) : effect :=
  let (done, fs') := converts name args fs in
  match done with
  | Returned text =>
      (Ret text,
       if reads_only name then fs
       else if writes_files name && negb (String.eqb text "ok") then fs
       else fs')
  | Thrown message =>
      (Throw message, if reads_only name || writes_files name then fs else fs')
  end.

(** [TOOLS[name].fn(args)] *)
Definition call_tool (name : string) (args : JSON) (fs : FS) : effect :=
  match lookup name TOOLS with
  | Some fn =>
      match args with
      | JNull => (Throw (null_args name), fs)
      | _ =>
          match args_of args with
          | Some a => fn a fs
          | None => converting name args fs
          end
      end
  | None =>
      if inherited name
      then (Throw "TOOLS[name].fn is not a function", fs)
      else (Throw "Cannot read properties of undefined (reading 'fn')", fs)
  end.

Definition runTool (name : string) (args : JSON) (fs : FS) : effect :=
  try_catch (call_tool name args fs)
    (fun message fs' => (Ret ("error: " ++ message), fs')).

(* ----------------------------------------------------------------- *)
(** *** The agent loop *)

(** The state the loop works on. *)
Record Agent : Type := mkAgent {
  messages : list Message;
  disk : FS
}.

Definition push (m : Message) (ag : Agent) : Agent :=
  mkAgent (messages ag ++ [m]) (disk ag).

(** [for (const toolCall of toolCalls) { ... }]: an exception leaves
    the loop at once, with the state reached so far. *)
Fixpoint run_tool_calls (toolCalls : list ToolCall) (ag : Agent)
  : outcome unit * Agent :=
  match toolCalls with
  | [] => (Ret tt, ag)
  | toolCall :: rest =>
      let toolName := tc_name toolCall in
      match JSON_parse (tc_arguments toolCall) with
      | Throw m => (Throw m, ag)
      | Beyond => (Beyond, ag)
      | Ret toolArgs =>
          match argPreview toolArgs with
          | Throw m => (Throw m, ag)
          | Beyond => (Beyond, ag)
          | Ret _ =>
              match runTool toolName toolArgs (disk ag) with
              | (Ret result, fs') =>
                  run_tool_calls rest
                    (mkAgent (messages ag ++ [ToolMsg (tc_id toolCall) toolName result])
                             fs')
              | (Throw m, fs') => (Throw m, mkAgent (messages ag) fs')
              | (Beyond, fs') => (Beyond, mkAgent (messages ag) fs')
              end
          end
      end
  end.

(** How one pass through the body of [while (true)] ends. *)
Inductive pass : Type :=
| Finished                   (* [break]: the reply asked for no tool *)
| Again                      (* the next completion is requested *)
| Reported (message : string)   (* caught at the loop boundary and printed *)
| Unmodelled.

(** One pass: the stream is read, the assistant message is pushed, and
    the tool calls are run; [catch (err)] around the loop reports what
    was thrown. *)
Definition turn (chunks : list Delta) (ag : Agent) : pass * Agent :=
  let (fullContent, toolCalls) := assemble chunks in
  let assistantMessage :=
    AssistantMsg fullContent
      match toolCalls with
      | [] => None
      | _ => Some toolCalls
      end in
  let ag := push assistantMessage ag in
  match toolCalls with
  | [] => (Finished, ag)
  | _ =>
      match run_tool_calls toolCalls ag with
      | (Ret _, ag') => (Again, ag')
      | (Throw m, ag') => (Reported m, ag')
      | (Beyond, ag') => (Unmodelled, ag')
      end
  end.

End Registry.

(* ================================================================= *)
(** ** The console *)

Definition ESC : ascii := chr 27.
Definition RESET : string := String ESC "[0m".
Definition BOLD : string := String ESC "[1m".

(** [(.+?)\*\*] tried behind the opening stars: the dot takes one
    character that ends no line, and then as few more as are needed to
    arrive at two stars.  The result is the group and the text that
    follows the closing stars. *)
Fixpoint lazy_group (s : string) : option (string * string) :=
  match s with
  | EmptyString => None
  | String c s' =>
      if line_terminator c then None
      else if starts_with "**" s' then Some (str1 c, drop 2 s')
      else match lazy_group s' with
           | Some (g, rest) => Some (String c g, rest)
           | None => None
           end
  end.

(** [text.replace(/\*\*(.+?)\*\*/g, BOLD + "$1" + RESET)]: the matches
    are looked for from left to right, and the search goes on behind a
    match; [skip] counts the characters of a match still to be passed. *)
Fixpoint renderMarkdown_go (skip : nat) (s : string) : string :=
  match s with
  | EmptyString => EmptyString
  | String c s' =>
      match skip with
      | S k => renderMarkdown_go k s'
      | O =>
          if starts_with "**" s
          then match lazy_group (drop 2 s) with
               | Some (g, rest) =>
                   BOLD ++ g ++ RESET
                     ++ renderMarkdown_go (String.length s - String.length rest - 1) s'
               | None => String c (renderMarkdown_go 0 s')
               end
          else String c (renderMarkdown_go 0 s')
      end
  end.

Definition renderMarkdown (text : string) : string := renderMarkdown_go 0 text.

(* ================================================================= *)
(** ** The schemas of the tools *)

(** [s.endsWith(suffix)] *)
Fixpoint endsWith (suffix s : string) : bool :=
  String.eqb s suffix ||
  match s with
  | EmptyString => false
  | String _ s' => endsWith suffix s'
  end.

(** The [description] and the [schema] of every entry of [TOOLS], as
    [Object.entries] lists them. *)
Definition TOOL_SCHEMAS : list (string * (string * list (string * string))) :=
  [ ("read", ("Read file with line numbers (file path, not directory)",
              [("path", "string"); ("offset", "number?"); ("limit", "number?")]));
    ("write", ("Write content to file",
               [("path", "string"); ("content", "string")]));
    ("edit", ("Replace old with new in file (old must be unique unless all=true)",
              [("path", "string"); ("old", "string"); ("new", "string");
               ("all", "boolean?")]));
    ("glob", ("Find files by pattern, sorted by mtime",
              [("pat", "string"); ("path", "string?")]));
    ("grep", ("Search files for regex pattern",
              [("pat", "string"); ("path", "string?")]));
    ("bash", ("Run shell command", [("cmd", "string")]));
    ("diff", ("Show diff of file", [("path", "string")]));
    ("undo", ("Undo changes in file", [("path", "string")])) ].

(** What [makeSchema] tells the model about one tool. *)
Record FunctionSchema : Type := mkFunctionSchema {
  s_name : string;
  s_description : string;
  s_properties : list (string * string);   (* parameter, [type] *)
  s_required : list string
}.

(** The body of [for (const [paramName, paramType] of ...)]. *)
Definition declare (acc : list (string * string) * list string)
  (entry : string * string) : list (string * string) * list string :=
  let (properties, required) := acc in
  let (paramName, paramType) := entry in
  let isOptional := endsWith "?" paramType in
  let baseType := replace_first "?" EmptyString paramType in
  (assign paramName (if String.eqb baseType "number" then "integer" else baseType)
     properties,
   if isOptional then required else (required ++ [paramName])%list).

Definition tool_schema (tool : string * (string * list (string * string)))
  : FunctionSchema :=
  let '(name, (description, schema)) := tool in
  let (properties, required) := fold_left declare schema ([], []) in
  mkFunctionSchema name description properties required.

Definition makeSchema : list FunctionSchema := map tool_schema TOOL_SCHEMAS.

(* ================================================================= *)
(** ** The lines of the stream *)

(** The body of [for await (const line of rl)] in [callApi], for the
    lines of a response with status 200: what the generator yields.  A
    line that does not parse is reported on the console and passed
    over. *)
Fixpoint sse_chunks (lines : list string) : outcome (list JSON) :=
  match lines with
  | [] => Ret []
  | line :: rest =>
      let trimmed := trim line in
      if String.eqb trimmed EmptyString || String.eqb trimmed "data: [DONE]"
      then sse_chunks rest
      else if starts_with "data: " trimmed
      then match JSON_parse (drop 6 trimmed) with
           | Ret chunk => bind (sse_chunks rest) (fun chunks => Ret (chunk :: chunks))
           | Throw _ => sse_chunks rest
           | Beyond => Beyond
           end
      else sse_chunks rest
  end.

(* ================================================================= *)
(** ** The loop of a conversation *)

Section Conversation.

Variable execSync : string -> FS -> exec * FS.
Variable RegExp : string -> outcome (string -> bool).
Variable converts : string -> JSON -> FS -> completion * FS.

(** [callApi(messages, systemPrompt)] read to its end by [for await]:
    the deltas of the chunks, or what was thrown on the way -- by the
    request, by a status other than 200, or by a chunk without a delta. *)
Variable callApi : list Message -> outcome (list Delta).

(** [while (true) { ... }], for at most [passes] passes: [Again] says
    that the loop is still running after them. *)
Fixpoint converse (passes : nat) (ag : Agent) : pass * Agent :=
  match passes with
  | O => (Again, ag)
  | S k =>
      match callApi (messages ag) with
      | Ret chunks =>
          match turn execSync RegExp converts chunks ag with
          | (Again, ag') => converse k ag'
          | ended => ended
          end
      | Throw m => (Reported m, ag)
      | Beyond => (Unmodelled, ag)
      end
  end.

(** What the handler of a line of input did with it. *)
Inductive handled : Type :=
| Ignored                   (* an empty line *)
| Closed                    (* [/quit] or [exit] *)
| Cleared                   (* [/clear] *)
| Conversed (how : pass).

(** [rl.on('line', async (userInput) => { ... })], for a line that is
    handled to its end before the next one arrives. *)
Definition on_line (passes : nat) (userInput : string) (ag : Agent)
  : handled * Agent :=
  let userInput := trim userInput in
  match userInput with
  | EmptyString => (Ignored, ag)
  | _ =>
      if String.eqb userInput "/quit" || String.eqb userInput "exit"
      then (Closed, ag)
      else if String.eqb userInput "/clear"
      then (Cleared, mkAgent [] (disk ag))
      else
        let (how, ag') := converse passes (push (UserMsg userInput) ag) in
        (Conversed how, ag')
  end.

End Conversation.

(* ================================================================= *)
(** ** The non-streaming variant: tools and loop *)

Module Nanocode.

Section Registry.

Variable execSync : string -> FS -> exec * FS.
Variable RegExp : string -> outcome (string -> bool).
Variable converts : string -> JSON -> FS -> completion * FS.

Definition glob_file (wd : list string) (pattern : option string)
  (filepath : string) (mtime : Z) (results : list found) : outcome (list found) :=
  let relativePath := path_relative wd "." filepath in
  match Nano.matchPattern_by RegExp relativePath pattern with
  | Ret true => Ret (results ++ [mkFound relativePath mtime])%list
  | Ret false => Ret results
  | Throw _ => Ret results
  | Beyond => Beyond
  end.

Fixpoint glob_walk (wd : list string) (pattern : option string) (dir : string)
  (n : node) (results : list found) : outcome (list found) :=
  match n with
  | Dir files =>
      (fix each (files : list (string * node)) (results : list found)
         : outcome (list found) :=
         match files with
         | [] => Ret results
         | (file, child) :: rest =>
             let filepath := path_join dir file in
             bind
               match child with
               | Broken => Ret results
               | Dir _ | NoList => glob_walk wd pattern filepath child results
               | File _ mtime | Locked mtime =>
                   glob_file wd pattern filepath mtime results
               end
               (each rest)
         end) files results
  | _ => Ret results
  end.

Definition glob (args : Args) (fs : FS) : effect :=
  let basePath := or_str (a_path args) "." in
  let pattern := a_pat args in
  match glob_walk (cwd fs) pattern basePath (node_or_missing fs basePath) [] with
  | Ret results =>
      (Ret (or_none (join NL (map f_path (Array_sort by_mtime results)))), fs)
  | Throw m => (Throw m, fs)
  | Beyond => (Beyond, fs)
  end.

Definition TOOLS : list (string * (Args -> FS -> effect)) :=
  [ ("read", read); ("write", write); ("edit", edit); ("glob", glob);
    ("grep", grep RegExp); ("bash", bash execSync) ].

Definition call_tool (name : string) (args : JSON) (fs : FS) : effect :=
  match lookup name TOOLS with
  | Some fn =>
      match args with
      | JNull => (Throw (null_args name), fs)
      | _ =>
          match args_of args with
          | Some a => fn a fs
          | None => converting converts name args fs
          end
      end
  | None =>
      if inherited name
      then (Throw "TOOLS[name].fn is not a function", fs)
      else (Throw "Cannot read properties of undefined (reading 'fn')", fs)
  end.

Definition runTool (name : string) (args : JSON) (fs : FS) : effect :=
  try_catch (call_tool name args fs)
    (fun message fs' => (Ret ("error: " ++ message), fs')).

(** One element of [response.content]. *)
Inductive Block : Type :=
| TextBlock (text : string)
| ToolUse (id : option string) (name : string) (input : JSON)
| OtherBlock.

Record ToolResult : Type := mkToolResult {
  tool_use_id : option string;
  tr_content : string
}.

Inductive Message : Type :=
| UserMsg (content : string)
| AssistantMsg (content : list Block)
| ResultsMsg (content : list ToolResult).

Record Agent : Type := mkAgent {
  messages : list Message;
  disk : FS
}.

(** [for (const block of contentBlocks) { ... }]; [toolResults] is the
    array the loop pushes to.  The preview of this variant,
    [String(Object.values(toolArgs)[0]).slice(0, 50)], can be made of
    the same inputs as the one of the streaming variant. *)
Fixpoint run_blocks (blocks : list Block) (fs : FS) (toolResults : list ToolResult)
  : outcome (list ToolResult) * FS :=
  match blocks with
  | [] => (Ret toolResults, fs)
  | ToolUse id toolName toolArgs :: rest =>
      match argPreview toolArgs with
      | Throw m => (Throw m, fs)
      | Beyond => (Beyond, fs)
      | Ret _ =>
          match runTool toolName toolArgs fs with
          | (Ret result, fs') =>
              run_blocks rest fs' (toolResults ++ [mkToolResult id result])%list
          | (Throw m, fs') => (Throw m, fs')
          | (Beyond, fs') => (Beyond, fs')
          end
      end
  | _ :: rest => run_blocks rest fs toolResults
  end.

(** One pass through the body of [while (true)], for the content blocks
    of a response. *)
Definition turn (contentBlocks : list Block) (ag : Agent) : pass * Agent :=
  match run_blocks contentBlocks (disk ag) [] with
  | (Ret toolResults, fs') =>
      let pushed := (messages ag ++ [AssistantMsg contentBlocks])%list in
      match toolResults with
      | [] => (Finished, mkAgent pushed fs')
      | _ => (Again, mkAgent (pushed ++ [ResultsMsg toolResults])%list fs')
      end
  | (Throw m, fs') => (Reported m, mkAgent (messages ag) fs')
  | (Beyond, fs') => (Unmodelled, mkAgent (messages ag) fs')
  end.

End Registry.

End Nanocode.

(* ================================================================= *)
(** * Specification-side notions

    The definitions below are not taken from the sources: they say, in
    the words of the claims, what the code above is compared with. *)

(* ----------------------------------------------------------------- *)
(** *** Texts *)

(** [sub] occurs somewhere in [s]. *)
Definition contains (s sub : string) : Prop := includes s sub = true.

(** Every character of [s] satisfies [p]. *)
Fixpoint all_chars (p : ascii -> bool) (s : string) : bool :=
  match s with
  | EmptyString => true
  | String c s' => p c && all_chars p s'
  end.

(** The pieces of [l] glued together, first piece first. *)
Definition glue (l : list string) : string := fold_right append EmptyString l.

(** The number of positions of [text] at which [old] occurs; two
    occurrences may overlap. *)
Fixpoint occurrences (old text : string) : nat :=
  (if starts_with old text then 1 else 0) +
  match text with
  | EmptyString => 0
  | String _ t => occurrences old t
  end.

(** The number of occurrences of [old] met when [text] is scanned from
    left to right and the scan resumes behind each occurrence found, so
    that no two of them overlap; [skip] counts the characters of the
    last occurrence still to be passed. *)
Fixpoint disjoint_go (old : string) (skip : nat) (s : string) : nat :=
  match skip with
  | S k =>
      match s with
      | EmptyString => 0
      | String _ s' => disjoint_go old k s'
      end
  | O =>
      if starts_with old s
      then S match s with
             | EmptyString => 0
             | String _ s' => disjoint_go old (String.length old - 1) s'
             end
      else match s with
           | EmptyString => 0
           | String _ s' => disjoint_go old 0 s'
           end
  end.

Definition disjoint_occurrences (old text : string) : nat := disjoint_go old 0 text.

(** The regular expression that matches the text [old] and nothing else. *)
Fixpoint literal (old : string) : list term :=
  match old with
  | EmptyString => []
  | String c old' => TAtom (AChar c) QOne :: literal old'
  end.


(** The elements of [xs] whose index lies in the half-open range from
    [lo] to [hi]; the first element has index [from]. *)
Fixpoint half_open {A : Type} (from : Z) (xs : list A) (lo hi : Z) : list A :=
  match xs with
  | [] => []
  | x :: xs' =>
      if ((lo <=? from) && (from <? hi))%Z
      then x :: half_open (from + 1) xs' lo hi
      else half_open (from + 1) xs' lo hi
  end.

(* ----------------------------------------------------------------- *)
(** *** Argument objects *)

Definition read_args (p : string) (offset limit : option Z) : Args :=
  mkArgs (Some p) offset limit None None None None None None.

Definition edit_args (p old new : string) (all : option bool) : Args :=
  mkArgs (Some p) None None None (Some old) (Some new) all None None.

Definition search_args (pat : string) (base : option string) : Args :=
  mkArgs base None None None None None None (Some pat) None.

(* ----------------------------------------------------------------- *)
(** *** The assembler and the loop *)

(** The fragments of a stream, in the order of their arrival. *)
Definition fragments_of (chunks : list Delta) : list Fragment :=
  flat_map (fun d => match d_tool_calls d with
                     | Some tcs => tcs
                     | None => []
                     end) chunks.

Definition text_of (x : option string) : string :=
  match x with
  | Some s => s
  | None => EmptyString
  end.

Definition at_index (i : Z) (f : Fragment) : bool := Z.eqb (fr_index f) i.

(** An index at which an array has an element: an integer from 0 to
    2^32 - 2. *)
Definition element_index (i : Z) : Prop := (0 <= i <= 4294967294)%Z.

(** The tool call that the fragments of index [i] spell out: the id of
    the first of them, and their names and arguments texts in the order
    of arrival; [None] when no fragment has that index. *)
Definition spelled (frs : list Fragment) (i : Z) : option ToolCall :=
  match filter (at_index i) frs with
  | [] => None
  | f :: rest =>
      Some (mkToolCall (fr_id f)
              (glue (map (fun g => text_of (fr_name g)) (f :: rest)))
              (glue (map (fun g => text_of (fr_arguments g)) (f :: rest))))
  end.

(** What a fragment makes of the slot of its index. *)
Definition merged (slot : option ToolCall) (tc : Fragment) : ToolCall :=
  match slot with
  | Some acc =>
      mkToolCall (tc_id acc)
        (tc_name acc ++ text_of (fr_name tc))
        (tc_arguments acc ++ text_of (fr_arguments tc))
  | None =>
      mkToolCall (fr_id tc) (text_of (fr_name tc)) (text_of (fr_arguments tc))
  end.

(** The tool-result message that answers a call. *)
Definition answers (m : Message) (c : ToolCall) : Prop :=
  exists content, m = ToolMsg (tc_id c) (tc_name c) content.

(* ----------------------------------------------------------------- *)
(** *** What the walks of [glob] and [grep] are to visit *)

(** A listable directory lies at [path]. *)
Definition dir_at (n : node) (path : list string) : bool :=
  match get n path with
  | Some (Dir _) => true
  | _ => false
  end.

(** The entries below [dir] that are no directories and can be looked
    at by [stat], with their paths as the walk builds them and their
    modification times, in the order of the walk. *)
Fixpoint stat_files (dir : string) (n : node) : list (string * Z) :=
  match n with
  | Dir files =>
      (fix each (files : list (string * node)) : list (string * Z) :=
         match files with
         | [] => []
         | (file, child) :: rest =>
             (match child with
              | File _ mtime | Locked mtime => [(path_join dir file, mtime)]
              | Dir _ => stat_files (path_join dir file) child
              | NoList | Broken => []
              end ++ each rest)%list
         end) files
  | _ => []
  end.









(** The files a [glob] from [base] has to choose from, each with its
    path relative to the working directory; a path that leads nowhere
    gives nothing to walk. *)
Definition candidates (fs : FS) (base : string) : list found :=
  map (fun '(filepath, mtime) => mkFound (path_relative (cwd fs) "." filepath) mtime)
      match node_at fs base with
      | Some n => stat_files base n
      | None => []
      end.

(** An engine of regular expressions that knows all of their syntax:
    it accepts a source, and tells which texts have a match, or rejects
    it with a [SyntaxError]. *)
Inductive regexp : Type :=
| Accepted (test : string -> bool)
| Rejected (message : string).

(** [new RegExp(source)] in such an engine. *)
Definition RegExp_of (engine : string -> regexp) (source : string)
  : outcome (string -> bool) :=
  match engine source with
  | Accepted t => Ret t
  | Rejected m => Throw m
  end.

(** An engine that knows the fragment of this development, and rejects
    every other source. *)
Definition small_engine (source : string) : regexp :=
  match RegExp_new source with
  | Compiled r => Accepted (test r)
  | SyntaxError why => Rejected (invalid_regexp source why)
  | Unsupported => Rejected (invalid_regexp source "Syntax outside the fragment")
  end.

(** The path of [f] matches the pattern, as the engine [RegExp] reads
    the translation of the pattern; no path matches a pattern that is
    missing or whose translation is rejected. *)
Definition accepts_by (RegExp : string -> outcome (string -> bool))
  (pattern : option string) (f : found) : bool :=
  match pattern with
  | Some p =>
      match RegExp ("^" ++ regexPattern p ++ "$") with
      | Ret re => re (f_path f)
      | _ => false
      end
  | None => false
  end.

Definition accepts (pattern : string) (f : found) : bool :=
  match matchPattern (f_path f) pattern with
  | Ret true => true
  | _ => false
  end.

(** The engine [RegExp] accepts or rejects the translation of the
    pattern: what it does with it is not left open. *)
Definition completes (RegExp : string -> outcome (string -> bool))
  (pattern : option string) : Prop :=
  match pattern with
  | Some p => RegExp ("^" ++ regexPattern p ++ "$") <> Beyond
  | None => True
  end.

(** [a] is at least as new as [b]. *)
Definition not_older (a b : found) : Prop := (f_mtime b <= f_mtime a)%Z.

(** The translated pattern is a regular expression of the fragment, or
    one that [RegExp] refuses. *)
Definition translatable (pattern : string) : bool :=
  match RegExp_new ("^" ++ regexPattern pattern ++ "$") with
  | Unsupported => false
  | _ => true
  end.

(* ----------------------------------------------------------------- *)
(** *** Glob patterns *)

(** What a glob pattern is made of. *)
Inductive gtoken : Type :=
| GDot                (* [.] *)
| GChar (c : ascii)   (* a character other than [.], [*] and [?] *)
| GAny                (* [?] *)
| GStar               (* [*] *)
| GDeep.              (* [**] *)

(** The token of a character that is no star of a pair. *)
Definition classify (c : ascii) : gtoken :=
  if Ascii.eqb c "." then GDot
  else if Ascii.eqb c "?" then GAny
  else if Ascii.eqb c "*" then GStar
  else GChar c.

(** A pattern read from left to right; two stars in a row are one [**]. *)
Fixpoint tokens (pattern : string) : list gtoken :=
  match pattern with
  | EmptyString => []
  | String c rest =>
      if Ascii.eqb c "*"
      then match rest with
           | String d rest' =>
               if Ascii.eqb d "*" then GDeep :: tokens rest' else GStar :: tokens rest
           | EmptyString => GStar :: tokens rest
           end
      else classify c :: tokens rest
  end.

Definition not_slash (c : ascii) : bool := negb (Ascii.eqb c "/").
Definition any_char (c : ascii) : bool := true.
Definition not_newline (c : ascii) : bool := negb (line_terminator c).

(** Glob matching of a whole path, in the words of the specification:
    a dot and any other plain character stand for themselves, [?] for
    exactly one character, [*] for any run of characters without a
    slash, [**] for any run of characters.  [wild] says which characters
    [?] and [**] stand for. *)
Inductive glob_matches (wild : ascii -> bool) : list gtoken -> string -> Prop :=
| gm_end : glob_matches wild [] EmptyString
| gm_dot ts s :
    glob_matches wild ts s -> glob_matches wild (GDot :: ts) (String "." s)
| gm_char c ts s :
    glob_matches wild ts s -> glob_matches wild (GChar c :: ts) (String c s)
| gm_any c ts s :
    wild c = true ->
    glob_matches wild ts s -> glob_matches wild (GAny :: ts) (String c s)
| gm_star u ts s :
    all_chars not_slash u = true ->
    glob_matches wild ts s -> glob_matches wild (GStar :: ts) (u ++ s)
| gm_deep u ts s :
    all_chars wild u = true ->
    glob_matches wild ts s -> glob_matches wild (GDeep :: ts) (u ++ s).

(** The text that [matchPattern] makes of a token. *)
Definition image (t : gtoken) : string :=
  match t with
  | GDot => "\."
  | GChar c => str1 c
  | GAny => "."
  | GStar => "[^/]*"
  | GDeep => ".*"
  end.

(** The term of a regular expression that a token stands for. *)
Definition term_of (t : gtoken) : term :=
  match t with
  | GDot => TAtom (AChar ".") QOne
  | GChar c => TAtom (AChar c) QOne
  | GAny => TAtom AAny QOne
  | GStar => TAtom (AClass true ["/"%char]) QStar
  | GDeep => TAtom AAny QStar
  end.

(** A token that a regular expression reads as the glob means it. *)
Definition plain_token (t : gtoken) : bool :=
  match t with
  | GChar c => negb (syntax_char c)
  | _ => true
  end.

(** A character that means in a regular expression what it means in a
    glob, once the translation is done. *)
Definition glob_char (c : ascii) : bool :=
  negb (syntax_char c) || Ascii.eqb c "." || Ascii.eqb c "*" || Ascii.eqb c "?".

(** The patterns on which [matchPattern] is a glob matcher: [.], [*]
    and [?] apart, no character has a meaning in a regular expression,
    and the placeholder of the translation does not begin anywhere. *)
Definition glob_safe (pattern : string) : bool :=
  all_chars glob_char pattern && negb (includes pattern "__DOUBLE_STAR").

(* ----------------------------------------------------------------- *)
(** *** The steps of the translation of a pattern *)

(** The text of a token before the translation and after each of its
    steps but the last, whose result is [image]. *)
Definition source_text (t : gtoken) : string :=
  match t with
  | GDot => "."
  | GChar c => str1 c
  | GAny => "?"
  | GStar => "*"
  | GDeep => "**"
  end.

Definition stage1 (t : gtoken) : string :=
  match t with
  | GDot => "\."
  | _ => source_text t
  end.

Definition stage2 (t : gtoken) : string :=
  match t with
  | GDeep => DOUBLE_STAR
  | _ => stage1 t
  end.

Definition stage3 (t : gtoken) : string :=
  match t with
  | GStar => "[^/]*"
  | _ => stage2 t
  end.

Definition stage4 (t : gtoken) : string :=
  match t with
  | GDeep => ".*"
  | _ => stage3 t
  end.

(** The text of a token after the second and the third step of the
    non-streaming variant. *)
Definition nano2 (t : gtoken) : string :=
  match t with
  | GDeep => ".*"
  | _ => stage1 t
  end.

Definition nano3 (t : gtoken) : string :=
  match t with
  | GStar => "[^/]*"
  | _ => nano2 t
  end.

Definition special (c : ascii) : bool :=
  Ascii.eqb c "." || Ascii.eqb c "*" || Ascii.eqb c "?".

(** What [tokens] guarantees: a [GChar] is none of the three special
    characters, and no star follows a single star. *)
Fixpoint well_formed (ts : list gtoken) : bool :=
  match ts with
  | [] => true
  | t :: rest =>
      match t with
      | GChar c => negb (special c)
      | GStar =>
          match rest with
          | GStar :: _ | GDeep :: _ => false
          | _ => true
          end
      | _ => true
      end && well_formed rest
  end.

Fixpoint no_deep (ts : list gtoken) : bool :=
  match ts with
  | [] => true
  | GDeep :: _ => false
  | _ :: rest => no_deep rest
  end.

(** The tokens begin with the plain characters of [w]. *)
Fixpoint spells (w : string) (ts : list gtoken) : bool :=
  match w with
  | EmptyString => true
  | String c w' =>
      match ts with
      | GChar d :: ts' => Ascii.eqb c d && spells w' ts'
      | _ => false
      end
  end.

Fixpoint never_spells (w : string) (ts : list gtoken) : bool :=
  negb (spells w ts) &&
  match ts with
  | [] => true
  | _ :: rest => never_spells w rest
  end.

(** No character of [u] after the first one is [h]. *)
Definition tail_free (h : ascii) (u : string) : bool :=
  match u with
  | EmptyString => true
  | String _ u' => all_chars (fun c => negb (Ascii.eqb h c)) u'
  end.

(** One token under one step of the translation, [rest] being the text
    that follows it: the token is the text to replace, or no occurrence
    of that text begins inside it. *)
Definition step_ok (pat rep : string) (h : ascii) (before after : gtoken -> string)
  (t : gtoken) (rest : string) : Prop :=
  (before t = pat /\ after t = rep) \/
  (after t = before t /\
   starts_with pat (before t ++ rest) = false /\
   tail_free h (before t) = true).

Fixpoint steps_ok (pat rep : string) (h : ascii) (before after : gtoken -> string)
  (ts : list gtoken) : Prop :=
  match ts with
  | [] => True
  | t :: rest =>
      step_ok pat rep h before after t (glue (map before rest)) /\
      steps_ok pat rep h before after rest
  end.

(** A word that can only be spelled by plain characters: none of its
    characters begins the text of another token, and where it has an
    underscore, a placeholder cannot take over. *)
Fixpoint word_ok (w tail : string) : bool :=
  match w with
  | EmptyString => true
  | String c w' =>
      negb (Ascii.eqb c "\") && negb (Ascii.eqb c "?") && negb (Ascii.eqb c "[")
      && (negb (Ascii.eqb c "_")
          || match w' ++ tail with
             | String d _ => negb (Ascii.eqb d "_")
             | EmptyString => false
             end)
      && word_ok w' tail
  end.

(* ----------------------------------------------------------------- *)
(** *** Concrete data for the examples *)

(** A shell that cannot start any command, a [RegExp] outside the
    model, and conversions that always throw: they close the registry
    where a tool that needs none of them is run on concrete data. *)
Definition no_shell (cmd : string) (fs : FS) : exec * FS :=
  (Unstarted "spawnSync /bin/sh ENOENT", fs).

Definition no_RegExp (source : string) : outcome (string -> bool) := Beyond.

Definition no_conversion (name : string) (args : JSON) (fs : FS) : completion * FS :=
  (Thrown "a value of this type cannot be converted", fs).

(** The JSON text of an object with the string members [fields]. *)
Definition json_object (fields : list (string * string)) : string :=
  "{" ++ join "," (map (fun '(k, v) => quoted k ++ ":" ++ quoted v) fields) ++ "}".

(** An empty working directory [/work]. *)
Definition empty_disk : FS := mkFS (Dir [("work", Dir [])]) ["work"] 1000.

(** The arguments texts of two calls of [write]. *)
Definition write_a : string := json_object [("path", "a.txt"); ("content", "one")].
Definition write_b : string := json_object [("path", "b.txt"); ("content", "two")].

(** A reply that asks for three tool calls in one round; the second
    one's arguments text breaks off after the brace. *)
Definition three_calls : list Delta :=
  [ mkDelta None (Some [ mkFragment 0 (Some "call_0") (Some "write") (Some write_a);
                         mkFragment 1 (Some "call_1") (Some "write") (Some "{");
                         mkFragment 2 (Some "call_2") (Some "write") (Some write_b) ]) ].

(** A reply that asks for two tool calls; the first one is malformed. *)
Definition two_calls : list Delta :=
  [ mkDelta None (Some [ mkFragment 0 (Some "call_0") (Some "write") (Some "{");
                         mkFragment 1 (Some "call_1") (Some "write") (Some write_b) ]) ].

(** The arguments text of a call of [write] whose path is an object
    with a member [toString]. *)
Definition poisoned : string :=
  "{" ++ quoted "path" ++ ":{" ++ quoted "toString" ++ ":null},"
    ++ quoted "content" ++ ":" ++ quoted "one" ++ "}".

(** A reply that asks for two tool calls; the first one has arguments
    of which no preview can be made. *)
Definition poisoned_call : list Delta :=
  [ mkDelta None (Some [ mkFragment 0 (Some "call_0") (Some "write") (Some poisoned);
                         mkFragment 1 (Some "call_1") (Some "write") (Some write_b) ]) ].

(** A reply whose single tool call arrives in two chunks that cut the
    arguments text inside a string. *)
Definition split_arguments : list Delta :=
  [ mkDelta None
      (Some [ mkFragment 0 (Some "call_0") (Some "read")
                (Some ("{" ++ quoted "path" ++ ":" ++ str1 DQUOTE ++ "a")) ]);
    mkDelta None
      (Some [ mkFragment 0 None None (Some (".txt" ++ str1 DQUOTE ++ "}")) ]) ].

(** The agent after the user has asked for something, on an empty disk. *)
Definition asked : Agent := mkAgent [UserMsg "save the notes"] empty_disk.

Definition poem : string := "hello" ++ NL ++ "world" ++ NL ++ "end".


(** A directory with one file of sixty lines [a]. *)
Definition ledger : FS :=
  mkFS (Dir [("work", Dir [("big.txt", File (join NL (repeat "a" 60)) 5)])])
       ["work"] 1000.

(** A project directory [/work] with a few files. *)
Definition project : FS :=
  mkFS (Dir [("work",
              Dir [ ("a.txt", File poem 5);
                    ("src", Dir [ ("b.js", File "let x = 1" 7);
                                  ("c.txt", File "aaa" 9);
                                  ("d.txt", Locked 8) ]);
                    ("price.txt", File "total = X" 3);
                    ("z.txt", File "z" 9) ])])
       ["work"] 1000.

(* ----------------------------------------------------------------- *)
(** *** Places on the disk *)

(** A listable directory is found at the path [p]. *)
Definition lists (fs : FS) (p : string) : bool :=
  match node_at fs p with
  | Some (Dir _) => true
  | _ => false
  end.

(** The place in the tree that the path [p] leads to, as the names from
    the root down; the last step need not exist yet. *)
Definition locate (fs : FS) (p : string) : option (list string) :=
  match p with
  | EmptyString => None
  | _ => option_map (@rev string) (canon (root fs) (start_of fs p) (split "/" p))
  end.

(** The places that a walk from the position [pos] along [segs] comes
    by, the place it starts at being the first. *)
Fixpoint route (top : node) (pos segs : list string) : list (list string) :=
  rev pos ::
  match segs with
  | [] => []
  | s :: rest =>
      match get top (rev pos) with
      | Some (Dir _) =>
          if is_dot s then route top pos rest
          else if String.eqb s ".." then route top (tl pos) rest
          else route top (s :: pos) rest
      | _ => []
      end
  end.

(** The places that the path [p] comes by; where the path can be
    walked to its end, the last of them is the place it leads to. *)
Definition passes (fs : FS) (p : string) : list (list string) :=
  match p with
  | EmptyString => []
  | _ => route (root fs) (start_of fs p) (split "/" p)
  end.

(** A shell that prints its command line between blank space. *)
Definition echo_shell (cmd : string) (fs : FS) : exec * FS :=
  (Exited ("  " ++ cmd ++ NL), fs).

(* ----------------------------------------------------------------- *)
(** *** Markdown *)

Definition not_star (c : ascii) : bool := negb (Ascii.eqb c "*").

(** A character of a bold span: no star, and no end of a line. *)
Definition span_char (c : ascii) : bool := not_star c && not_newline c.

(* ----------------------------------------------------------------- *)
(** *** Parameters of a tool *)

(** A parameter is required or optional, and has a base type. *)
Inductive param : Type :=
| Required (base : string)
| Optional (base : string).

Definition base_of (k : param) : string :=
  match k with
  | Required b | Optional b => b
  end.

Definition is_required (k : param) : bool :=
  match k with
  | Required _ => true
  | Optional _ => false
  end.

(** The way [TOOLS] writes a parameter down: a question mark behind the
    base type marks an optional one. *)
Definition written (k : param) : string :=
  match k with
  | Required b => b
  | Optional b => b ++ "?"
  end.

(** The JSON Schema type of a base type. *)
Definition json_type (base : string) : string :=
  if String.eqb base "number" then "integer" else base.

Definition not_question (c : ascii) : bool := negb (Ascii.eqb c "?").

(* ----------------------------------------------------------------- *)
(** *** Transcripts *)

(** What a conversation gains between a message of the user and the
    end of the loop: rounds of an assistant message that asks for tools
    and one answer for each of its calls, and then an assistant message
    that asks for none. *)
Inductive exchange : list Message -> Prop :=
| exchange_end content : exchange [AssistantMsg content None]
| exchange_round content calls replies rest :
    calls <> [] ->
    Forall2 answers replies calls ->
    exchange rest ->
    exchange (AssistantMsg content (Some calls) :: replies ++ rest)%list.

(** A server that asks for one [write] and is content with the answer. *)
Definition one_write (history : list Message) : outcome (list Delta) :=
  match history with
  | [_] => Ret [ mkDelta (Some "saving")
                   (Some [mkFragment 0 (Some "call_0") (Some "write") (Some write_a)]) ]
  | _ => Ret [ mkDelta (Some "done") None ]
  end.

(* ----------------------------------------------------------------- *)
(** *** Blocks of the non-streaming variant *)

(** The ids of the blocks that ask for a tool, in their order. *)
Fixpoint tool_use_ids (blocks : list Nanocode.Block) : list (option string) :=
  match blocks with
  | [] => []
  | Nanocode.ToolUse id _ _ :: rest => id :: tool_use_ids rest
  | _ :: rest => tool_use_ids rest
  end.

(** A value that the console can show: it is not an object that has a
    member [toString], nor an array with such an object in it. *)
Fixpoint showable (v : JSON) : bool :=
  match v with
  | JObj fields => negb (existsb (fun kv => String.eqb (fst kv) "toString") fields)
  | JArr items => forallb showable items
  | _ => true
  end.

(** An input of which the loop can show a preview: it is not [null],
    and all that it holds can be shown. *)
Definition previewable (input : JSON) : bool :=
  match input with
  | JNull => false
  | JObj fields => forallb (fun kv => showable (snd kv)) fields
  | JArr items => forallb showable items
  | _ => true
  end.

(** The inputs of the blocks that ask for a tool, in their order. *)
Fixpoint tool_use_inputs (blocks : list Nanocode.Block) : list JSON :=
  match blocks with
  | [] => []
  | Nanocode.ToolUse _ _ input :: rest => input :: tool_use_inputs rest
  | _ :: rest => tool_use_inputs rest
  end.

(* ----------------------------------------------------------------- *)
(** *** Patterns without a wildcard *)

(** A character that stands for itself in a glob pattern and in its
    translation: the dot, or a character without a meaning in a regular
    expression. *)
Definition name_char (c : ascii) : bool :=
  Ascii.eqb c "." || negb (syntax_char c).

(* ----------------------------------------------------------------- *)
(** *** Lines of a stream that carry no chunk *)

(** A line that is blank, that is the end marker, that is no [data: ]
    line, or whose data is no JSON text. *)
Definition carries_nothing (line : string) : Prop :=
  trim line = EmptyString \/
  trim line = "data: [DONE]" \/
  starts_with "data: " (trim line) = false \/
  exists m, JSON_parse (drop 6 (trim line)) = Throw m.

(* ----------------------------------------------------------------- *)
(** *** Files of one age *)

Definition of_age (t : Z) (f : found) : bool := Z.eqb (f_mtime f) t.

(* ================================================================= *)
(** * Properties *)

(** ** Strings *)

Lemma append_empty_r (s : string) : s ++ EmptyString = s.
Proof. induction s as [|c s IH]; simpl; [reflexivity | now rewrite IH]. Qed.

Lemma append_assoc (a b c : string) : (a ++ b) ++ c = a ++ (b ++ c).
Proof. induction a as [|x a IH]; simpl; [reflexivity | now rewrite IH]. Qed.

Lemma length_append (a b : string) :
  String.length (a ++ b) = String.length a + String.length b.
Proof. induction a as [|x a IH]; simpl; [reflexivity | now rewrite IH]. Qed.

Lemma starts_with_append (p r : string) : starts_with p (p ++ r) = true.
Proof.
  induction p as [|c p IH]; simpl; [reflexivity|].
  now rewrite Ascii.eqb_refl, IH.
Qed.

Lemma starts_with_split (p s : string) :
  starts_with p s = true -> s = p ++ drop (String.length p) s.
Proof.
  revert s; induction p as [|c p IH]; intros s H; simpl in *; [reflexivity|].
  destruct s as [|d s]; [discriminate|].
  apply andb_true_iff in H as [Hc Hp].
  apply Ascii.eqb_eq in Hc; subst d.
  now rewrite <- (IH s Hp).
Qed.

Lemma starts_with_iff (p s : string) :
  starts_with p s = true <-> exists r, s = p ++ r.
Proof.
  split.
  - intros H; eexists; now apply starts_with_split.
  - intros [r ->]; apply starts_with_append.
Qed.

Lemma drop_append (p r : string) : drop (String.length p) (p ++ r) = r.
Proof. induction p as [|c p IH]; simpl; [reflexivity | exact IH]. Qed.

Lemma includes_unfold (s old : string) :
  includes s old =
  starts_with old s || match s with
                       | EmptyString => false
                       | String _ t => includes t old
                       end.
Proof. destruct s; reflexivity. Qed.

Lemma includes_append (a old b : string) : includes (a ++ old ++ b) old = true.
Proof.
  induction a as [|c a IH]; simpl.
  - rewrite includes_unfold, starts_with_append; reflexivity.
  - rewrite IH; apply orb_true_r.
Qed.

Lemma glue_snoc (l : list string) (s : string) : glue (l ++ [s]) = glue l ++ s.
Proof.
  unfold glue. induction l as [|x l IH]; simpl.
  - apply append_empty_r.
  - rewrite IH. symmetry; apply append_assoc.
Qed.

(* ================================================================= *)
(** ** The agent loop *)

Lemma run_tool_calls_replies execSync RegExp converts (calls : list ToolCall) :
  forall ag ag',
    run_tool_calls execSync RegExp converts calls ag = (Ret tt, ag') ->
    exists replies,
      messages ag' = (messages ag ++ replies)%list /\ Forall2 answers replies calls.
Proof.
  induction calls as [|c calls IH]; intros ag ag' H; simpl in H.
  - inversion H; subst. exists []. split; [now rewrite app_nil_r | constructor].
  - destruct (JSON_parse (tc_arguments c)) as [j|m|]; try discriminate.
    destruct (argPreview j) as [u|m|]; try discriminate.
    destruct (runTool execSync RegExp converts (tc_name c) j (disk ag))
      as [[result|m|] fs'] eqn:Hrun; try discriminate.
    destruct (IH _ _ H) as (replies & Hm & Hall).
    exists (ToolMsg (tc_id c) (tc_name c) result :: replies). split.
    + rewrite Hm. simpl. now rewrite <- app_assoc.
    + constructor; [eexists; reflexivity | exact Hall].
Qed.

Lemma run_tool_calls_app execSync RegExp converts (pre : list ToolCall) :
  forall rest ag ag',
    run_tool_calls execSync RegExp converts pre ag = (Ret tt, ag') ->
    run_tool_calls execSync RegExp converts (pre ++ rest) ag
    = run_tool_calls execSync RegExp converts rest ag'.
Proof.
  induction pre as [|c pre IH]; intros rest ag ag' H; simpl in *.
  - now inversion H.
  - destruct (JSON_parse (tc_arguments c)) as [j|m|]; try discriminate.
    destruct (argPreview j) as [u|m|]; try discriminate.
    destruct (runTool execSync RegExp converts (tc_name c) j (disk ag))
      as [[result|m|] fs']; try discriminate; now apply IH.
Qed.
(* ================================================================= *)
(** ** The preview of the arguments *)

(** A value can be shown exactly when [String] does not throw on it. *)
Lemma showable_unprintable : forall v : JSON, showable v = negb (unprintable v).
Proof.
  fix showable_unprintable 1. intros v.
  destruct v as [| | | | |items|fields]; try reflexivity.
  cbn [showable unprintable].
  induction items as [|x items IH]; [reflexivity|].
  cbn [forallb existsb]. rewrite (showable_unprintable x), IH.
  now destruct (unprintable x).
Qed.

Lemma in_insert_sorted (A : Type) (compare : A -> A -> Z) (x y : A) (l : list A) :
  In x (insert_sorted compare y l) -> x = y \/ In x l.
Proof.
  induction l as [|z l IH]; simpl.
  - intros [<-|[]]. now left.
  - destruct (0 <? compare y z)%Z; simpl.
    + intros [<-|H]; [right; now left|].
      destruct (IH H) as [->|Hin]; [now left | right; now right].
    + intros [<-|[<-|H]]; [now left | right; now left | right; now right].
Qed.

Lemma in_Array_sort (A : Type) (compare : A -> A -> Z) (x : A) (l : list A) :
  In x (Array_sort compare l) -> In x l.
Proof.
  induction l as [|y l IH]; simpl; [tauto|].
  intros H. apply in_insert_sorted in H as [->|H]; [now left | right; now apply IH].
Qed.

Lemma in_assign (V : Type) (key : string) (v : V) (kv : string * V)
  (obj : list (string * V)) :
  In kv (assign key v obj) -> snd kv = v \/ In kv obj.
Proof.
  induction obj as [|[k x] obj IH]; simpl.
  - intros [<-|[]]. now left.
  - destruct (String.eqb k key); simpl.
    + intros [<-|H]; [now left | right; now right].
    + intros [<-|H]; [right; now left|].
      destruct (IH H) as [E|Hin]; [now left | right; now right].
Qed.

Lemma in_own_properties (fields : list (string * JSON)) (kv : string * JSON) :
  In kv (own_properties fields) -> In (snd kv) (map snd fields).
Proof.
  unfold own_properties.
  assert (H : forall acc,
    In kv (fold_left (fun obj e => assign (fst e) (snd e) obj) fields acc) ->
    In (snd kv) (map snd acc) \/ In (snd kv) (map snd fields)).
  { induction fields as [|e fields IH]; intros acc Hin; simpl in *.
    - left. now apply in_map.
    - destruct (IH _ Hin) as [Hacc|Hrest]; [|right; now right].
      apply in_map_iff in Hacc as (kv' & E & Hkv').
      apply in_assign in Hkv' as [E'|Hold].
      + right. left. congruence.
      + left. rewrite <- E. now apply in_map. }
  intros Hin. destruct (H [] Hin) as [[]|Hf]. exact Hf.
Qed.

(** The values that [Object.values] lists are members of the object. *)
Lemma Object_values_members (fields : list (string * JSON)) (values : list JSON) :
  Object_values (JObj fields) = Ret values ->
  forall v, In v values -> In v (map snd fields).
Proof.
  intros H v Hv. cbn [Object_values] in H. injection H as <-.
  apply in_app_or in Hv as [Hv|Hv]; apply in_map_iff in Hv as ([k x] & <- & Hx).
  - apply in_Array_sort in Hx. apply in_flat_map in Hx as (kv & Hkv & Hx).
    destruct (index_key (fst kv)); [|contradiction].
    destruct Hx as [E|[]]. injection E as _ <-.
    now apply in_own_properties.
  - apply filter_In in Hx as [Hx _].
    now apply (in_own_properties fields (k, x)).
Qed.

(** A preview can be made of every input that is previewable. *)
Lemma previewable_argPreview (input : JSON) :
  previewable input = true -> argPreview input = Ret tt.
Proof.
  intros H. unfold argPreview.
  destruct input as [| | | | s|items|fields]; try discriminate; try reflexivity.
  - cbn [Object_values bind]. now destruct (list_ascii_of_string s).
  - cbn [Object_values bind previewable] in *.
    destruct items as [|first items]; [reflexivity|].
    cbn [forallb] in H. apply andb_true_iff in H as [H _].
    rewrite showable_unprintable in H. now destruct (unprintable first).
  - destruct (Object_values (JObj fields)) as [values| |] eqn:E; try discriminate.
    cbn [bind]. destruct values as [|first values]; [reflexivity|].
    assert (Hin : In first (map snd fields)).
    { apply (@Object_values_members fields _ E). now left. }
    apply in_map_iff in Hin as (kv & <- & Hkv).
    cbn [previewable] in H. rewrite forallb_forall in H.
    specialize (H kv Hkv). rewrite showable_unprintable in H.
    now destruct (unprintable (snd kv)).
Qed.

(** [Object.values] puts the members under array indices first. *)
Example Object_values_order :
  Object_values (JObj [("b", JNum 1); ("10", JNum 2); ("a", JNum 3); ("9", JNum 4);
                       ("b", JNum 5); ("01", JNum 6)])
  = Ret [JNum 4; JNum 2; JNum 5; JNum 3; JNum 6].
Proof. reflexivity. Qed.

(** C1, as the code has it.  When the arguments text of a tool call is
    not valid JSON, [JSON.parse] throws outside the dispatcher: the
    round ends at that call and the error is reported at the loop
    boundary.  The calls before it have been run and answered by one
    tool-result message each; the malformed call and the calls after it
    are not run and get no tool-result message. *)
Theorem malformed_arguments_end_the_round :
  forall (execSync : string -> FS -> exec * FS)
         (RegExp : string -> outcome (string -> bool))
         (converts : string -> JSON -> FS -> completion * FS)
         (chunks : list Delta) (content : string)
         (pre : list ToolCall) (bad : ToolCall) (post : list ToolCall)
         (ag ag' : Agent) (m : string),
    assemble chunks = (content, pre ++ bad :: post)%list ->
    run_tool_calls execSync RegExp converts pre
      (push (AssistantMsg content (Some (pre ++ bad :: post)%list)) ag) = (Ret tt, ag') ->
    JSON_parse (tc_arguments bad) = Throw m ->
    turn execSync RegExp converts chunks ag = (Reported m, ag') /\
    exists replies,
      messages ag'
      = (messages ag ++ AssistantMsg content (Some (pre ++ bad :: post)) :: replies)%list /\
      Forall2 answers replies pre.
Proof.
  intros execSync RegExp converts chunks content pre bad post ag ag' m Hasm Hpre Hbad.
  split.
  - unfold turn. rewrite Hasm.
    destruct (pre ++ bad :: post)%list as [|c0 cs] eqn:E.
    + destruct pre; discriminate.
    + rewrite <- E in *.
      rewrite (run_tool_calls_app execSync RegExp converts pre (bad :: post) _ Hpre).
      simpl. rewrite Hbad. reflexivity.
  - destruct (run_tool_calls_replies execSync RegExp converts pre _ Hpre)
      as (replies & Hm & Hall).
    exists replies. split; [|exact Hall].
    rewrite Hm. simpl. now rewrite <- app_assoc.
Qed.

Lemma malformed_arguments_end_the_round_witness :
  turn no_shell no_RegExp no_conversion three_calls asked
  = (Reported json_error,
     mkAgent
       [ UserMsg "save the notes";
         AssistantMsg EmptyString
           (Some [ mkToolCall (Some "call_0") "write" write_a;
                   mkToolCall (Some "call_1") "write" "{";
                   mkToolCall (Some "call_2") "write" write_b ]);
         ToolMsg (Some "call_0") "write" "ok" ]
       (mkFS (Dir [("work", Dir [("a.txt", File "one" 1000)])]) ["work"] 1000)).
Proof.
  refine (proj1 (@malformed_arguments_end_the_round no_shell no_RegExp no_conversion
                   three_calls EmptyString
                   [mkToolCall (Some "call_0") "write" write_a]
                   (mkToolCall (Some "call_1") "write" "{")
                   [mkToolCall (Some "call_2") "write" write_b]
                   asked _ json_error _ _ _));
    reflexivity.
Defined.

(** C1, as the claim has it, fails: the sibling [call_1] of a malformed
    call is neither run (the disk stays empty) nor answered. *)
Lemma sibling_of_malformed_call_is_dropped :
  turn no_shell no_RegExp no_conversion two_calls asked
  = (Reported json_error,
     mkAgent
       [ UserMsg "save the notes";
         AssistantMsg EmptyString
           (Some [ mkToolCall (Some "call_0") "write" "{";
                   mkToolCall (Some "call_1") "write" write_b ]) ]
       empty_disk).
Proof. reflexivity. Qed.

(** X3.  A round that runs to its end has answered every tool call by one
    tool-result message, in the order of the calls, and has appended
    nothing else. *)
Theorem completed_round_answers_every_call :
  forall (execSync : string -> FS -> exec * FS)
         (RegExp : string -> outcome (string -> bool))
         (converts : string -> JSON -> FS -> completion * FS)
         (calls : list ToolCall) (ag ag' : Agent),
    run_tool_calls execSync RegExp converts calls ag = (Ret tt, ag') ->
    exists replies,
      messages ag' = (messages ag ++ replies)%list /\ Forall2 answers replies calls.
Proof. intros execSync RegExp converts calls ag ag'. apply run_tool_calls_replies. Qed.

Lemma completed_round_answers_every_call_witness :
  exists replies,
    [ UserMsg "save the notes";
      ToolMsg (Some "call_0") "write" "ok"; ToolMsg (Some "call_2") "write" "ok" ]
    = ([UserMsg "save the notes"] ++ replies)%list /\
    Forall2 answers replies
      [ mkToolCall (Some "call_0") "write" write_a;
        mkToolCall (Some "call_2") "write" write_b ].
Proof.
  apply (@completed_round_answers_every_call no_shell no_RegExp no_conversion
           [ mkToolCall (Some "call_0") "write" write_a;
             mkToolCall (Some "call_2") "write" write_b ]
           asked
           (mkAgent
              [ UserMsg "save the notes";
                ToolMsg (Some "call_0") "write" "ok"; ToolMsg (Some "call_2") "write" "ok" ]
              (mkFS (Dir [("work", Dir [("a.txt", File "one" 1000);
                                        ("b.txt", File "two" 1000)])])
                    ["work"] 1000))).
  reflexivity.
Defined.

(* ================================================================= *)
(** ** The tool-call assembler *)

Lemma array_get_nil (A : Type) (i : nat) : array_get (@nil (option A)) i = None.
Proof. unfold array_get; destruct i; reflexivity. Qed.

Lemma array_get_set_same (A : Type) (arr : sparse A) (i : nat) (v : A) :
  array_get (array_set arr i v) i = Some v.
Proof.
  revert arr; induction i as [|i IH]; intros [|slot rest]; simpl; try reflexivity;
    apply IH.
Qed.

Lemma array_get_set_other (A : Type) (arr : sparse A) (i j : nat) (v : A) :
  i <> j -> array_get (array_set arr i v) j = array_get arr j.
Proof.
  revert arr j; induction i as [|i IH]; intros arr j H.
  - destruct j as [|j]; [congruence|].
    destruct arr as [|slot rest]; simpl; [|reflexivity].
    unfold array_get; simpl. destruct j; reflexivity.
  - destruct arr as [|slot rest], j as [|j]; simpl; try reflexivity.
    + change (array_get (array_set [] i v) j = None).
      rewrite IH by congruence. apply array_get_nil.
    + change (array_get (array_set rest i v) j = array_get rest j).
      apply IH. congruence.
Qed.

Lemma append_truthy_text (acc : string) (x : option string) :
  append_truthy acc x = acc ++ text_of x.
Proof.
  destruct x as [[|c s]|]; simpl; try reflexivity; now rewrite append_empty_r.
Qed.

Lemma array_set_set (A : Type) (arr : sparse A) (i : nat) (v w : A) :
  array_set (array_set arr i v) i w = array_set arr i w.
Proof.
  revert arr; induction i as [|i IH]; intros [|slot rest]; simpl; try reflexivity;
    now rewrite IH.
Qed.

Lemma other_get_set_same (A : Type) (props : list (Z * A)) (k : Z) (v : A) :
  other_get k (other_set k v props) = Some v.
Proof.
  induction props as [|[k' x] props IH]; simpl.
  - now rewrite Z.eqb_refl.
  - destruct (Z.eqb_spec k' k) as [->|Hne]; simpl.
    + now rewrite Z.eqb_refl.
    + destruct (Z.eqb_spec k' k); [contradiction | exact IH].
Qed.

Lemma other_get_set_other (A : Type) (props : list (Z * A)) (k j : Z) (v : A) :
  k <> j -> other_get j (other_set k v props) = other_get j props.
Proof.
  intros Hne. induction props as [|[k' x] props IH]; simpl.
  - destruct (Z.eqb_spec k j); [contradiction | reflexivity].
  - destruct (Z.eqb_spec k' k) as [->|Hk]; simpl.
    + destruct (Z.eqb_spec k j); [contradiction | reflexivity].
    + destruct (Z.eqb_spec k' j); [reflexivity | exact IH].
Qed.

Lemma other_set_set (A : Type) (props : list (Z * A)) (k : Z) (v w : A) :
  other_set k w (other_set k v props) = other_set k w props.
Proof.
  induction props as [|[k' x] props IH]; simpl.
  - now rewrite Z.eqb_refl.
  - destruct (Z.eqb_spec k' k) as [->|Hk]; simpl.
    + now rewrite Z.eqb_refl.
    + destruct (Z.eqb_spec k' k); [contradiction | now rewrite IH].
Qed.

Lemma array_index_some (k : Z) (i : nat) :
  array_index k = Some i <-> element_index k /\ i = Z.to_nat k.
Proof.
  unfold array_index, element_index.
  destruct (Z.leb_spec 0 k), (Z.ltb_spec k 4294967295); simpl; split;
    try discriminate; try (intros [? ?]; lia).
  - intros H'. injection H' as <-. split; [lia | reflexivity].
  - intros [_ ->]. reflexivity.
Qed.

Lemma array_index_none (k : Z) : array_index k = None <-> ~ element_index k.
Proof.
  unfold array_index, element_index.
  destruct (Z.leb_spec 0 k), (Z.ltb_spec k 4294967295); simpl; split;
    try discriminate; try lia; try reflexivity;
    intros H'; exfalso; apply H'; lia.
Qed.

Lemma array_index_inj (k j : Z) (i : nat) :
  array_index k = Some i -> array_index j = Some i -> k = j.
Proof.
  intros Hk Hj. apply array_index_some in Hk as [[? ?] ->].
  apply array_index_some in Hj as [[? ?] Hj]. lia.
Qed.

Lemma js_get_set_same (A : Type) (arr : JSArray A) (k : Z) (v : A) :
  js_get (js_set arr k v) k = Some v.
Proof.
  unfold js_get, js_set. destruct (array_index k) as [i|]; simpl.
  - apply array_get_set_same.
  - apply other_get_set_same.
Qed.

Lemma js_get_set_other (A : Type) (arr : JSArray A) (k j : Z) (v : A) :
  k <> j -> js_get (js_set arr k v) j = js_get arr j.
Proof.
  intros Hne. unfold js_get, js_set.
  destruct (array_index k) as [i|] eqn:Hk, (array_index j) as [i'|] eqn:Hj; simpl;
    try reflexivity.
  - apply array_get_set_other. intros ->. apply Hne.
    exact (@array_index_inj k j i' Hk Hj).
  - now apply other_get_set_other.
Qed.

Lemma js_set_set (A : Type) (arr : JSArray A) (k : Z) (v w : A) :
  js_set (js_set arr k v) k w = js_set arr k w.
Proof.
  unfold js_set. destruct (array_index k) as [i|]; simpl.
  - now rewrite array_set_set.
  - now rewrite other_set_set.
Qed.

(** A fragment puts into the slot of its index what it makes of the
    slot. *)
Lemma merge_fragment_set (arr : JSArray ToolCall) (tc : Fragment) :
  merge_fragment arr tc
  = js_set arr (fr_index tc) (merged (js_get arr (fr_index tc)) tc).
Proof.
  unfold merge_fragment, merged.
  destruct (js_get arr (fr_index tc)) as [acc|] eqn:Hslot.
  - now rewrite Hslot, !append_truthy_text.
  - now rewrite js_get_set_same, js_set_set, !append_truthy_text.
Qed.

Lemma merge_fragment_get (arr : JSArray ToolCall) (tc : Fragment) (j : Z) :
  js_get (merge_fragment arr tc) j =
  if Z.eqb (fr_index tc) j
  then Some (merged (js_get arr (fr_index tc)) tc)
  else js_get arr j.
Proof.
  rewrite merge_fragment_set.
  destruct (Z.eqb_spec (fr_index tc) j) as [->|Hne].
  - apply js_get_set_same.
  - now apply js_get_set_other.
Qed.

Lemma fold_append_snoc (l : list string) (s : string) :
  fold_right append EmptyString (l ++ [s]) = fold_right append EmptyString l ++ s.
Proof. exact (glue_snoc l s). Qed.

Lemma spelled_snoc (frs : list Fragment) (tc : Fragment) (j : Z) :
  spelled (frs ++ [tc]) j =
  if Z.eqb (fr_index tc) j
  then Some (merged (spelled frs (fr_index tc)) tc)
  else spelled frs j.
Proof.
  unfold spelled. rewrite filter_app. simpl. unfold at_index at 2.
  destruct (Z.eqb_spec (fr_index tc) j) as [->|Hne].
  - destruct (filter (at_index j) frs) as [|f rest].
    + simpl. unfold glue. simpl. now rewrite !append_empty_r.
    + simpl. unfold merged. simpl. rewrite !map_app. simpl.
      rewrite !fold_append_snoc, !append_assoc. reflexivity.
  - now rewrite app_nil_r.
Qed.

Lemma js_get_empty (A : Type) (j : Z) : js_get (mkJSArray (@nil (option A)) []) j = None.
Proof.
  unfold js_get. destruct (array_index j); simpl; [apply array_get_nil | reflexivity].
Qed.

(** The working set holds, under every index, what the fragments of
    that index spell out. *)
Lemma merged_fragments_spell (frs : list Fragment) (j : Z) :
  js_get (fold_left merge_fragment frs (mkJSArray [] [])) j = spelled frs j.
Proof.
  revert j; induction frs as [|tc frs IH] using rev_ind; intros j.
  - simpl. apply js_get_empty.
  - rewrite fold_left_app. simpl.
    rewrite merge_fragment_get, spelled_snoc, !IH. reflexivity.
Qed.

(** Only an array index has given the array an element. *)
Lemma merged_fragments_elements (frs : list Fragment) (i : nat) :
  array_get (elements (fold_left merge_fragment frs (mkJSArray [] []))) i <> None ->
  array_index (Z.of_nat i) = Some i.
Proof.
  induction frs as [|tc frs IH] using rev_ind.
  - simpl. rewrite array_get_nil. congruence.
  - rewrite fold_left_app. simpl. rewrite merge_fragment_set.
    unfold js_set at 1.
    destruct (array_index (fr_index tc)) as [k|] eqn:Hk; simpl; [|exact IH].
    destruct (Nat.eq_dec k i) as [->|Hne].
    + intros _. apply array_index_some in Hk as [Hk ->].
      apply array_index_some. unfold element_index in *.
      rewrite Z2Nat.id by lia. split; [lia | reflexivity].
    + rewrite array_get_set_other by exact Hne. exact IH.
Qed.

Lemma on_chunk_tool_calls (chunks : list Delta) :
  forall content arr,
    snd (fold_left on_chunk chunks (content, arr))
    = fold_left merge_fragment (fragments_of chunks) arr.
Proof.
  induction chunks as [|d chunks IH]; intros content arr; simpl; [reflexivity|].
  rewrite fold_left_app.
  destruct (d_tool_calls d) as [tcs|]; apply IH.
Qed.

Lemma spelled_some_iff (frs : list Fragment) (i : Z) :
  spelled frs i <> None <-> exists f, In f frs /\ fr_index f = i.
Proof.
  unfold spelled. split.
  - destruct (filter (at_index i) frs) as [|f rest] eqn:E; [congruence|].
    intros _. exists f.
    assert (Hin : In f (filter (at_index i) frs)) by (rewrite E; now left).
    apply filter_In in Hin as [Hin Hat]. split; [exact Hin|].
    now apply Z.eqb_eq in Hat.
  - intros (f & Hin & Hidx).
    assert (Hf : In f (filter (at_index i) frs)).
    { apply filter_In. split; [exact Hin|]. now apply Z.eqb_eq. }
    destruct (filter (at_index i) frs); [contradiction | discriminate].
Qed.

Lemma StronglySorted_map_S (l : list nat) :
  StronglySorted lt l -> StronglySorted lt (map S l).
Proof.
  induction 1 as [|x l Hs IH Hall]; simpl; constructor; [exact IH|].
  apply Forall_map. eapply Forall_impl; [|exact Hall]. intros; lia.
Qed.

Lemma StronglySorted_map_of_nat (l : list nat) :
  StronglySorted lt l -> StronglySorted Z.lt (map Z.of_nat l).
Proof.
  induction 1 as [|x l Hs IH Hall]; simpl; constructor; [exact IH|].
  apply Forall_map. eapply Forall_impl; [|exact Hall]. intros; lia.
Qed.

(** [filter(Boolean)] keeps the filled slots, in the order of their
    indices. *)
Lemma compact_in_index_order (A : Type) (arr : sparse A) :
  exists idxs,
    StronglySorted lt idxs /\
    (forall i, In i idxs <-> array_get arr i <> None) /\
    map Some (compact arr) = map (array_get arr) idxs.
Proof.
  induction arr as [|slot rest (idxs & Hs & Hin & Hmap)].
  - exists []. repeat split; try constructor; simpl.
    + contradiction.
    + intros H; apply H, array_get_nil.
  - assert (Hshift : map (array_get rest) idxs
                     = map (array_get (slot :: rest)) (map S idxs)).
    { rewrite map_map. reflexivity. }
    assert (HS : StronglySorted lt (map S idxs)) by now apply StronglySorted_map_S.
    assert (Hpos : Forall (lt 0) (map S idxs)).
    { apply Forall_map, Forall_forall. intros; lia. }
    assert (HinS : forall i, In i (map S idxs) <->
                             exists k, i = S k /\ array_get rest k <> None).
    { intros i. rewrite in_map_iff. split.
      - intros (k & <- & Hk). exists k. split; [reflexivity | now apply Hin].
      - intros (k & -> & Hk). exists k. split; [reflexivity | now apply Hin]. }
    destruct slot as [v|].
    + exists (0 :: map S idxs). repeat split.
      * constructor; assumption.
      * intros [<-|Hi]; [discriminate|].
        apply HinS in Hi as (k & -> & Hk). exact Hk.
      * intros Hi. destruct i as [|k]; [now left|]. right.
        apply HinS. exists k. split; [reflexivity | exact Hi].
      * simpl. now rewrite Hmap, Hshift.
    + exists (map S idxs). repeat split.
      * assumption.
      * intros Hi. apply HinS in Hi as (k & -> & Hk). exact Hk.
      * intros Hi. destruct i as [|k]; [now elim Hi|].
        apply HinS. exists k. split; [reflexivity | exact Hi].
      * simpl. now rewrite Hmap, Hshift.
Qed.

(** C4, as the code has it.  Whatever the order and the indices of the
    fragments of a stream, the assembler ends with exactly one tool call
    for every index that some fragment carried and that is an index of
    an array element -- an integer from 0 to 2^32 - 2 --, in the order
    of the indices; the call of an index has the id of the first
    fragment of that index, and the names and the arguments texts of
    its fragments appended in the order of their arrival.  The
    fragments of any other index give no tool call. *)
Theorem assemble_by_index :
  forall chunks : list Delta,
  exists idxs : list Z,
    StronglySorted Z.lt idxs /\
    (forall i, In i idxs <->
               element_index i /\
               exists f, In f (fragments_of chunks) /\ fr_index f = i) /\
    map Some (snd (assemble chunks)) = map (spelled (fragments_of chunks)) idxs.
Proof.
  intros chunks. unfold assemble.
  pose proof (on_chunk_tool_calls chunks EmptyString (mkJSArray [] [])) as Harr.
  destruct (fold_left on_chunk chunks _) as [content arr].
  simpl in Harr. cbn [snd].
  destruct (compact_in_index_order (elements arr)) as (idxs & Hs & Hin & Hmap).
  assert (Hel : forall i, array_get (elements arr) i <> None ->
                          array_index (Z.of_nat i) = Some i).
  { intros i. rewrite Harr. apply merged_fragments_elements. }
  assert (Hget : forall i, array_index (Z.of_nat i) = Some i ->
                           array_get (elements arr) i
                           = spelled (fragments_of chunks) (Z.of_nat i)).
  { intros i Hi. rewrite <- merged_fragments_spell, <- Harr.
    unfold js_get. now rewrite Hi. }
  exists (map Z.of_nat idxs). split; [now apply StronglySorted_map_of_nat|]. split.
  - intros i. rewrite in_map_iff. split.
    + intros (n & <- & Hn). apply Hin in Hn. pose proof (Hel n Hn) as Hidx.
      split; [now apply array_index_some in Hidx|].
      apply spelled_some_iff. now rewrite <- (Hget n Hidx).
    + intros (Hi & Hf). exists (Z.to_nat i).
      unfold element_index in Hi.
      assert (Hidx : array_index (Z.of_nat (Z.to_nat i)) = Some (Z.to_nat i)).
      { rewrite Z2Nat.id by lia. apply array_index_some. now split. }
      split; [apply Z2Nat.id; lia|].
      apply Hin. rewrite (Hget _ Hidx), Z2Nat.id by lia.
      now apply spelled_some_iff.
  - rewrite Hmap, map_map. apply map_ext_in. intros n Hn.
    apply Hget, Hel. now apply Hin.
Qed.

(** C4, as the claim has it, fails for an index that is no index of an
    array element: the fragments of the index 2^32 - 1, and those of
    the index -1, are kept under a property that [filter] does not see,
    and their tool call is lost. *)
Lemma index_outside_the_array_is_dropped :
  assemble
    [ mkDelta None
        (Some [ mkFragment 4294967295 (Some "call_0") (Some "read") (Some "{}") ]) ]
  = (EmptyString, []) /\
  assemble
    [ mkDelta None
        (Some [ mkFragment (-1) (Some "call_0") (Some "read") (Some "{}");
                mkFragment 0 (Some "call_1") (Some "glob") (Some "{}") ]) ]
  = (EmptyString, [ mkToolCall (Some "call_1") "glob" "{}" ]).
Proof. split; reflexivity. Qed.

(** The example of the specification: fragments that arrive at the
    indices 1, 0 (and 1 again) give the calls of index 0 and 1, in that
    order, and the two pieces of the arguments of index 1 are joined. *)
Example assemble_out_of_order :
  assemble
    [ mkDelta None (Some [ mkFragment 1 (Some "b") (Some "glob") (Some "{");
                           mkFragment 0 (Some "a") (Some "read") None ]);
      mkDelta (Some "hi") (Some [ mkFragment 1 None None (Some "}") ]) ]
  = ("hi", [ mkToolCall (Some "a") "read" EmptyString;
             mkToolCall (Some "b") "glob" "{}" ]).
Proof. reflexivity. Qed.

(** Two chunks that cut the arguments of one tool call inside a string
    give one tool call, whose arguments text is the whole JSON object. *)
Example assemble_joins_split_arguments :
  assemble split_arguments
  = (EmptyString,
     [ mkToolCall (Some "call_0") "read" (json_object [("path", "a.txt")]) ]) /\
  JSON_parse (json_object [("path", "a.txt")]) = Ret (JObj [("path", JStr "a.txt")]).
Proof. split; reflexivity. Qed.

(* ================================================================= *)
(** ** read *)

Lemma length_mapi_from (A B : Type) (f : nat -> A -> B) (xs : list A) :
  forall i, List.length (mapi_from i f xs) = List.length xs.
Proof. induction xs as [|x xs IH]; intros i; simpl; [reflexivity | now rewrite IH]. Qed.

Lemma nth_mapi_from (A B : Type) (f : nat -> A -> B) (xs : list A) (da : A) (db : B) :
  forall i k, k < List.length xs ->
              nth k (mapi_from i f xs) db = f (i + k) (nth k xs da).
Proof.
  induction xs as [|x xs IH]; intros i k Hk; simpl in *; [lia|].
  destruct k as [|k].
  - now rewrite Nat.add_0_r.
  - rewrite IH by lia. f_equal. lia.
Qed.

(** With an offset and a length that are not negative, [slice] is the
    window that [skipn] and [firstn] cut out. *)
Lemma slice_window (A : Type) (xs : list A) (o l : Z) :
  (0 <= o)%Z -> (0 <= l)%Z ->
  slice xs o (o + l) = firstn (Z.to_nat l) (skipn (Z.to_nat o) xs).
Proof.
  intros Ho Hl. unfold slice, clamp_index.
  destruct (Z.ltb_spec o 0) as [?|_]; [lia|].
  destruct (Z.ltb_spec (o + l) 0) as [?|_]; [lia|].
  set (len := List.length xs).
  destruct (Z.le_gt_cases (Z.of_nat len) o) as [Hbig|Hsmall].
  - rewrite !(skipn_all2 xs) by (subst len; lia).
    now rewrite !firstn_nil.
  - replace (Z.to_nat (Z.min o (Z.of_nat len))) with (Z.to_nat o) by lia.
    destruct (Z.le_gt_cases (o + l) (Z.of_nat len)) as [Hfit|Hover].
    + f_equal. lia.
    + rewrite !firstn_all2; try reflexivity; rewrite length_skipn; subst len; lia.
Qed.

(** C8, as the code has it.  For an offset and a limit that are not
    negative, [read] returns the lines of the file whose index lies in
    the window that starts at [offset] and is [limit] lines long -- as
    long as the whole file when [limit] is absent or [0] -- and puts in
    front of each line its 1-based number, filled up with blanks on the
    left to four columns, and a bar. *)
Theorem read_returns_the_window :
  forall (fs : FS) (args : Args) (p text : string),
    a_path args = Some p ->
    readFileSync fs p = Ret text ->
    (0 <= or_int (a_offset args) 0)%Z ->
    (0 <= or_int (a_limit args) 0)%Z ->
    exists out : list string,
      read args fs = (Ret (join NL out), fs) /\
      List.length out
      = Nat.min (Z.to_nat (or_int (a_limit args) (Z.of_nat (List.length (split NL text)))))
                (List.length (split NL text) - Z.to_nat (or_int (a_offset args) 0)) /\
      forall k, k < List.length out ->
        nth k out EmptyString
        = padStart 4 (String_of (or_int (a_offset args) 0 + Z.of_nat k + 1)) ++ "| "
            ++ nth (Z.to_nat (or_int (a_offset args) 0) + k) (split NL text) EmptyString.
Proof.
  intros fs args p text Hpath Hread Ho Hl.
  set (lines := split NL text).
  set (o := or_int (a_offset args) 0).
  set (l := or_int (a_limit args) (Z.of_nat (List.length lines))).
  assert (Hl' : (0 <= l)%Z).
  { subst l. destruct (a_limit args) as [[|z|z]|]; simpl in *; lia. }
  exists (mapi (numbered o) (slice lines o (o + l))).
  unfold read. rewrite Hpath, Hread. fold lines o l.
  split; [reflexivity|].
  rewrite slice_window by assumption.
  unfold mapi. rewrite length_mapi_from, length_firstn, length_skipn.
  split; [reflexivity|].
  intros k Hk.
  rewrite (nth_mapi_from (numbered o) _ EmptyString EmptyString)
    by (rewrite length_firstn, length_skipn; exact Hk).
  simpl. unfold numbered.
  rewrite nth_firstn.
  destruct (Nat.ltb_spec k (Z.to_nat l)) as [_|?]; [|lia].
  now rewrite nth_skipn.
Qed.

Lemma read_returns_the_window_witness :
  exists out : list string,
    read (read_args "a.txt" (Some 1%Z) (Some 1%Z)) project = (Ret (join NL out), project) /\
    List.length out = 1 /\
    forall k, k < List.length out ->
      nth k out EmptyString
      = padStart 4 (String_of (1 + Z.of_nat k + 1)) ++ "| "
          ++ nth (1 + k) (split NL poem) EmptyString.
Proof.
  apply (@read_returns_the_window project (read_args "a.txt" (Some 1%Z) (Some 1%Z))
           "a.txt" poem);
    [reflexivity | reflexivity | simpl; lia | simpl; lia].
Defined.

(** C8, as the claim has it, fails: a limit of [0] stands for no limit.
    No line of the file has its index in the empty range from 0 to
    0 + 0, yet all three lines are returned. *)
Lemma read_limit_zero_returns_every_line :
  half_open 0 (split NL poem) 0 (0 + 0) = [] /\
  read (read_args "a.txt" (Some 0%Z) (Some 0%Z)) project
  = (Ret ("   1| hello" ++ NL ++ "   2| world" ++ NL ++ "   3| end"), project).
Proof. split; reflexivity. Qed.

(* ================================================================= *)
(** ** edit *)

(** [edit] on arguments that are all there, for a file that can be
    read. *)
Lemma edit_given (fs : FS) (args : Args) (p old new text : string) :
  a_path args = Some p ->
  a_old args = Some old ->
  a_new args = Some new ->
  readFileSync fs p = Ret text ->
  edit args fs
  = if negb (includes text old) then (Ret "error: old_string not found", fs)
    else
      match RegExp_new (escapeRegExp old) with
      | Compiled re =>
          let count := match_count re text in
          if negb (truthy (a_all args)) && Nat.ltb 1 count
          then (Ret (appears count), fs)
          else
            let replacement :=
              if truthy (a_all args)
              then join new (split old text)
              else replace_first old new text in
            match writeFileSync fs p replacement with
            | Ret fs' => (Ret "ok", fs')
            | Throw m => (Throw m, fs)
            | Beyond => (Beyond, fs)
            end
      | SyntaxError why => (Throw (invalid_regexp (escapeRegExp old) why), fs)
      | Unsupported => (Beyond, fs)
      end.
Proof.
  intros Hpath Hold Hnew Hread. unfold edit.
  rewrite Hpath, Hread, Hold, Hnew. reflexivity.
Qed.

Lemma syntax_char_false (c : ascii) :
  syntax_char c = false ->
  Ascii.eqb c "\" = false /\ Ascii.eqb c "[" = false /\ Ascii.eqb c "." = false /\
  Ascii.eqb c "^" = false /\ Ascii.eqb c "$" = false /\ Ascii.eqb c "*" = false /\
  Ascii.eqb c "+" = false.
Proof.
  unfold syntax_char; simpl. intros H.
  repeat (apply orb_false_iff in H; destruct H as [? H]).
  repeat split; assumption.
Qed.

(** A plain character is read as itself. *)
Lemma parse_go_plain (c : ascii) (pending : option atom) (acc : list term) (s : string) :
  syntax_char c = false ->
  parse_go PNormal pending acc (String c s)
  = parse_go PNormal (Some (AChar c)) (flush pending acc) s.
Proof.
  intros H. pose proof (syntax_char_false c H) as (H1 & H2 & H3 & H4 & H5 & H6 & H7).
  simpl. now rewrite H1, H2, H3, H4, H5, H6, H7, H.
Qed.

(** An escaped syntax character is read as itself, too. *)
Lemma parse_go_escaped (c : ascii) (pending : option atom) (acc : list term) (s : string) :
  syntax_char c = true ->
  parse_go PNormal pending acc (String "\" (String c s))
  = parse_go PNormal (Some (AChar c)) (flush pending acc) s.
Proof. intros H. simpl. now rewrite H. Qed.

Lemma parse_go_escapeRegExp (old : string) :
  forall pending acc,
    parse_go PNormal pending acc (escapeRegExp old)
    = Compiled (rev (flush pending acc) ++ literal old).
Proof.
  induction old as [|c old IH]; intros pending acc.
  - simpl. now rewrite app_nil_r.
  - cbn [escapeRegExp]. destruct (syntax_char c) eqn:Hc.
    + rewrite parse_go_escaped by exact Hc. rewrite IH. simpl.
      now rewrite <- app_assoc.
    + rewrite parse_go_plain by exact Hc. rewrite IH. simpl.
      now rewrite <- app_assoc.
Qed.

(** The escaped text compiles to the regular expression of the text. *)
Lemma RegExp_new_escapeRegExp (old : string) :
  RegExp_new (escapeRegExp old) = Compiled (literal old).
Proof. unfold RegExp_new. now rewrite parse_go_escapeRegExp. Qed.

Lemma match_here_literal (old : string) :
  forall at0 s,
    match_here (literal old) at0 s
    = if starts_with old s then Some (drop (String.length old) s) else None.
Proof.
  induction old as [|c old IH]; intros at0 s; simpl; [reflexivity|].
  destruct s as [|d s]; [reflexivity|].
  rewrite (Ascii.eqb_sym d c).
  destruct (Ascii.eqb c d); simpl; [apply IH | reflexivity].
Qed.

Lemma length_drop (n : nat) : forall s, String.length (drop n s) = String.length s - n.
Proof.
  induction n as [|n IH]; intros s; simpl; [lia|].
  destruct s as [|c s]; simpl; [reflexivity | apply IH].
Qed.

Lemma starts_with_length (p s : string) :
  starts_with p s = true -> String.length p <= String.length s.
Proof.
  intros H. apply starts_with_iff in H as [r ->]. rewrite length_append. lia.
Qed.

(** The matches that the global regular expression of [edit] collects
    are the occurrences a left-to-right scan meets. *)
Lemma count_go_literal (old : string) :
  forall s skip at0, count_go (literal old) skip at0 s = disjoint_go old skip s.
Proof.
  induction s as [|c s IH]; intros skip at0.
  - destruct skip; simpl; [|reflexivity].
    rewrite match_here_literal. destruct (starts_with old EmptyString); reflexivity.
  - destruct skip as [|k]; cbn [count_go disjoint_go]; [|apply IH].
    rewrite match_here_literal.
    destruct (starts_with old (String c s)) eqn:Hp; [|apply IH].
    rewrite IH. f_equal. f_equal.
    rewrite length_drop. apply starts_with_length in Hp. lia.
Qed.

Lemma match_count_literal (old text : string) :
  match_count (literal old) text = disjoint_occurrences old text.
Proof. apply count_go_literal. Qed.

Lemma disjoint_go_includes (old : string) :
  forall s skip, 0 < disjoint_go old skip s -> includes s old = true.
Proof.
  induction s as [|c s IH]; intros skip H.
  - destruct skip; simpl in *; [|lia].
    destruct (starts_with old EmptyString); [reflexivity | lia].
  - rewrite includes_unfold.
    destruct skip as [|k]; cbn [disjoint_go] in H.
    + destruct (starts_with old (String c s)); [reflexivity|].
      simpl. now apply (IH 0).
    + rewrite (IH k H). apply orb_true_r.
Qed.

(** C2, as the code has it.  When a left-to-right scan of the file, which
    resumes behind each occurrence, meets [old] more than once and [all]
    is not set, [edit] returns an error text that holds that number, and
    the file system is left as it was. *)
Theorem edit_refuses_ambiguous_target :
  forall (fs : FS) (args : Args) (p text old new : string),
    a_path args = Some p ->
    a_old args = Some old ->
    a_new args = Some new ->
    readFileSync fs p = Ret text ->
    truthy (a_all args) = false ->
    1 < disjoint_occurrences old text ->
    edit args fs = (Ret (appears (disjoint_occurrences old text)), fs) /\
    contains (appears (disjoint_occurrences old text))
             (String_of (Z.of_nat (disjoint_occurrences old text))).
Proof.
  intros fs args p text old new Hpath Hold Hnew Hread Hall Hmany.
  split.
  - rewrite (edit_given fs args Hpath Hold Hnew Hread).
    rewrite (disjoint_go_includes old text 0) by (unfold disjoint_occurrences in Hmany; lia).
    simpl. rewrite RegExp_new_escapeRegExp, match_count_literal, Hall.
    simpl. destruct (Nat.ltb_spec 1 (disjoint_occurrences old text)); [reflexivity | lia].
  - unfold contains, appears. apply includes_append.
Qed.

Lemma edit_refuses_ambiguous_target_witness :
  edit (edit_args "a.txt" "l" "L" None) project = (Ret (appears 3), project) /\
  contains (appears 3) "3".
Proof.
  apply (@edit_refuses_ambiguous_target project (edit_args "a.txt" "l" "L" None)
           "a.txt" poem "l" "L");
    [reflexivity | reflexivity | reflexivity | reflexivity | reflexivity
    | vm_compute; lia].
Defined.

(** C2, as the claim has it, fails when occurrences overlap: [aa] occurs
    at two places of [aaa], but the scan meets it once, so the edit goes
    through and the file is written. *)
Lemma edit_overlapping_occurrences_are_replaced :
  readFileSync project "src/c.txt" = Ret "aaa" /\
  occurrences "aa" "aaa" = 2 /\
  fst (edit (edit_args "src/c.txt" "aa" "b" None) project) = Ret "ok" /\
  readFileSync (snd (edit (edit_args "src/c.txt" "aa" "b" None) project)) "src/c.txt"
  = Ret "ba".
Proof. repeat split; reflexivity. Qed.

(** C5 fails on the code.  [old] occurs once in the file, and the new
    text holds a dollar pattern: [String.prototype.replace] expands it,
    so the file does not get the new text as it was given.  The branch
    for [all], which splits and joins, writes it unchanged. *)
Lemma edit_expands_dollar_patterns :
  readFileSync project "price.txt" = Ret "total = X" /\
  occurrences "X" "total = X" = 1 /\
  readFileSync (snd (edit (edit_args "price.txt" "X" "$$10" None) project)) "price.txt"
  = Ret "total = $10" /\
  readFileSync (snd (edit (edit_args "price.txt" "X" "$$10" (Some true)) project)) "price.txt"
  = Ret "total = $$10".
Proof. repeat split; reflexivity. Qed.

(* ================================================================= *)
(** ** Writing a file and reading it back *)

Lemma lookup_set_entry (name x : string) (v : node) (es : list (string * node)) :
  lookup x (set_entry name v es)
  = if String.eqb x name then Some v else lookup x es.
Proof.
  induction es as [|[k y] es IH]; simpl.
  - rewrite String.eqb_sym. destruct (String.eqb x name); reflexivity.
  - destruct (String.eqb_spec k name) as [->|Hk]; simpl.
    + rewrite String.eqb_sym. destruct (String.eqb x name); reflexivity.
    + destruct (String.eqb_spec k x) as [->|Hx].
      * destruct (String.eqb_spec x name); [congruence | reflexivity].
      * exact IH.
Qed.

Lemma lookup_map_entry (name x : string) (f : node -> node) (es : list (string * node)) :
  lookup x (map_entry name f es)
  = if String.eqb x name then option_map f (lookup x es) else lookup x es.
Proof.
  induction es as [|[k y] es IH]; simpl.
  - destruct (String.eqb x name); reflexivity.
  - destruct (String.eqb_spec k name) as [->|Hk]; simpl.
    + destruct (String.eqb_spec name x) as [<-|Hx].
      * now rewrite String.eqb_refl.
      * destruct (String.eqb_spec x name); [congruence | reflexivity].
    + destruct (String.eqb_spec k x) as [->|Hx].
      * destruct (String.eqb_spec x name); [congruence | reflexivity].
      * exact IH.
Qed.



(** Putting a file where a file or nothing was changes no directory. *)
Lemma dir_at_put (name content : string) (mtime : Z) (dir : list string) :
  forall n es path,
    get n dir = Some (Dir es) ->
    match lookup name es with
    | None | Some (File _ _) => True
    | _ => False
    end ->
    dir_at (put n dir name (File content mtime)) path = dir_at n path.
Proof.
  induction dir as [|d dir IH]; intros n es path H Hold; simpl in *.
  - injection H as ->. unfold dir_at. destruct path as [|x path]; [reflexivity|].
    simpl. rewrite lookup_set_entry.
    destruct (String.eqb_spec x name) as [->|Hx]; [|reflexivity].
    destruct (lookup name es) as [[| | | |]|]; try contradiction;
      destruct path; reflexivity.
  - destruct n as [| |fs| |]; try discriminate.
    unfold dir_at. destruct path as [|x path]; [reflexivity|].
    simpl. rewrite lookup_map_entry.
    destruct (String.eqb_spec x d) as [->|Hx]; [|reflexivity].
    destruct (lookup d fs) as [child|]; [|discriminate]. simpl.
    apply (IH child es path H Hold).
Qed.

Lemma canon_dir_at (top top' : node) :
  (forall path, dir_at top' path = dir_at top path) ->
  forall segs pos, canon top' pos segs = canon top pos segs.
Proof.
  intros Hsame. induction segs as [|s segs IH]; intros pos; simpl; [reflexivity|].
  pose proof (Hsame (rev pos)) as Hd. unfold dir_at in Hd.
  destruct (get top' (rev pos)) as [[| | | |]|], (get top (rev pos)) as [[| | | |]|];
    try discriminate; try reflexivity.
  now rewrite !IH.
Qed.

Lemma canon_app (top : node) (a b : list string) :
  forall pos,
    canon top pos (a ++ b)
    = match canon top pos a with
      | Some pos' => canon top pos' b
      | None => None
      end.
Proof.
  induction a as [|s a IH]; intros pos; simpl; [reflexivity|].
  destruct (get top (rev pos)) as [[| | | |]|]; try reflexivity.
  destruct (is_dot s); [apply IH|].
  destruct (String.eqb s ".."); apply IH.
Qed.

Lemma split_go_nonempty (sep : string) (s : string) :
  forall skip, split_go sep skip s <> [].
Proof.
  induction s as [|c s IH]; intros skip; simpl; [discriminate|].
  destruct skip; [|apply IH].
  destruct (starts_with sep (String c s)); [discriminate|].
  destruct (split_go sep 0 s); discriminate.
Qed.



(* ================================================================= *)
(** ** edit, where the new text has no dollar *)


Lemma split_first_unfold (old s : string) :
  split_first old s =
  if starts_with old s
  then Some (EmptyString, drop (String.length old) s)
  else match s with
       | EmptyString => None
       | String c t =>
           match split_first old t with
           | Some (b, a) => Some (String c b, a)
           | None => None
           end
       end.
Proof. destruct s; reflexivity. Qed.







(* ================================================================= *)
(** ** The walks of grep and glob *)

(** Induction on a tree of directories. *)
Section NodeInduction.

Variable P : node -> Prop.
Hypothesis P_File : forall content mtime, P (File content mtime).
Hypothesis P_Locked : forall mtime, P (Locked mtime).
Hypothesis P_Dir : forall files, Forall (fun e => P (snd e)) files -> P (Dir files).
Hypothesis P_NoList : P NoList.
Hypothesis P_Broken : P Broken.

Fixpoint node_induction (n : node) : P n :=
  match n with
  | File content mtime => P_File content mtime
  | Locked mtime => P_Locked mtime
  | Dir files =>
      P_Dir
        ((fix each (files : list (string * node)) : Forall (fun e => P (snd e)) files :=
            match files with
            | [] => Forall_nil _
            | (file, child) :: rest =>
                Forall_cons (file, child) (node_induction child) (each rest)
            end) files)
  | NoList => P_NoList
  | Broken => P_Broken
  end.

End NodeInduction.









Lemma or_none_nonempty (s : string) : s <> EmptyString -> or_none s = s.
Proof. destruct s; [contradiction | reflexivity]. Qed.




Example grep_in_project :
  grep fragment_RegExp (search_args "l+d" None) project = (Ret "a.txt:2:world", project).
Proof. reflexivity. Qed.

(** Of the sixty lines of [ledger] that match, the first fifty are
    returned. *)
Example grep_stops_at_fifty :
  fst (grep fragment_RegExp (search_args "a" None) ledger)
  = Ret (join NL (map (fun i => "big.txt:" ++ String_of (Z.of_nat i) ++ ":a")
                      (seq 1 50))).
Proof. reflexivity. Qed.

(* ----------------------------------------------------------------- *)
(** *** glob *)

Lemma matchPattern_by_fragment (filepath pattern : string) :
  matchPattern_by fragment_RegExp filepath (Some pattern) = matchPattern filepath pattern.
Proof.
  unfold matchPattern_by, matchPattern, RegExp_test, fragment_RegExp.
  now destruct (RegExp_new _).
Qed.

Section GlobWalk.

Variable RegExp : string -> outcome (string -> bool).
Variable pattern : option string.
Hypothesis complete : completes RegExp pattern.

Lemma glob_file_spec (wd : list string) (filepath : string) (mtime : Z)
  (results : list found) :
  glob_file RegExp wd pattern filepath mtime results
  = Ret (results ++ filter (accepts_by RegExp pattern)
                      [mkFound (path_relative wd "." filepath) mtime])%list.
Proof.
  unfold glob_file, accepts_by, matchPattern_by, completes in *.
  cbn [filter f_path].
  destruct pattern as [p|]; [|now rewrite app_nil_r].
  destruct (RegExp ("^" ++ regexPattern p ++ "$")) as [re|m|];
    [|now rewrite app_nil_r | congruence].
  destruct (re (path_relative wd "." filepath)); [reflexivity | now rewrite app_nil_r].
Qed.

(** The walk of [glob] adds to [results] the entries it can look at and
    whose path matches, in the order of the walk. *)
Lemma glob_walk_spec (wd : list string) (n : node) :
  forall dir results,
    glob_walk RegExp wd pattern dir n results
    = Ret (results ++ filter (accepts_by RegExp pattern)
                        (map (fun '(filepath, mtime) =>
                                mkFound (path_relative wd "." filepath) mtime)
                             (stat_files dir n)))%list.
Proof.
  induction n as [content mtime|mtime|files IH| |] using node_induction;
    intros dir results; try (simpl; now rewrite app_nil_r).
  simpl. revert results.
  induction IH as [|[file child] rest Hchild _ IHrest]; intros results.
  - simpl. now rewrite app_nil_r.
  - simpl in Hchild.
    rewrite map_app, filter_app, app_assoc.
    destruct child as [content mtime|mtime|sub| |].
    + rewrite glob_file_spec. simpl bind. apply IHrest.
    + rewrite glob_file_spec. simpl bind. apply IHrest.
    + rewrite Hchild. simpl bind. apply IHrest.
    + simpl. rewrite app_nil_r. apply IHrest.
    + simpl. rewrite app_nil_r. apply IHrest.
Qed.

Lemma glob_walk_from (fs : FS) (base : string) :
  glob_walk RegExp (cwd fs) pattern base (node_or_missing fs base) []
  = Ret (filter (accepts_by RegExp pattern) (candidates fs base)).
Proof.
  rewrite glob_walk_spec. unfold node_or_missing, candidates.
  destruct (node_at fs base); reflexivity.
Qed.

End GlobWalk.

(** [glob] sorts what its walk has found. *)
Lemma glob_by_sorted (RegExp : string -> outcome (string -> bool)) (args : Args)
  (fs : FS) :
  completes RegExp (a_pat args) ->
  glob_by RegExp args fs
  = (Ret (or_none (join NL (map f_path
       (Array_sort by_mtime
          (filter (accepts_by RegExp (a_pat args))
                  (candidates fs (or_str (a_path args) "."))))))), fs).
Proof. intros H. unfold glob_by. now rewrite glob_walk_from. Qed.

Lemma completes_engine (engine : string -> regexp) (pattern : option string) :
  completes (RegExp_of engine) pattern.
Proof.
  destruct pattern as [p|]; simpl; [|exact I].
  unfold RegExp_of. destruct (engine _); discriminate.
Qed.

Lemma accepts_by_fragment (pattern : string) (f : found) :
  accepts_by fragment_RegExp (Some pattern) f = accepts pattern f.
Proof.
  unfold accepts_by, accepts, matchPattern, RegExp_test, fragment_RegExp.
  destruct (RegExp_new _); [|reflexivity..].
  now destruct (test r (f_path f)).
Qed.

Lemma completes_fragment (pattern : string) :
  translatable pattern = true -> completes fragment_RegExp (Some pattern).
Proof.
  unfold translatable, completes, fragment_RegExp.
  destruct (RegExp_new _); congruence.
Qed.

Lemma insert_sorted_perm (x : found) (xs : list found) :
  Permutation (x :: xs) (insert_sorted by_mtime x xs).
Proof.
  induction xs as [|y ys IH]; simpl; [reflexivity|].
  destruct (0 <? by_mtime x y)%Z; [|reflexivity].
  rewrite perm_swap. now constructor.
Qed.

Lemma Array_sort_perm (xs : list found) : Permutation xs (Array_sort by_mtime xs).
Proof.
  induction xs as [|x xs IH]; simpl; [constructor|].
  rewrite <- insert_sorted_perm. now constructor.
Qed.

Lemma insert_sorted_sorted (x : found) (xs : list found) :
  StronglySorted not_older xs -> StronglySorted not_older (insert_sorted by_mtime x xs).
Proof.
  induction 1 as [|y ys Hs IH Hall]; simpl.
  - repeat constructor.
  - unfold by_mtime at 1. destruct (Z.ltb_spec 0 (f_mtime y - f_mtime x)) as [Hlt|Hge].
    + constructor; [exact IH|].
      rewrite <- insert_sorted_perm. constructor; [unfold not_older; lia | exact Hall].
    + constructor; [now constructor|].
      constructor; [unfold not_older; lia|].
      eapply Forall_impl; [|exact Hall]. unfold not_older. intros; lia.
Qed.

Lemma Array_sort_sorted (xs : list found) :
  StronglySorted not_older (Array_sort by_mtime xs).
Proof.
  induction xs as [|x xs IH]; simpl; [constructor | now apply insert_sorted_sorted].
Qed.

(** C6, as the code has it.  Whatever the pattern, the base path and
    the engine of regular expressions, [glob] returns the paths of
    exactly those entries below the base path that are no directories,
    can be looked at, and whose path relative to the working directory
    -- not to the base path -- matches; they are ordered from the newest
    to the oldest and joined by newlines, and [none] is returned when
    there is none.  A pattern whose translation the engine rejects, and
    a pattern that is missing, match no path. *)
Theorem glob_lists_matches_newest_first :
  forall (engine : string -> regexp) (fs : FS) (args : Args),
    exists results : list found,
      Permutation
        (filter (accepts_by (RegExp_of engine) (a_pat args))
                (candidates fs (or_str (a_path args) "."))) results /\
      StronglySorted not_older results /\
      glob_by (RegExp_of engine) args fs
      = (Ret (or_none (join NL (map f_path results))), fs) /\
      (results = [] -> glob_by (RegExp_of engine) args fs = (Ret "none", fs)).
Proof.
  intros engine fs args.
  exists (Array_sort by_mtime
            (filter (accepts_by (RegExp_of engine) (a_pat args))
                    (candidates fs (or_str (a_path args) ".")))).
  split; [apply Array_sort_perm|]. split; [apply Array_sort_sorted|].
  pose proof (@glob_by_sorted (RegExp_of engine) args fs
                (completes_engine engine (a_pat args))) as Hglob.
  split; [exact Hglob|].
  intros Hnil. rewrite Hglob, Hnil. reflexivity.
Qed.

Lemma glob_lists_matches_newest_first_witness :
  exists results : list found,
    Permutation
      (filter (accepts_by (RegExp_of small_engine) (Some "*.txt"))
              (candidates project ".")) results /\
    StronglySorted not_older results /\
    glob_by (RegExp_of small_engine) (search_args "*.txt" None) project
    = (Ret (or_none (join NL (map f_path results))), project) /\
    (results = [] ->
     glob_by (RegExp_of small_engine) (search_args "*.txt" None) project
     = (Ret "none", project)).
Proof.
  exact (glob_lists_matches_newest_first small_engine project
           (search_args "*.txt" None)).
Defined.

(** A pattern with braces lies outside the fragment of this
    development.  An engine reads the braces of its translation as
    themselves, so that no file of [project] matches. *)
Example glob_reads_a_brace (engine : string -> regexp) :
  engine "^[^/]*\.{js,txt}$"
  = Accepted (fun path => endsWith ".{js,txt}" path && all_chars not_slash path) ->
  fst (glob_by (RegExp_of engine) (search_args "*.{js,txt}" None) project)
  = Ret "none".
Proof.
  intros H.
  rewrite (@glob_by_sorted (RegExp_of engine) (search_args "*.{js,txt}" None) project
             (completes_engine engine _)).
  cbn [search_args a_pat a_path or_str]. unfold accepts_by, RegExp_of.
  change (regexPattern "*.{js,txt}") with "[^/]*\.{js,txt}".
  cbn [append]. rewrite H. reflexivity.
Qed.

Example glob_in_project :
  glob (search_args "*.txt" None) project
  = (Ret ("z.txt" ++ NL ++ "a.txt" ++ NL ++ "price.txt"), project).
Proof. reflexivity. Qed.

(** C6, as the claim has it, fails for a base path other than the
    working directory.  Below [src] lies [c.txt], whose path relative to
    the root of the walk matches [*.txt]; [glob] tests and returns the
    path relative to the working directory instead, so it finds nothing
    for [*.txt] and answers [src/c.txt] to a pattern that allows for the
    directory. *)
Lemma glob_paths_are_relative_to_cwd :
  path_relative (cwd project) "src" (path_join "src" "c.txt") = "c.txt" /\
  matchPattern "c.txt" "*.txt" = Ret true /\
  glob (search_args "*.txt" (Some "src")) project = (Ret "none", project) /\
  glob (search_args "**/*.txt" (Some "src")) project
  = (Ret ("src/c.txt" ++ NL ++ "src/d.txt"), project).
Proof. repeat split; reflexivity. Qed.

(* ================================================================= *)
(** ** matchPattern *)

(** *** The regular expression of a token list matches as a glob *)

Lemma all_chars_ext (p q : ascii -> bool) (s : string) :
  (forall c, p c = q c) -> all_chars p s = all_chars q s.
Proof. intros H. induction s as [|c s IH]; simpl; [reflexivity | now rewrite H, IH]. Qed.

Lemma append_eq_empty (u v : string) : u ++ v = EmptyString -> u = EmptyString /\ v = EmptyString.
Proof. destruct u; simpl; intros H; [now split | discriminate]. Qed.

(** A greedy run succeeds exactly when some run of [a], however long,
    can be followed by [k]. *)
Lemma greedy_spec (a : atom) (k : bool -> string -> option string) :
  (forall b b' s, k b s = k b' s) ->
  forall s at0,
    (exists e, greedy a k at0 s = Some e) <->
    (exists u v, s = u ++ v /\ all_chars (atom_matches a) u = true /\
                 exists e, k false v = Some e).
Proof.
  intros Hk. induction s as [|c s IH]; intros at0; cbn [greedy].
  - split.
    + intros [e He]. exists EmptyString, EmptyString. repeat split.
      exists e. now rewrite (Hk false at0).
    + intros (u & v & Huv & _ & e & He). symmetry in Huv.
      apply append_eq_empty in Huv as [-> ->]. exists e. now rewrite (Hk at0 false).
  - split.
    + intros [e He]. destruct (atom_matches a c) eqn:Hc.
      * destruct (greedy a k false s) as [e'|] eqn:Hg.
        -- destruct (proj1 (IH false) (ex_intro _ e' Hg)) as (u & v & -> & Hu & Hv).
           exists (String c u), v. repeat split; [|exact Hv]. simpl. now rewrite Hc, Hu.
        -- exists EmptyString, (String c s). repeat split.
           exists e. now rewrite (Hk false at0).
      * exists EmptyString, (String c s). repeat split.
        exists e. now rewrite (Hk false at0).
    + intros (u & v & Huv & Hu & e & He).
      destruct u as [|d u]; simpl in Huv.
      * subst v. rewrite (Hk false at0) in He.
        destruct (atom_matches a c); [|now exists e].
        destruct (greedy a k false s) as [e'|]; [now exists e' | now exists e].
      * injection Huv as <- ->. simpl in Hu.
        apply andb_true_iff in Hu as [Hc Hu]. rewrite Hc.
        destruct (proj2 (IH false)) as [e' He'].
        { exists u, v. repeat split; [exact Hu | now exists e]. }
        rewrite He'. now exists e'.
Qed.

Lemma greedy_flag (a : atom) (k : bool -> string -> option string) :
  (forall b b' s, k b s = k b' s) ->
  forall b b' s, greedy a k b s = greedy a k b' s.
Proof.
  intros Hk b b' s. destruct s as [|c s]; cbn [greedy]; [apply Hk|].
  now rewrite (Hk b b').
Qed.

(** The terms of a token list never look at the index of the position. *)
Lemma match_tokens_flag (ts : list gtoken) :
  forall b b' s,
    match_here (map term_of ts ++ [TEol]) b s
    = match_here (map term_of ts ++ [TEol]) b' s.
Proof.
  induction ts as [|t ts IH]; intros b b' s.
  - destruct s; reflexivity.
  - destruct t; try reflexivity; simpl; now apply greedy_flag.
Qed.

Lemma not_slash_class (c : ascii) :
  atom_matches (AClass true ["/"%char]) c = not_slash c.
Proof. unfold not_slash. simpl. now rewrite orb_false_r. Qed.

(** The regular expression of a token list matches a text up to its end
    exactly when the text matches as a glob. *)
Lemma match_tokens_spec (ts : list gtoken) :
  forall s b,
    (exists e, match_here (map term_of ts ++ [TEol]) b s = Some e) <->
    glob_matches not_newline ts s.
Proof.
  induction ts as [|t ts IH]; intros s b.
  - simpl. destruct s as [|c s].
    + split; [constructor | now exists EmptyString].
    + split; [intros [e He]; discriminate | intros H; inversion H].
  - destruct t.
    + (* a dot *)
      simpl. destruct s as [|c s].
      * split; [intros [e He]; discriminate | intros H; inversion H].
      * destruct (Ascii.eqb_spec c ".") as [->|Hne].
        -- rewrite IH. split; [now constructor | now inversion 1].
        -- split; [intros [e He]; discriminate | inversion 1; congruence].
    + (* a plain character *)
      simpl. destruct s as [|d s].
      * split; [intros [e He]; discriminate | intros H; inversion H].
      * destruct (Ascii.eqb_spec d c) as [->|Hne].
        -- rewrite IH. split; [now constructor | now inversion 1].
        -- split; [intros [e He]; discriminate | inversion 1; congruence].
    + (* a question mark *)
      simpl. destruct s as [|c s].
      * split; [intros [e He]; discriminate | intros H; inversion H].
      * fold (not_newline c). destruct (not_newline c) eqn:Hc.
        -- rewrite IH. split; [now constructor | now inversion 1].
        -- split; [intros [e He]; discriminate | inversion 1; congruence].
    + (* a star *)
      change (map term_of (GStar :: ts) ++ [TEol])%list
        with (TAtom (AClass true ["/"%char]) QStar :: (map term_of ts ++ [TEol]))%list.
      cbn [match_here].
      rewrite (greedy_spec _ _ (match_tokens_flag ts)). split.
      * intros (u & v & -> & Hu & Hv). constructor.
        -- now rewrite <- (all_chars_ext _ _ u not_slash_class).
        -- now apply (IH v false).
      * inversion 1 as [| | | |u ts' v Hu Hv|]; subst.
        exists u, v. repeat split.
        -- now rewrite (all_chars_ext _ _ u not_slash_class).
        -- now apply (IH v false).
    + (* two stars *)
      change (map term_of (GDeep :: ts) ++ [TEol])%list
        with (TAtom AAny QStar :: (map term_of ts ++ [TEol]))%list.
      cbn [match_here].
      rewrite (greedy_spec _ _ (match_tokens_flag ts)). split.
      * intros (u & v & -> & Hu & Hv). constructor; [exact Hu | now apply (IH v false)].
      * inversion 1 as [| | | | |u ts' v Hu Hv]; subst.
        exists u, v. repeat split; [exact Hu | now apply (IH v false)].
Qed.

Lemma search_after_start (r : list term) (s : string) :
  search (TBol :: r) false s = false.
Proof. induction s as [|c s IH]; simpl; [reflexivity | exact IH]. Qed.

(** An anchored regular expression is tested at index 0 only. *)
Lemma test_anchored (r : list term) (s : string) :
  test (TBol :: r) s = match match_here r true s with
                       | Some _ => true
                       | None => false
                       end.
Proof.
  unfold test. destruct s as [|c s]; simpl.
  - destruct (match_here r true EmptyString); reflexivity.
  - destruct (match_here r true (String c s)); [reflexivity | apply search_after_start].
Qed.

Lemma test_tokens (ts : list gtoken) (s : string) :
  test (TBol :: map term_of ts ++ [TEol]) s = true <-> glob_matches not_newline ts s.
Proof.
  rewrite test_anchored, <- (match_tokens_spec ts s true).
  destruct (match_here (map term_of ts ++ [TEol]) true s) as [e|].
  - split; [now exists e | reflexivity].
  - split; [discriminate | intros [e He]; discriminate].
Qed.

(** *** The text of a token list compiles to its regular expression *)

Lemma parse_go_image (t : gtoken) (pending : option atom) (acc : list term) (rest : string) :
  plain_token t = true ->
  exists pending' acc',
    parse_go PNormal pending acc (image t ++ rest) = parse_go PNormal pending' acc' rest /\
    flush pending' acc' = term_of t :: flush pending acc.
Proof.
  intros Hp. destruct t; simpl in Hp.
  - exists (Some (AChar ".")), (flush pending acc). split; reflexivity.
  - apply negb_true_iff in Hp.
    exists (Some (AChar c)), (flush pending acc). split; [|reflexivity].
    now apply parse_go_plain.
  - exists (Some AAny), (flush pending acc). split; reflexivity.
  - exists None, (TAtom (AClass true ["/"%char]) QStar :: flush pending acc).
    split; reflexivity.
  - exists None, (TAtom AAny QStar :: flush pending acc). split; reflexivity.
Qed.

Lemma parse_go_images (ts : list gtoken) :
  forallb plain_token ts = true ->
  forall pending acc,
    parse_go PNormal pending acc (glue (map image ts) ++ "$")
    = Compiled (rev (flush pending acc) ++ map term_of ts ++ [TEol]).
Proof.
  induction ts as [|t ts IH]; intros Hp pending acc.
  - simpl. destruct pending; reflexivity.
  - simpl in Hp. apply andb_true_iff in Hp as [Ht Hts].
    change (glue (map image (t :: ts))) with (image t ++ glue (map image ts)).
    rewrite append_assoc.
    destruct (parse_go_image t pending acc (glue (map image ts) ++ "$") Ht)
      as (pending' & acc' & -> & Hflush).
    rewrite (IH Hts), Hflush. simpl. now rewrite <- app_assoc.
Qed.

Lemma RegExp_new_images (ts : list gtoken) :
  forallb plain_token ts = true ->
  RegExp_new ("^" ++ glue (map image ts) ++ "$")
  = Compiled (TBol :: map term_of ts ++ [TEol]).
Proof.
  intros Hp. unfold RegExp_new.
  change (parse_go PNormal None [] ("^" ++ glue (map image ts) ++ "$"))
    with (parse_go PNormal None [TBol] (glue (map image ts) ++ "$")).
  now rewrite parse_go_images.
Qed.

(** *** One step of the translation, on the text of a token list *)

Section Replace.

Variables (pat' rep : string) (h : ascii).
Let pat : string := String h pat'.

Lemma replace_go_skip (u R : string) :
  replace_go pat rep (String.length u) (u ++ R) = replace_go pat rep 0 R.
Proof.
  induction u as [|c u IH]; simpl; [|exact IH].
  destruct R; reflexivity.
Qed.

Lemma replace_match (R : string) :
  replace_all pat rep (pat ++ R) = rep ++ replace_all pat rep R.
Proof.
  unfold replace_all, pat. cbn [append replace_go starts_with].
  rewrite Ascii.eqb_refl, starts_with_append. cbn [andb].
  replace (String.length (String h pat') - 1) with (String.length pat')
    by (simpl; lia).
  f_equal. apply replace_go_skip.
Qed.

Lemma replace_free (u R : string) :
  all_chars (fun c => negb (Ascii.eqb h c)) u = true ->
  replace_all pat rep (u ++ R) = u ++ replace_all pat rep R.
Proof.
  unfold replace_all. induction u as [|c u IH]; intros Hu; simpl in *; [reflexivity|].
  apply andb_true_iff in Hu as [Hc Hu]. apply negb_true_iff in Hc.
  rewrite Hc. simpl. now rewrite IH.
Qed.

Lemma replace_piece (u R : string) :
  starts_with pat (u ++ R) = false ->
  tail_free h u = true ->
  replace_all pat rep (u ++ R) = u ++ replace_all pat rep R.
Proof.
  destruct u as [|c u]; intros Hs Ht; [reflexivity|].
  simpl in Ht. unfold replace_all. cbn [append replace_go].
  change (String c (u ++ R)) with (String c u ++ R). rewrite Hs.
  f_equal. now apply replace_free.
Qed.

(** When every token is the text to replace or keeps clear of it, the
    step acts on the tokens one by one. *)
Lemma replace_tokens (before after : gtoken -> string) (ts : list gtoken) :
  steps_ok pat rep h before after ts ->
  replace_all pat rep (glue (map before ts)) = glue (map after ts).
Proof.
  induction ts as [|t ts IH]; intros Hts; [reflexivity|].
  destruct Hts as [Ht Hts].
  change (glue (map before (t :: ts))) with (before t ++ glue (map before ts)).
  change (glue (map after (t :: ts))) with (after t ++ glue (map after ts)).
  destruct Ht as [[Hb Ha]|(Ha & Hs & Hf)].
  - rewrite Hb, Ha, replace_match. now rewrite IH.
  - rewrite Ha, replace_piece by assumption. now rewrite IH.
Qed.

End Replace.

(** *** The tokens of a pattern *)

Lemma pattern_ind (P : string -> Prop) :
  P EmptyString ->
  (forall r, P r -> P (String "*" (String "*" r))) ->
  (forall r, starts_with "*" r = false -> P r -> P (String "*" r)) ->
  (forall c r, Ascii.eqb c "*" = false -> P r -> P (String c r)) ->
  forall p, P p.
Proof.
  intros H0 Hdeep Hstar Hother.
  assert (H : forall p, P p /\ forall c, P (String c p)).
  { induction p as [|d p [IHp IHc]].
    - split; [exact H0|]. intros c.
      destruct (Ascii.eqb c "*") eqn:Hc.
      + apply Ascii.eqb_eq in Hc; subst c. now apply Hstar.
      + now apply Hother.
    - split; [apply IHc|]. intros c.
      destruct (Ascii.eqb c "*") eqn:Hc.
      + apply Ascii.eqb_eq in Hc; subst c.
        destruct (Ascii.eqb d "*") eqn:Hd.
        * apply Ascii.eqb_eq in Hd; subst d. now apply Hdeep.
        * apply Hstar; [|apply IHc]. cbn [starts_with].
          rewrite Ascii.eqb_sym, Hd. reflexivity.
      + apply Hother; [exact Hc | apply IHc]. }
  intros p. apply H.
Qed.

Lemma tokens_deep (r : string) :
  tokens (String "*" (String "*" r)) = GDeep :: tokens r.
Proof. reflexivity. Qed.

Lemma tokens_star (r : string) :
  starts_with "*" r = false -> tokens (String "*" r) = GStar :: tokens r.
Proof.
  intros H. destruct r as [|d r]; [reflexivity|].
  cbn [starts_with] in H. rewrite andb_true_r, Ascii.eqb_sym in H.
  cbn [tokens]. rewrite Ascii.eqb_refl, H. reflexivity.
Qed.

Lemma tokens_other (c : ascii) (r : string) :
  Ascii.eqb c "*" = false -> tokens (String c r) = classify c :: tokens r.
Proof. intros H. cbn [tokens]. now rewrite H. Qed.

Lemma classify_cases (c : ascii) :
  Ascii.eqb c "*" = false ->
  (c = "."%char /\ classify c = GDot) \/
  (c = "?"%char /\ classify c = GAny) \/
  (special c = false /\ classify c = GChar c).
Proof.
  intros Hstar. unfold classify, special. rewrite Hstar.
  destruct (Ascii.eqb_spec c ".") as [->|Hd]; [now left|].
  destruct (Ascii.eqb_spec c "?") as [->|Hq]; [right; now left|].
  right; right. split; reflexivity.
Qed.

Lemma tokens_well_formed (p : string) : well_formed (tokens p) = true.
Proof.
  induction p as [|r IH|r Hr IH|c r Hc IH] using pattern_ind.
  - reflexivity.
  - rewrite tokens_deep. exact IH.
  - rewrite tokens_star by exact Hr. cbn [well_formed]. rewrite IH, andb_true_r.
    destruct r as [|d r]; [reflexivity|].
    cbn [starts_with] in Hr. rewrite andb_true_r, Ascii.eqb_sym in Hr.
    rewrite tokens_other by exact Hr.
    destruct (classify_cases d Hr) as [[_ ->]|[[_ ->]|[_ ->]]]; reflexivity.
  - rewrite tokens_other by exact Hc. cbn [well_formed]. rewrite IH, andb_true_r.
    destruct (classify_cases c Hc) as [[_ ->]|[[_ ->]|[Hs ->]]];
      [reflexivity | reflexivity | now rewrite Hs].
Qed.

(** The tokens spell the pattern. *)
Lemma tokens_source (p : string) : glue (map source_text (tokens p)) = p.
Proof.
  induction p as [|r IH|r Hr IH|c r Hc IH] using pattern_ind.
  - reflexivity.
  - rewrite tokens_deep. cbn [map]. unfold glue in *. cbn [fold_right]. now rewrite IH.
  - rewrite tokens_star by exact Hr. cbn [map]. unfold glue in *. cbn [fold_right].
    now rewrite IH.
  - rewrite tokens_other by exact Hc. cbn [map]. unfold glue in *. cbn [fold_right].
    rewrite IH.
    destruct (classify_cases c Hc) as [[-> ->]|[[-> ->]|[_ ->]]]; reflexivity.
Qed.

Lemma spells_tokens (w : string) :
  forall p, spells w (tokens p) = true -> starts_with w p = true.
Proof.
  induction w as [|c w IH]; intros p H; [reflexivity|].
  destruct p as [|d r]; [discriminate|].
  destruct (Ascii.eqb d "*") eqn:Hd.
  - apply Ascii.eqb_eq in Hd; subst d.
    destruct r as [|e r]; [discriminate|].
    cbn [tokens] in H. rewrite Ascii.eqb_refl in H.
    destruct (Ascii.eqb e "*"); discriminate.
  - rewrite tokens_other in H by exact Hd.
    destruct (classify_cases d Hd) as [[_ E]|[[_ E]|[_ E]]]; rewrite E in H;
      try discriminate.
    cbn [spells] in H. apply andb_true_iff in H as [Hc Hw].
    cbn [starts_with]. rewrite Hc. now apply IH.
Qed.

Lemma includes_false (p w : string) :
  includes p w = false ->
  starts_with w p = false /\
  match p with
  | EmptyString => True
  | String _ r => includes r w = false
  end.
Proof.
  rewrite includes_unfold. intros H. apply orb_false_iff in H as [H1 H2].
  split; [exact H1|]. destruct p; [exact I | exact H2].
Qed.

Lemma spells_absent (p w : string) :
  includes p w = false -> spells w (tokens p) = false.
Proof.
  intros H. apply includes_false in H as [H _].
  destruct (spells w (tokens p)) eqn:E; [|reflexivity].
  apply spells_tokens in E. congruence.
Qed.

(** A word that occurs nowhere in the pattern is spelled nowhere by its
    tokens. *)
Lemma never_spells_tokens (w : string) (p : string) :
  includes p w = false -> never_spells w (tokens p) = true.
Proof.
  induction p as [|r IH|r Hr IH|c r Hc IH] using pattern_ind; intros H.
  - cbn [tokens never_spells]. change (@nil gtoken) with (tokens EmptyString).
    now rewrite (spells_absent EmptyString w H).
  - pose proof (spells_absent _ w H) as Hs.
    apply includes_false in H as [_ H]. apply includes_false in H as [_ H].
    rewrite tokens_deep in *. cbn [never_spells]. now rewrite Hs, IH.
  - pose proof (spells_absent _ w H) as Hs.
    apply includes_false in H as [_ H].
    rewrite tokens_star in * by exact Hr. cbn [never_spells]. now rewrite Hs, IH.
  - pose proof (spells_absent _ w H) as Hs.
    apply includes_false in H as [_ H].
    rewrite tokens_other in * by exact Hc. cbn [never_spells]. now rewrite Hs, IH.
Qed.

(** *** The five steps *)

Lemma special_false (c : ascii) :
  special c = false ->
  Ascii.eqb "." c = false /\ Ascii.eqb "*" c = false /\ Ascii.eqb "?" c = false.
Proof.
  unfold special. intros H.
  apply orb_false_iff in H as [H Hq]. apply orb_false_iff in H as [Hd Hs].
  rewrite !(Ascii.eqb_sym _ c). now repeat split.
Qed.

Ltac token_cases ts IH H :=
  induction ts as [|t ts IH]; intros H; [exact I|];
  cbn [well_formed] in H; apply andb_true_iff in H as [Ht H];
  split; [|now apply IH]; clear IH.

Lemma step1_ok (ts : list gtoken) :
  well_formed ts = true ->
  steps_ok "." "\." "." source_text stage1 ts.
Proof.
  token_cases ts IH H.
  destruct t as [|c| | |].
  - left. split; reflexivity.
  - right. apply negb_true_iff, special_false in Ht as (Hd & _ & _).
    repeat split. cbn [source_text str1 append starts_with]. now rewrite Hd.
  - right. repeat split.
  - right. repeat split.
  - right. repeat split.
Qed.

Lemma stage1_first (t : gtoken) (ts : list gtoken) (R : string) :
  well_formed (t :: ts) = true ->
  match t with GStar | GDeep => False | _ => True end ->
  starts_with "*" (stage1 t ++ R) = false.
Proof.
  intros H Ht. destruct t as [|c| | |]; try contradiction; try reflexivity.
  cbn [well_formed] in H. apply andb_true_iff in H as [Hc _].
  apply negb_true_iff, special_false in Hc as (_ & Hs & _).
  cbn [stage1 source_text str1 append starts_with]. now rewrite Hs.
Qed.

Lemma step2_ok (ts : list gtoken) :
  well_formed ts = true ->
  steps_ok "**" DOUBLE_STAR "*" stage1 stage2 ts.
Proof.
  induction ts as [|t ts IH]; intros H; [exact I|].
  pose proof H as Hall.
  cbn [well_formed] in H; apply andb_true_iff in H as [Ht H].
  split; [|now apply IH]; clear IH.
  destruct t as [|c| | |].
  - right. repeat split.
  - right. apply negb_true_iff, special_false in Ht as (_ & Hs & _).
    repeat split. cbn [stage1 source_text str1 append starts_with]. now rewrite Hs.
  - right. repeat split.
  - right. repeat split.
    cbn [stage1 source_text append starts_with]. rewrite Ascii.eqb_refl. cbn [andb].
    destruct ts as [|t' ts']; [reflexivity|].
    change (glue (map stage1 (t' :: ts'))) with (stage1 t' ++ glue (map stage1 ts')).
    apply (stage1_first t' ts'); [exact H|].
    destruct t'; try exact I; discriminate.
  - left. split; reflexivity.
Qed.

Lemma step3_ok (ts : list gtoken) :
  well_formed ts = true ->
  steps_ok "*" "[^/]*" "*" stage2 stage3 ts.
Proof.
  token_cases ts IH H.
  destruct t as [|c| | |].
  - right. repeat split.
  - right. apply negb_true_iff, special_false in Ht as (_ & Hs & _).
    repeat split. cbn [stage2 stage1 source_text str1 append starts_with]. now rewrite Hs.
  - right. repeat split.
  - left. split; reflexivity.
  - right. repeat split.
Qed.

(** Where the text after the third step begins with a word that only
    plain characters can spell, the tokens spell it. *)
Lemma stage3_spelled (w tail : string) :
  forall ts,
    word_ok w tail = true ->
    starts_with (w ++ tail) (glue (map stage3 ts)) = true ->
    spells w ts = true.
Proof.
  induction w as [|c w IH]; intros ts Hw Hs; [reflexivity|].
  cbn [word_ok] in Hw.
  apply andb_true_iff in Hw as [Hw Hrest].
  apply andb_true_iff in Hw as [Hw Hunder].
  apply andb_true_iff in Hw as [Hw Hbracket].
  apply andb_true_iff in Hw as [Hback Hquestion].
  apply negb_true_iff in Hback, Hquestion, Hbracket.
  destruct ts as [|t ts]; [discriminate|].
  change (glue (map stage3 (t :: ts))) with (stage3 t ++ glue (map stage3 ts)) in Hs.
  destruct t as [|d| | |];
    cbn [stage3 stage2 stage1 source_text str1 append starts_with] in Hs;
    apply andb_true_iff in Hs as [Hc Hs].
  - congruence.
  - cbn [spells]. rewrite Hc. now apply IH.
  - congruence.
  - congruence.
  - exfalso. unfold DOUBLE_STAR in Hc, Hs. cbn [append starts_with] in Hc, Hs.
    rewrite Hc in Hunder. cbn [negb orb] in Hunder.
    destruct (w ++ tail) as [|e rest]; [discriminate|].
    cbn [starts_with] in Hs. apply andb_true_iff in Hs as [He _].
    rewrite He in Hunder. discriminate Hunder.
Qed.

Lemma step4_ok (ts : list gtoken) :
  well_formed ts = true ->
  never_spells "__DOUBLE_STAR" ts = true ->
  steps_ok DOUBLE_STAR ".*" "_" stage3 stage4 ts.
Proof.
  induction ts as [|t ts IH]; intros H Hn; [exact I|].
  cbn [well_formed] in H; apply andb_true_iff in H as [Ht H].
  cbn [never_spells] in Hn; apply andb_true_iff in Hn as [Hhere Hn].
  split; [|now apply IH]; clear IH.
  destruct t as [|c| | |].
  - right. repeat split.
  - right. repeat split.
    destruct (starts_with DOUBLE_STAR (stage3 (GChar c) ++ glue (map stage3 ts))) eqn:E;
      [exfalso | reflexivity].
    unfold DOUBLE_STAR in E.
    cbn [stage3 stage2 stage1 source_text str1 append starts_with] in E.
    apply andb_true_iff in E as [Hc E].
    apply (stage3_spelled "_DOUBLE_STAR" "__") in E; [|reflexivity].
    apply negb_true_iff in Hhere.
    change (spells "__DOUBLE_STAR" (GChar c :: ts))
      with (Ascii.eqb "_" c && spells "_DOUBLE_STAR" ts) in Hhere.
    rewrite Hc, E in Hhere. discriminate Hhere.
  - right. repeat split.
  - right. repeat split.
  - left. split; reflexivity.
Qed.

Lemma step5_ok (ts : list gtoken) :
  well_formed ts = true ->
  steps_ok "?" "." "?" stage4 image ts.
Proof.
  token_cases ts IH H.
  destruct t as [|c| | |].
  - right. repeat split.
  - right. apply negb_true_iff, special_false in Ht as (_ & _ & Hq).
    repeat split.
    cbn [stage4 stage3 stage2 stage1 source_text str1 append starts_with]. now rewrite Hq.
  - left. split; reflexivity.
  - right. repeat split.
  - right. repeat split.
Qed.

(** On a pattern in which the placeholder does not begin anywhere, the
    chain of replacements translates token by token. *)
Lemma regexPattern_tokens (p : string) :
  includes p "__DOUBLE_STAR" = false ->
  regexPattern p = glue (map image (tokens p)).
Proof.
  intros Hp. unfold regexPattern.
  pose proof (tokens_well_formed p) as Hwf.
  pose proof (replace_tokens EmptyString "\." "." source_text stage1 _ (step1_ok _ Hwf)) as E1.
  pose proof (replace_tokens "*" DOUBLE_STAR "*" stage1 stage2 _ (step2_ok _ Hwf)) as E2.
  pose proof (replace_tokens EmptyString "[^/]*" "*" stage2 stage3 _ (step3_ok _ Hwf)) as E3.
  pose proof (replace_tokens "_DOUBLE_STAR__" ".*" "_" stage3 stage4 _
                (step4_ok _ Hwf (never_spells_tokens "__DOUBLE_STAR" p Hp))) as E4.
  pose proof (replace_tokens EmptyString "." "?" stage4 image _ (step5_ok _ Hwf)) as E5.
  rewrite (tokens_source p) in E1.
  change (String "_" "_DOUBLE_STAR__") with DOUBLE_STAR in E4.
  now rewrite E1, E2, E3, E4, E5.
Qed.

Lemma glob_char_plain (c : ascii) :
  glob_char c = true -> special c = false -> syntax_char c = false.
Proof.
  unfold glob_char, special. intros H Hs.
  apply orb_false_iff in Hs as [Hs Hq]. apply orb_false_iff in Hs as [Hd Hs].
  rewrite Hd, Hs, Hq, !orb_false_r in H. now apply negb_true_iff in H.
Qed.

Lemma tokens_plain (p : string) :
  all_chars glob_char p = true -> forallb plain_token (tokens p) = true.
Proof.
  induction p as [|r IH|r Hr IH|c r Hc IH] using pattern_ind; intros H.
  - reflexivity.
  - rewrite tokens_deep. cbn [all_chars] in H.
    apply andb_true_iff in H as [_ H]. apply andb_true_iff in H as [_ H].
    cbn [forallb plain_token]. now apply IH.
  - rewrite tokens_star by exact Hr. cbn [all_chars] in H.
    apply andb_true_iff in H as [_ H]. cbn [forallb plain_token]. now apply IH.
  - rewrite tokens_other by exact Hc. cbn [all_chars] in H.
    apply andb_true_iff in H as [Hg H]. cbn [forallb]. rewrite (IH H), andb_true_r.
    destruct (classify_cases c Hc) as [[_ ->]|[[_ ->]|[Hs ->]]]; try reflexivity.
    cbn [plain_token]. now rewrite (glob_char_plain c Hg Hs).
Qed.

(** C3, as the code has it.  On a pattern in which no character other
    than [.], [*] and [?] has a meaning in a regular expression, and in
    which the placeholder [__DOUBLE_STAR] of the translation does not
    begin, [matchPattern] returns, and it accepts a path exactly when
    the whole path matches the pattern read as a glob: a dot for a dot,
    [*] for a run of characters without a slash, [?] for one character
    that is no line terminator, [**] for a run of such characters. *)
Theorem matchPattern_is_glob_matching :
  forall pattern filepath : string,
    glob_safe pattern = true ->
    exists b : bool,
      matchPattern filepath pattern = Ret b /\
      (b = true <-> glob_matches not_newline (tokens pattern) filepath).
Proof.
  intros pattern filepath Hsafe. unfold glob_safe in Hsafe.
  apply andb_true_iff in Hsafe as [Hchars Hplace]. apply negb_true_iff in Hplace.
  unfold matchPattern, RegExp_test.
  rewrite (regexPattern_tokens pattern Hplace),
    (RegExp_new_images (tokens pattern) (tokens_plain pattern Hchars)).
  eexists. split; [reflexivity|]. apply test_tokens.
Qed.

Lemma matchPattern_is_glob_matching_witness :
  exists b : bool,
    matchPattern "src/lib/a.test.js" "src/**/*.js" = Ret b /\
    (b = true <->
     glob_matches not_newline (tokens "src/**/*.js") "src/lib/a.test.js").
Proof.
  apply (@matchPattern_is_glob_matching "src/**/*.js" "src/lib/a.test.js").
  reflexivity.
Defined.

(** C3, as the claim has it, fails.  A character such as [+] is not
    taken for itself but for what it means in a regular expression, so
    the file [a+b.txt] is not matched by its own name; and [?] does not
    stand for a line feed, which is one character of a path. *)
Lemma matchPattern_is_not_a_glob_matcher_everywhere :
  glob_matches any_char (tokens "a+b.txt") "a+b.txt" /\
  matchPattern "a+b.txt" "a+b.txt" = Ret false /\
  glob_matches any_char (tokens "?") NL /\
  matchPattern NL "?" = Ret false.
Proof.
  split; [|split; [|split]].
  - cbn. repeat constructor.
  - reflexivity.
  - cbn. constructor; [reflexivity | constructor].
  - reflexivity.
Qed.

(** The placeholder of the translation is taken for [**] where the
    pattern holds it. *)
Example matchPattern_placeholder :
  matchPattern "x/y" "__DOUBLE_STAR__" = Ret true /\
  ~ glob_matches any_char (tokens "__DOUBLE_STAR__") "x/y".
Proof.
  split; [reflexivity|]. cbn. intros H. inversion H.
Qed.

(** C10 fails on the code.  The non-streaming variant replaces the
    stars of the [.*] it has just written for [**], so its [**] stops
    at a slash; the streaming variant protects it by a placeholder. *)
Lemma matchPattern_variants_differ :
  regexPattern "**/*.js" = ".*/[^/]*\.js" /\
  Nano.regexPattern "**/*.js" = ".[^/]*/[^/]*\.js" /\
  matchPattern "src/lib/a.js" "**/*.js" = Ret true /\
  Nano.matchPattern "src/lib/a.js" "**/*.js" = Ret false.
Proof. repeat split; reflexivity. Qed.

(** *** The two variants *)

Lemma no_deep_tokens (p : string) :
  includes p "**" = false -> no_deep (tokens p) = true.
Proof.
  induction p as [|r IH|r Hr IH|c r Hc IH] using pattern_ind; intros H.
  - reflexivity.
  - apply includes_false in H as [H _]. discriminate H.
  - apply includes_false in H as [_ H].
    rewrite tokens_star by exact Hr. cbn [no_deep]. now apply IH.
  - apply includes_false in H as [_ H].
    rewrite tokens_other by exact Hc.
    destruct (classify_cases c Hc) as [[_ ->]|[[_ ->]|[_ ->]]];
      cbn [no_deep]; now apply IH.
Qed.

Ltac shallow_cases ts IH H Hd :=
  induction ts as [|t ts IH]; intros H Hd; [exact I|];
  cbn [well_formed] in H; apply andb_true_iff in H as [Ht H];
  assert (Hd' : no_deep ts = true) by (destruct t; try discriminate Hd; exact Hd);
  split; [|now apply IH]; clear IH.

Lemma nano_step2_ok (ts : list gtoken) :
  well_formed ts = true -> no_deep ts = true ->
  steps_ok "**" ".*" "*" stage1 nano2 ts.
Proof.
  induction ts as [|t ts IH]; intros H Hd; [exact I|].
  pose proof (proj2 (step2_ok (t :: ts) H)) as Hrest.
  destruct (step2_ok (t :: ts) H) as [Ht _].
  cbn [well_formed] in H; apply andb_true_iff in H as [_ H].
  assert (Hd' : no_deep ts = true) by (destruct t; try discriminate Hd; exact Hd).
  split; [|now apply IH].
  destruct t; try discriminate Hd;
    (destruct Ht as [[Hb _]|(_ & Hs & Hf)]; [discriminate Hb|]; right; now repeat split).
Qed.

Lemma nano_step3_ok (ts : list gtoken) :
  well_formed ts = true -> no_deep ts = true ->
  steps_ok "*" "[^/]*" "*" nano2 nano3 ts.
Proof.
  shallow_cases ts IH H Hd.
  destruct t as [|c| | |]; try discriminate Hd.
  - right. repeat split.
  - right. apply negb_true_iff, special_false in Ht as (_ & Hs & _).
    repeat split. cbn [nano2 stage1 source_text str1 append starts_with]. now rewrite Hs.
  - right. repeat split.
  - left. split; reflexivity.
Qed.

Lemma nano_step5_ok (ts : list gtoken) :
  well_formed ts = true -> no_deep ts = true ->
  steps_ok "?" "." "?" nano3 image ts.
Proof.
  shallow_cases ts IH H Hd.
  destruct t as [|c| | |]; try discriminate Hd.
  - right. repeat split.
  - right. apply negb_true_iff, special_false in Ht as (_ & _ & Hq).
    repeat split. cbn [nano3 nano2 stage1 source_text str1 append starts_with].
    now rewrite Hq.
  - left. split; reflexivity.
  - right. repeat split.
Qed.

Lemma Nano_regexPattern_tokens (p : string) :
  includes p "**" = false ->
  Nano.regexPattern p = glue (map image (tokens p)).
Proof.
  intros Hp. unfold Nano.regexPattern.
  pose proof (tokens_well_formed p) as Hwf.
  pose proof (no_deep_tokens p Hp) as Hd.
  pose proof (replace_tokens EmptyString "\." "." source_text stage1 _ (step1_ok _ Hwf)) as E1.
  pose proof (replace_tokens "*" ".*" "*" stage1 nano2 _ (nano_step2_ok _ Hwf Hd)) as E2.
  pose proof (replace_tokens EmptyString "[^/]*" "*" nano2 nano3 _ (nano_step3_ok _ Hwf Hd)) as E3.
  pose proof (replace_tokens EmptyString "." "?" nano3 image _ (nano_step5_ok _ Hwf Hd)) as E5.
  rewrite (tokens_source p) in E1.
  now rewrite E1, E2, E3, E5.
Qed.

(** X1.  Where the pattern has no [**] (and the placeholder does not begin
    in it), the two variants of [matchPattern] do the same. *)
Theorem matchPattern_variants_agree_without_deep_star :
  forall pattern filepath : string,
    includes pattern "**" = false ->
    includes pattern "__DOUBLE_STAR" = false ->
    Nano.matchPattern filepath pattern = matchPattern filepath pattern.
Proof.
  intros pattern filepath Hdeep Hplace.
  unfold Nano.matchPattern, matchPattern.
  now rewrite (Nano_regexPattern_tokens pattern Hdeep),
    (regexPattern_tokens pattern Hplace).
Qed.

Lemma matchPattern_variants_agree_without_deep_star_witness :
  Nano.matchPattern "src/a.test.js" "src/*.js" = matchPattern "src/a.test.js" "src/*.js".
Proof.
  apply (@matchPattern_variants_agree_without_deep_star "src/*.js" "src/a.test.js");
    reflexivity.
Defined.

(* ================================================================= *)
(** * Further properties of the tools *)

(** ** The assembler and the cuts of the stream *)

Lemma merge_fragment_cut (arr : JSArray ToolCall) (i : Z) (id id' : option string)
  (n1 n2 a1 a2 : string) :
  merge_fragment (merge_fragment arr (mkFragment i id (Some n1) (Some a1)))
                 (mkFragment i id' (Some n2) (Some a2))
  = merge_fragment arr (mkFragment i id (Some (n1 ++ n2)) (Some (a1 ++ a2))).
Proof.
  rewrite !merge_fragment_set. cbn [fr_index].
  rewrite js_get_set_same, js_set_set. f_equal.
  destruct (js_get arr i) as [acc|]; unfold merged; cbn;
    now rewrite ?append_assoc.
Qed.

(** X4.  Where the stream cuts a tool call does not matter: a fragment that
    arrives whole, and the same fragment cut in two pieces of which the
    first ends one chunk and the second begins the next, give the same
    text and the same tool calls.  The id of the second piece is
    ignored. *)
Theorem assemble_ignores_where_a_call_is_cut :
  forall (chunks1 chunks2 : list Delta) (content : option string)
         (frs1 frs2 : list Fragment) (i : Z) (id id' : option string)
         (n1 n2 a1 a2 : string),
    assemble
      (chunks1
       ++ [mkDelta content
             (Some (frs1 ++ mkFragment i id (Some (n1 ++ n2)%string)
                                (Some (a1 ++ a2)%string) :: frs2))]
       ++ chunks2)%list
    = assemble
        (chunks1
         ++ [mkDelta content (Some (frs1 ++ [mkFragment i id (Some n1) (Some a1)]));
             mkDelta None (Some (mkFragment i id' (Some n2) (Some a2) :: frs2))]
         ++ chunks2)%list.
Proof.
  intros. unfold assemble. rewrite !fold_left_app. f_equal.
  destruct (fold_left on_chunk chunks1 _) as [text arr].
  cbn [fold_left app on_chunk d_content d_tool_calls append_truthy].
  do 2 f_equal.
  rewrite !fold_left_app. cbn [fold_left]. now rewrite merge_fragment_cut.
Qed.

(* ================================================================= *)
(** ** escapeRegExp *)

Lemma search_literal (old : string) :
  forall s at0, search (literal old) at0 s = includes s old.
Proof.
  induction s as [|c s IH]; intros at0.
  - cbn [search]. rewrite match_here_literal, includes_unfold.
    destruct (starts_with old EmptyString); reflexivity.
  - cbn [search]. rewrite match_here_literal, includes_unfold.
    destruct (starts_with old (String c s)); [reflexivity | apply IH].
Qed.

(** X10.  The regular expression made from an escaped text is always
    accepted, and it matches a string exactly when the text itself
    occurs in the string, whatever syntax characters the text holds. *)
Theorem escapeRegExp_matches_the_text_itself :
  forall s t : string, RegExp_test (escapeRegExp s) t = Ret (includes t s).
Proof.
  intros s t. unfold RegExp_test. rewrite RegExp_new_escapeRegExp.
  unfold test. now rewrite search_literal.
Qed.

(* ================================================================= *)
(** ** edit with all=true *)

Lemma join_cons (sep x y : string) (l : list string) :
  join sep (x :: y :: l) = x ++ sep ++ join sep (y :: l).
Proof. reflexivity. Qed.








(* ================================================================= *)
(** ** bash and diff *)

Lemma trimEnd_idem (s : string) : trimEnd (trimEnd s) = trimEnd s.
Proof.
  induction s as [|c s IH]; [reflexivity|].
  cbn [trimEnd]. destruct (trimEnd s) as [|d t] eqn:E.
  - destruct (is_space c) eqn:Hc; [reflexivity|]. simpl. now rewrite Hc.
  - cbn [trimEnd]. cbn [trimEnd] in IH. now rewrite IH.
Qed.

Lemma trimEnd_head (c : ascii) (r : string) :
  is_space c = false -> exists r', trimEnd (String c r) = String c r'.
Proof.
  intros Hc. cbn [trimEnd]. destruct (trimEnd r) as [|d t].
  - rewrite Hc. now exists EmptyString.
  - now exists (String d t).
Qed.

Lemma trimStart_head (s : string) :
  trimStart s = EmptyString \/
  exists c r, trimStart s = String c r /\ is_space c = false.
Proof.
  induction s as [|c s IH]; [now left|].
  cbn [trimStart]. destruct (is_space c) eqn:Hc; [exact IH|].
  right. now exists c, s.
Qed.

Lemma trim_idem (s : string) : trim (trim s) = trim s.
Proof.
  unfold trim. destruct (trimStart_head s) as [->|(c & r & -> & Hc)]; [reflexivity|].
  destruct (@trimEnd_head c r Hc) as [r' E]. rewrite E.
  cbn [trimStart]. rewrite Hc, <- E. apply trimEnd_idem.
Qed.

Lemma or_empty_trim (s : string) :
  or_empty (trim s) <> EmptyString /\ trim (or_empty (trim s)) = or_empty (trim s).
Proof.
  destruct (trim s) as [|c t] eqn:E.
  - split; [discriminate | reflexivity].
  - cbn [or_empty]. split; [discriminate|]. rewrite <- E. apply trim_idem.
Qed.

(** X17.  [bash] never throws, whatever the command that [execSync] ran
    has done: it returns what the command printed (on failure, what it
    had printed on both streams), without surrounding white space, and
    never an empty text.  Only where no shell could be started, so that
    the error of [execSync] carries no output, does [bash] throw: its
    [catch] block cannot trim a number. *)
Theorem bash_output_is_trimmed_and_never_empty :
  forall (execSync : string -> FS -> exec * FS)
         (args : Args) (fs : FS) (cmd : string),
    a_cmd args = Some cmd ->
    match fst (execSync cmd fs) with
    | Unstarted _ => bash execSync args fs = (Throw no_trim, snd (execSync cmd fs))
    | ran =>
        exists out : string,
          bash execSync args fs = (Ret out, snd (execSync cmd fs)) /\
          out <> EmptyString /\
          trim out = out /\
          (out = "(empty)" \/
           out = match ran with
                 | Exited stdout => trim stdout
                 | Failed _ stdout stderr => trim (stdout ++ stderr)
                 | Unstarted _ => EmptyString
                 end)
    end.
Proof.
  intros execSync args fs cmd Hcmd. unfold bash. rewrite Hcmd.
  destruct (execSync cmd fs) as [[stdout|message stdout stderr|message] fs'];
    cbn [fst snd].
  - exists (or_empty (trim stdout)). split; [reflexivity|].
    destruct (or_empty_trim stdout) as [H1 H2]. repeat split; try assumption.
    destruct (trim stdout); [now left | now right].
  - exists (or_empty (trim (stdout ++ stderr))). split; [reflexivity|].
    destruct (or_empty_trim (stdout ++ stderr)) as [H1 H2].
    repeat split; try assumption.
    destruct (trim (stdout ++ stderr)); [now left | now right].
  - reflexivity.
Qed.

Lemma bash_output_is_trimmed_and_never_empty_witness :
  exists out : string,
    bash echo_shell (mkArgs None None None None None None None None (Some "ls")) project
    = (Ret out, project) /\
    out <> EmptyString /\
    trim out = out /\
    (out = "(empty)" \/ out = "ls").
Proof.
  apply (@bash_output_is_trimmed_and_never_empty echo_shell
           (mkArgs None None None None None None None None (Some "ls")) project "ls").
  reflexivity.
Defined.

(** Where no shell can be started, the dispatcher turns what [bash]
    throws into an error text. *)
Example bash_without_a_shell :
  runTool no_shell no_RegExp no_conversion "bash" (JObj [("cmd", JStr "ls")]) project
  = (Ret ("error: " ++ no_trim), project).
Proof. reflexivity. Qed.

(** [diff] is [bash] on [git diff] followed by the path, or by nothing
    when the path is absent or empty: its text is never empty and has
    no surrounding white space. *)
Remark diff_output_is_trimmed_and_never_empty :
  forall (execSync : string -> FS -> exec * FS) (args : Args) (fs : FS),
    (forall message,
        fst (execSync ("git diff " ++ or_str (a_path args) EmptyString) fs)
        <> Unstarted message) ->
    exists out : string,
      diff execSync args fs
      = (Ret out, snd (execSync ("git diff " ++ or_str (a_path args) EmptyString) fs)) /\
      out <> EmptyString /\
      trim out = out.
Proof.
  intros execSync args fs Hran. unfold diff, bash. cbn [a_cmd].
  destruct (execSync ("git diff " ++ or_str (a_path args) EmptyString) fs)
    as [[stdout|message stdout stderr|message] fs']; cbn [fst snd] in *.
  - exists (or_empty (trim stdout)). split; [reflexivity | apply or_empty_trim].
  - exists (or_empty (trim (stdout ++ stderr))).
    split; [reflexivity | apply or_empty_trim].
  - now elim (Hran message).
Qed.

(* ================================================================= *)
(** ** Patterns that are no regular expressions *)

Lemma accepts_invalid (pattern why : string) (fo : found) :
  RegExp_new ("^" ++ regexPattern pattern ++ "$") = SyntaxError why ->
  accepts_by fragment_RegExp (Some pattern) fo = false.
Proof.
  intros H. unfold accepts_by, fragment_RegExp. now rewrite H.
Qed.

Lemma filter_none (A : Type) (f : A -> bool) (l : list A) :
  (forall x, f x = false) -> filter f l = [].
Proof.
  intros H. induction l as [|x l IH]; [reflexivity|]. simpl. now rewrite H.
Qed.

(** X18.  A glob pattern whose translation is no regular expression makes
    [glob] return [none]: the error is thrown, and caught, once for each
    file of the walk, and nothing tells the caller that the pattern was
    at fault. *)
Theorem glob_hides_an_invalid_pattern :
  forall (fs : FS) (args : Args) (pattern why : string),
    a_pat args = Some pattern ->
    RegExp_new ("^" ++ regexPattern pattern ++ "$") = SyntaxError why ->
    glob args fs = (Ret "none", fs).
Proof.
  intros fs args pattern why Hpat Hbad.
  unfold glob. rewrite glob_by_sorted, Hpat.
  - rewrite filter_none by (intros fo; now apply accepts_invalid with (why := why)).
    reflexivity.
  - rewrite Hpat. unfold completes, fragment_RegExp. now rewrite Hbad.
Qed.

Lemma glob_hides_an_invalid_pattern_witness :
  glob (search_args "+" None) project = (Ret "none", project).
Proof.
  apply (@glob_hides_an_invalid_pattern project (search_args "+" None) "+"
           "Nothing to repeat"); reflexivity.
Defined.

(** X19.  [grep] builds its regular expression before the walk and outside
    any [try] of its own: a pattern that [RegExp] refuses comes back
    from the dispatcher as an error text, and the disk is not touched. *)
Theorem grep_reports_an_invalid_pattern :
  forall (execSync : string -> FS -> exec * FS)
         (RegExp : string -> outcome (string -> bool))
         (converts : string -> JSON -> FS -> completion * FS)
         (fs : FS) (input : JSON) (args : Args) (pat message : string),
    args_of input = Some args ->
    a_pat args = Some pat ->
    RegExp pat = Throw message ->
    runTool execSync RegExp converts "grep" input fs
    = (Ret ("error: " ++ message), fs).
Proof.
  intros execSync RegExp converts fs input args pat message Hargs Hpat Hbad.
  unfold runTool, call_tool. cbn [lookup TOOLS String.eqb Ascii.eqb Bool.eqb].
  rewrite Hargs. unfold grep. rewrite Hpat, Hbad.
  destruct input; [discriminate | reflexivity..].
Qed.

Lemma grep_reports_an_invalid_pattern_witness :
  runTool no_shell fragment_RegExp no_conversion "grep" (JObj [("pat", JStr "+")])
    project
  = (Ret "error: Invalid regular expression: /+/: Nothing to repeat", project).
Proof.
  apply (@grep_reports_an_invalid_pattern no_shell fragment_RegExp no_conversion project
           (JObj [("pat", JStr "+")]) (search_args "+" None) "+"
           "Invalid regular expression: /+/: Nothing to repeat");
    reflexivity.
Defined.

(** X20.  A base path that leads to no directory that can be listed -- a path
    to nothing, to a file, or to a directory without permission --
    is no error: [glob] and [grep] both return [none]. *)
Theorem search_below_no_directory_finds_nothing :
  forall (RegExp : string -> outcome (string -> bool))
         (fs : FS) (args : Args) (pat : string) (pattern : string -> bool),
    a_pat args = Some pat ->
    RegExp pat = Ret pattern ->
    lists fs (or_str (a_path args) ".") = false ->
    glob args fs = (Ret "none", fs) /\
    grep RegExp args fs = (Ret "none", fs).
Proof.
  intros RegExp fs args pat pattern Hpat Hre Hbase.
  unfold glob, glob_by, grep, lists, node_or_missing in *. rewrite Hpat, Hre.
  destruct (node_at fs (or_str (a_path args) ".")) as [[| | | |]|];
    try discriminate; split; reflexivity.
Qed.

Lemma search_below_no_directory_finds_nothing_witness :
  glob (search_args "l" (Some "a.txt")) project = (Ret "none", project) /\
  grep fragment_RegExp (search_args "l" (Some "a.txt")) project = (Ret "none", project).
Proof.
  apply (@search_below_no_directory_finds_nothing fragment_RegExp project
           (search_args "l" (Some "a.txt")) "l" (test [TAtom (AChar "l") QOne]));
    reflexivity.
Defined.

(* ================================================================= *)
(** ** The text of a reply *)

Lemma on_chunk_content (chunks : list Delta) :
  forall text arr,
    fst (fold_left on_chunk chunks (text, arr))
    = text ++ glue (map (fun d => text_of (d_content d)) chunks).
Proof.
  induction chunks as [|d chunks IH]; intros text arr.
  - simpl. now rewrite append_empty_r.
  - cbn [fold_left on_chunk]. rewrite IH, append_truthy_text.
    cbn [map]. change (glue (?x :: ?l)) with (x ++ glue l).
    now rewrite append_assoc.
Qed.

(** X5.  The text of the assistant message is the text of the content
    deltas of the stream, one after the other; a chunk without content
    adds nothing. *)
Theorem assemble_concatenates_the_content :
  forall chunks : list Delta,
    fst (assemble chunks) = glue (map (fun d => text_of (d_content d)) chunks).
Proof.
  intros chunks. unfold assemble.
  pose proof (on_chunk_content chunks EmptyString (mkJSArray [] [])) as H.
  destruct (fold_left on_chunk chunks _) as [text arr].
  exact H.
Qed.

(* ================================================================= *)
(** ** edit and the inverse edit; edit with an empty text to replace *)




Lemma disjoint_go_empty (s : string) :
  disjoint_go EmptyString 0 s = S (String.length s).
Proof.
  induction s as [|c s IH]; [reflexivity|].
  cbn [disjoint_go starts_with String.length Nat.sub]. now rewrite IH.
Qed.

(** X30.  The empty text cannot be replaced in a file that is not empty: it
    is found once in front of every character and once at the end, so
    without [all] the edit is refused as ambiguous, with a count that is
    the length of the file plus one, and nothing is written. *)
Theorem edit_refuses_an_empty_old_text :
  forall (fs : FS) (args : Args) (p text new : string),
    a_path args = Some p ->
    a_old args = Some EmptyString ->
    a_new args = Some new ->
    truthy (a_all args) = false ->
    readFileSync fs p = Ret text ->
    text <> EmptyString ->
    edit args fs = (Ret (appears (S (String.length text))), fs).
Proof.
  intros fs args p text new Hpath Hold Hnew Hall Hread Hne.
  rewrite (edit_given fs args Hpath Hold Hnew Hread).
  rewrite includes_unfold. cbn [starts_with orb negb].
  rewrite RegExp_new_escapeRegExp, match_count_literal, Hall.
  unfold disjoint_occurrences. rewrite disjoint_go_empty. cbn [negb andb].
  destruct text as [|c text]; [congruence | reflexivity].
Qed.

Lemma edit_refuses_an_empty_old_text_witness :
  edit (edit_args "src/c.txt" EmptyString "x" None) project
  = (Ret (appears (S (String.length "aaa"))), project).
Proof.
  apply (@edit_refuses_an_empty_old_text project
           (edit_args "src/c.txt" EmptyString "x" None) "src/c.txt" "aaa" "x");
    try reflexivity. discriminate.
Defined.

(* ================================================================= *)
(** ** write, and what it leaves alone *)

(** Where [writeFileSync] succeeds, the path ends in a name that is put
    into an existing directory, in the place of a file or of nothing. *)
Lemma written_located (fs fs' : FS) (p content : string) :
  writeFileSync fs p content = Ret fs' ->
  exists pos es name,
    p <> EmptyString /\
    name = last (split "/" p) EmptyString /\
    canon (root fs) (start_of fs p) (removelast (split "/" p)) = Some pos /\
    canon (root fs) (start_of fs p) (split "/" p) = Some (name :: pos) /\
    get (root fs) (rev pos) = Some (Dir es) /\
    match lookup name es with
    | None | Some (File _ _) => True
    | _ => False
    end /\
    fs' = mkFS (put (root fs) (rev pos) name (File content (now fs))) (cwd fs) (now fs).
Proof.
  unfold writeFileSync. intros H.
  destruct p as [|c0 p0]; [discriminate|]. cbv beta iota zeta in H.
  set (p := String c0 p0) in *.
  assert (Hne : split "/" p <> []) by apply split_go_nonempty.
  pose proof (app_removelast_last EmptyString Hne) as Hsegs.
  set (front := removelast (split "/" p)) in *.
  set (name := last (split "/" p) EmptyString) in *.
  destruct (canon (root fs) (start_of fs p) front) as [pos|] eqn:Hfront;
    [|discriminate].
  destruct (get (root fs) (rev pos)) as [[| |es| |]|] eqn:Hdir; try discriminate.
  destruct (is_dot name) eqn:Hdot; [discriminate|].
  destruct (String.eqb name "..") eqn:Hup; [discriminate|].
  cbn [orb] in H.
  exists pos, es, name. split; [discriminate|]. split; [reflexivity|].
  split; [first [reflexivity | exact Hfront]|]. split.
  { rewrite Hsegs, canon_app, Hfront. simpl. now rewrite Hdir, Hdot, Hup. }
  split; [first [reflexivity | exact Hdir]|].
  destruct (lookup name es) as [[| | | |]|]; try discriminate;
    (split; [exact I | now injection H as <-]).
Qed.

(** A write changes no step of any path: the directories are where
    they were. *)
Lemma written_canon (fs fs' : FS) (p content : string) :
  writeFileSync fs p content = Ret fs' ->
  cwd fs' = cwd fs /\
  forall segs pos, canon (root fs') pos segs = canon (root fs) pos segs.
Proof.
  intros H.
  destruct (@written_located _ _ _ _ H) as (pos & es & name & _ & _ & _ & _ & Hdir & Hold & ->).
  split; [reflexivity|]. cbn [root].
  apply canon_dir_at. intros path. now apply dir_at_put with (es := es).
Qed.

(** What is found at another place than the one written to is what was
    there before, or a directory as before. *)
Lemma get_put_frame (name content : string) (mtime : Z) (dir : list string) :
  forall n es path,
    get n dir = Some (Dir es) ->
    match lookup name es with
    | None | Some (File _ _) => True
    | _ => False
    end ->
    path <> (dir ++ [name])%list ->
    get (put n dir name (File content mtime)) path = get n path \/
    exists es1 es2,
      get (put n dir name (File content mtime)) path = Some (Dir es1) /\
      get n path = Some (Dir es2).
Proof.
  induction dir as [|d dir IH]; intros n es path H Hold Hpath; simpl in *.
  - injection H as ->. destruct path as [|x path]; [right; now eexists; eexists|].
    left. simpl. rewrite lookup_set_entry.
    destruct (String.eqb_spec x name) as [->|Hx]; [|reflexivity].
    destruct path as [|y path]; [congruence|].
    destruct (lookup name es) as [[| | | |]|]; try contradiction; reflexivity.
  - destruct n as [| |fs0| |]; try discriminate.
    destruct path as [|x path]; [right; now eexists; eexists|].
    simpl. rewrite lookup_map_entry.
    destruct (String.eqb_spec x d) as [->|Hx]; [|now left].
    destruct (lookup d fs0) as [child|]; [|discriminate]. simpl.
    apply (IH child es path H Hold). congruence.
Qed.




Lemma route_head (top : node) (pos segs : list string) :
  In (rev pos) (route top pos segs).
Proof. destruct segs; now left. Qed.

(** A walk that can be made to its end ends at the last place of its
    route. *)
Lemma canon_on_route (top : node) (segs : list string) :
  forall pos final,
    canon top pos segs = Some final -> In (rev final) (route top pos segs).
Proof.
  induction segs as [|s segs IH]; intros pos final H; simpl in *.
  - injection H as <-. now left.
  - right. destruct (get top (rev pos)) as [[| |es| |]|]; try discriminate.
    destruct (is_dot s); [now apply IH|].
    destruct (String.eqb s ".."); now apply IH.
Qed.

Section Frame.

Variables (top : node) (dir : list string) (es : list (string * node)).
Variables (name content : string) (mtime : Z).
Hypothesis Hdir : get top dir = Some (Dir es).
Hypothesis Hold :
  match lookup name es with
  | None | Some (File _ _) => True
  | _ => False
  end.

(** Where a walk stops, and why, is not changed by a write at a place
    that the walk does not come by. *)
Lemma canon_error_frame (syscall p : string) (segs : list string) :
  forall pos,
    ~ In (dir ++ [name])%list (route top pos segs) ->
    canon_error (put top dir name (File content mtime)) pos segs syscall p
    = canon_error top pos segs syscall p.
Proof.
  induction segs as [|s segs IH]; intros pos Hout; [reflexivity|].
  cbn [canon_error route] in *.
  assert (Hne : rev pos <> (dir ++ [name])%list) by (intros E; apply Hout; now left).
  assert (Hrest : forall pos',
    (exists es0, get top (rev pos) = Some (Dir es0)) ->
    (if is_dot s then route top pos segs
     else if String.eqb s ".." then route top (tl pos) segs
     else route top (s :: pos) segs) = route top pos' segs ->
    ~ In (dir ++ [name])%list (route top pos' segs)).
  { intros pos' [es0 Hd] E Hin. apply Hout. right. rewrite Hd, E. exact Hin. }
  destruct (@get_put_frame name content mtime dir top es (rev pos) Hdir Hold Hne)
    as [->|(es1 & es2 & -> & Hget)].
  - destruct (get top (rev pos)) as [[| |es0| |]|] eqn:Hd; try reflexivity.
    destruct (is_dot s); [apply IH; apply Hrest; eauto|].
    destruct (String.eqb s ".."); apply IH; apply Hrest; eauto.
  - rewrite Hget.
    destruct (is_dot s); [apply IH; apply Hrest; eauto|].
    destruct (String.eqb s ".."); apply IH; apply Hrest; eauto.
Qed.

End Frame.

(** X13.  A [write] that returned [ok] has changed what can be read at one
    place only: a path that does not come by the place written reads as
    it did before -- the same text, or the same error. *)
Theorem write_leaves_other_files_alone :
  forall (fs fs' : FS) (args : Args) (p content q : string) (place : list string),
    a_path args = Some p ->
    a_content args = Some content ->
    write args fs = (Ret "ok", fs') ->
    locate fs p = Some place ->
    ~ In place (passes fs q) ->
    readFileSync fs' q = readFileSync fs q.
Proof.
  intros fs fs' args p content q place Hpath Hcontent Hwrite Hplace Hother.
  unfold write in Hwrite. rewrite Hpath, Hcontent in Hwrite.
  destruct (writeFileSync fs p content) as [fs1| |] eqn:Hw; try discriminate.
  injection Hwrite as <-.
  destruct (@written_canon _ _ _ _ Hw) as [Hcwd Hcanon].
  destruct (@written_located _ _ _ _ Hw)
    as (pos & es & name & Hp & _ & _ & Hfull & Hdir & Hold & Hfs).
  assert (Hp' : place = (rev pos ++ [name])%list).
  { unfold locate in Hplace. destruct p; [congruence|].
    rewrite Hfull in Hplace. cbn in Hplace. congruence. }
  subst place.
  unfold readFileSync, node_at, open_error. unfold passes in Hother.
  destruct q as [|c0 q0]; [reflexivity|]. cbv beta iota in *.
  set (q := String c0 q0) in *.
  replace (start_of fs1 q) with (start_of fs q)
    by (unfold start_of; now rewrite Hcwd).
  rewrite Hcanon.
  destruct (canon (root fs) (start_of fs q) (split "/" q)) as [qpos|] eqn:Hq.
  - assert (Hne : rev qpos <> (rev pos ++ [name])%list).
    { intros E. apply Hother. rewrite <- E. now apply canon_on_route. }
    subst fs1. cbn [root].
    destruct (@get_put_frame name content (now fs) (rev pos) (root fs) es (rev qpos)
                Hdir Hold Hne) as [->|(es1 & es2 & -> & ->)]; reflexivity.
  - subst fs1. cbn [root].
    now rewrite (@canon_error_frame (root fs) (rev pos) es name content (now fs)
                   Hdir Hold "open" q (split "/" q) (start_of fs q) Hother).
Qed.

Lemma write_leaves_other_files_alone_witness :
  readFileSync
    (mkFS (Dir [("work",
                 Dir [ ("a.txt", File "new" 1000);
                       ("src", Dir [ ("b.js", File "let x = 1" 7);
                                     ("c.txt", File "aaa" 9);
                                     ("d.txt", Locked 8) ]);
                       ("price.txt", File "total = X" 3);
                       ("z.txt", File "z" 9) ])])
          ["work"] 1000)
    "src/../z.txt"
  = readFileSync project "src/../z.txt".
Proof.
  apply (@write_leaves_other_files_alone project _
           (mkArgs (Some "a.txt") None None (Some "new") None None None None None)
           "a.txt" "new" "src/../z.txt" ["work"; "a.txt"]); try reflexivity.
  vm_compute. intuition discriminate.
Defined.

(** A path that comes by the place written may read otherwise than
    before: below a name that was not there, nothing was found; below
    the file that is there now, nothing can be. *)
Example write_changes_the_error_below :
  readFileSync empty_disk "a.txt/x" = Throw (ENOENT "open" "a.txt/x") /\
  fst (write (mkArgs (Some "a.txt") None None (Some "new") None None None None None)
         empty_disk) = Ret "ok" /\
  readFileSync
    (snd (write (mkArgs (Some "a.txt") None None (Some "new") None None None None None)
            empty_disk)) "a.txt/x"
  = Throw (ENOTDIR "open" "a.txt/x").
Proof. repeat split; reflexivity. Qed.

(* ================================================================= *)
(** ** read beyond the last line *)

(** X16.  An offset at or beyond the number of lines is no error: [read]
    returns the empty text, whatever the limit. *)
Theorem read_past_the_end_is_empty :
  forall (fs : FS) (args : Args) (p text : string),
    a_path args = Some p ->
    readFileSync fs p = Ret text ->
    (Z.of_nat (List.length (split NL text)) <= or_int (a_offset args) 0)%Z ->
    read args fs = (Ret EmptyString, fs).
Proof.
  intros fs args p text Hpath Hread Hpast.
  unfold read. rewrite Hpath, Hread. cbv zeta.
  set (lines := split NL text) in *.
  set (o := or_int (a_offset args) 0) in *.
  unfold slice.
  replace (clamp_index (Z.of_nat (List.length lines)) o)
    with (Z.of_nat (List.length lines)).
  - rewrite Nat2Z.id, skipn_all. now rewrite firstn_nil.
  - unfold clamp_index. destruct (Z.ltb_spec o 0); lia.
Qed.

Lemma read_past_the_end_is_empty_witness :
  read (read_args "a.txt" (Some 3%Z) (Some 2%Z)) project = (Ret EmptyString, project).
Proof.
  apply (@read_past_the_end_is_empty project (read_args "a.txt" (Some 3%Z) (Some 2%Z))
           "a.txt" poem); [reflexivity | reflexivity | vm_compute; discriminate].
Defined.

(* ================================================================= *)
(** ** What the file tools do to the disk *)

Section Disk.

Variable execSync : string -> FS -> exec * FS.
Variable RegExp : string -> outcome (string -> bool).
Variable converts : string -> JSON -> FS -> completion * FS.











End Disk.


(* ================================================================= *)
(** ** glob among files of one age *)

Lemma insert_sorted_of_age (t : Z) (x : found) (xs : list found) :
  filter (of_age t) (insert_sorted by_mtime x xs) = filter (of_age t) (x :: xs).
Proof.
  induction xs as [|y ys IH]; [reflexivity|].
  cbn [insert_sorted]. unfold by_mtime at 1.
  destruct (Z.ltb_spec 0 (f_mtime y - f_mtime x)) as [Hlt|Hge]; [|reflexivity].
  cbn [filter] in *. rewrite IH. unfold of_age.
  destruct (Z.eqb_spec (f_mtime x) t) as [Hx|Hx],
           (Z.eqb_spec (f_mtime y) t) as [Hy|Hy]; try reflexivity.
  lia.
Qed.

Lemma Array_sort_of_age (t : Z) (xs : list found) :
  filter (of_age t) (Array_sort by_mtime xs) = filter (of_age t) xs.
Proof.
  induction xs as [|x xs IH]; [reflexivity|].
  cbn [Array_sort fold_right]. fold (Array_sort by_mtime xs).
  rewrite insert_sorted_of_age. cbn [filter]. now rewrite IH.
Qed.

(** X21.  Among files with the same modification time, [glob] keeps the
    order of the walk: the sort only moves a newer file in front of an
    older one.  So the answer of [glob] is determined by the disk. *)
Theorem glob_keeps_walk_order_among_files_of_one_age :
  forall (engine : string -> regexp) (fs : FS) (args : Args),
    exists results : list found,
      glob_by (RegExp_of engine) args fs
      = (Ret (or_none (join NL (map f_path results))), fs) /\
      forall t : Z,
        filter (of_age t) results
        = filter (of_age t)
            (filter (accepts_by (RegExp_of engine) (a_pat args))
                    (candidates fs (or_str (a_path args) "."))).
Proof.
  intros engine fs args.
  exists (Array_sort by_mtime
            (filter (accepts_by (RegExp_of engine) (a_pat args))
                    (candidates fs (or_str (a_path args) ".")))).
  split.
  - apply glob_by_sorted, completes_engine.
  - intros t. apply Array_sort_of_age.
Qed.

Lemma glob_keeps_walk_order_among_files_of_one_age_witness :
  exists results : list found,
    glob_by (RegExp_of small_engine) (search_args "**" None) project
    = (Ret (or_none (join NL (map f_path results))), project) /\
    forall t : Z,
      filter (of_age t) results
      = filter (of_age t)
          (filter (accepts_by (RegExp_of small_engine) (Some "**"))
                  (candidates project ".")).
Proof.
  exact (glob_keeps_walk_order_among_files_of_one_age small_engine project
           (search_args "**" None)).
Defined.

(** Of the files of [project], [src/c.txt] and [z.txt] have the same
    age: the walk meets [src/c.txt] first, and so does the answer. *)
Example glob_among_files_of_one_age :
  glob_by (RegExp_of small_engine) (search_args "**" None) project
  = (Ret ("src/c.txt" ++ NL ++ "z.txt" ++ NL ++ "src/d.txt" ++ NL ++ "src/b.js"
            ++ NL ++ "a.txt" ++ NL ++ "price.txt"), project).
Proof. reflexivity. Qed.

(* ================================================================= *)
(** * The console, the schemas and the loop *)

(** ** renderMarkdown *)

Lemma renderMarkdown_go_skip :
  forall s k, k <= String.length s ->
              renderMarkdown_go k s = renderMarkdown_go 0 (drop k s).
Proof.
  induction s as [|c s IH]; intros k Hk.
  - destruct k; [reflexivity | simpl in Hk; lia].
  - destruct k as [|k]; [reflexivity|].
    cbn [renderMarkdown_go drop]. apply IH. simpl in Hk. lia.
Qed.

Lemma renderMarkdown_go_here (c : ascii) (s' : string) :
  renderMarkdown_go 0 (String c s')
  = if starts_with "**" (String c s')
    then match lazy_group (drop 2 (String c s')) with
         | Some (g, rest) =>
             BOLD ++ g ++ RESET
               ++ renderMarkdown_go
                    (String.length (String c s') - String.length rest - 1) s'
         | None => String c (renderMarkdown_go 0 s')
         end
    else String c (renderMarkdown_go 0 s').
Proof. reflexivity. Qed.

Lemma includes_tail (c : ascii) (s w : string) :
  includes (String c s) w = false ->
  starts_with w (String c s) = false /\ includes s w = false.
Proof. rewrite includes_unfold. apply orb_false_iff. Qed.

(** X25.  A text in which no two stars stand side by side is printed as it
    is. *)
Theorem renderMarkdown_keeps_text_without_double_star :
  forall text : string,
    includes text "**" = false -> renderMarkdown text = text.
Proof.
  unfold renderMarkdown. induction text as [|c text IH]; intros H; [reflexivity|].
  apply includes_tail in H as [Hhere Hlater].
  rewrite renderMarkdown_go_here, Hhere. now rewrite IH.
Qed.

Lemma renderMarkdown_keeps_text_without_double_star_witness :
  renderMarkdown "2 * 3 * 4" = "2 * 3 * 4".
Proof.
  apply (@renderMarkdown_keeps_text_without_double_star "2 * 3 * 4"). reflexivity.
Defined.

Lemma lazy_group_span (after : string) :
  forall w,
    w <> EmptyString ->
    all_chars span_char w = true ->
    lazy_group (w ++ "**" ++ after) = Some (w, after).
Proof.
  induction w as [|c w IH]; intros Hne Hw; [congruence|].
  cbn [all_chars] in Hw. apply andb_true_iff in Hw as [Hc Hw].
  unfold span_char in Hc. apply andb_true_iff in Hc as [_ Hline].
  unfold not_newline in Hline. apply negb_true_iff in Hline.
  change (String c w ++ "**" ++ after) with (String c (w ++ "**" ++ after)).
  cbn [lazy_group]. rewrite Hline.
  destruct w as [|d w]; [reflexivity|].
  assert (Hd : Ascii.eqb "*" d = false).
  { cbn [all_chars] in Hw. apply andb_true_iff in Hw as [Hd _].
    unfold span_char, not_star in Hd. apply andb_true_iff in Hd as [Hd _].
    apply negb_true_iff in Hd. now rewrite Ascii.eqb_sym. }
  change (String d w ++ "**" ++ after) with (String d (w ++ "**" ++ after)) in *.
  cbn [starts_with]. rewrite Hd. cbn [andb].
  now rewrite IH by (discriminate || assumption).
Qed.

(** X26.  A span between two pairs of stars is printed in bold, without the
    stars, when it is not empty and holds neither a star nor the end of
    a line; the text before it, which holds no star, is printed as it
    is, and the text behind it is rendered in its turn. *)
Theorem renderMarkdown_prints_a_span_in_bold :
  forall before w after : string,
    all_chars not_star before = true ->
    w <> EmptyString ->
    all_chars span_char w = true ->
    renderMarkdown (before ++ "**" ++ w ++ "**" ++ after)
    = before ++ BOLD ++ w ++ RESET ++ renderMarkdown after.
Proof.
  intros before w after Hb Hne Hw. unfold renderMarkdown.
  induction before as [|c before IH].
  - change (EmptyString ++ "**" ++ w ++ "**" ++ after)
      with (String "*" (String "*" (w ++ "**" ++ after))).
    rewrite renderMarkdown_go_here.
    change (starts_with "**" (String "*" (String "*" (w ++ "**" ++ after)))) with true.
    change (drop 2 (String "*" (String "*" (w ++ "**" ++ after))))
      with (w ++ "**" ++ after).
    cbv iota.
    rewrite (lazy_group_span after Hne Hw).
    assert (Hk : String.length (String "*" (String "*" (w ++ "**" ++ after)))
                 - String.length after - 1
                 = String.length ("*" ++ w ++ "**")).
    { cbn [String.length append]. rewrite !length_append.
      cbn [String.length]. lia. }
    assert (Hd : drop (String.length ("*" ++ w ++ "**"))
                   (String "*" (w ++ "**" ++ after)) = after).
    { replace (String "*" (w ++ "**" ++ after)) with (("*" ++ w ++ "**") ++ after).
      - apply drop_append.
      - cbn [append]. now rewrite !append_assoc. }
    rewrite Hk, renderMarkdown_go_skip, Hd.
    + reflexivity.
    + cbn [String.length append]. rewrite !length_append.
      cbn [String.length]. lia.
  - cbn [all_chars] in Hb. apply andb_true_iff in Hb as [Hc Hb].
    unfold not_star in Hc. apply negb_true_iff in Hc.
    change (String c before ++ "**" ++ w ++ "**" ++ after)
      with (String c (before ++ "**" ++ w ++ "**" ++ after)).
    rewrite renderMarkdown_go_here.
    cbn [starts_with]. rewrite (Ascii.eqb_sym "*" c), Hc.
    cbn [andb]. now rewrite IH.
Qed.

Lemma renderMarkdown_prints_a_span_in_bold_witness :
  renderMarkdown "use **read** first, then **edit**"
  = "use " ++ BOLD ++ "read" ++ RESET ++ renderMarkdown " first, then **edit**".
Proof.
  apply (@renderMarkdown_prints_a_span_in_bold "use " "read" " first, then **edit**");
    [reflexivity | discriminate | reflexivity].
Defined.

(* ================================================================= *)
(** ** makeSchema *)

Lemma endsWith_unfold (suffix s : string) :
  endsWith suffix s
  = String.eqb s suffix || match s with
                           | EmptyString => false
                           | String _ s' => endsWith suffix s'
                           end.
Proof. destruct s; reflexivity. Qed.

Lemma endsWith_optional (b : string) : endsWith "?" (b ++ "?") = true.
Proof.
  induction b as [|c b IH]; [reflexivity|].
  change (String c b ++ "?") with (String c (b ++ "?")).
  rewrite endsWith_unfold, IH. apply orb_true_r.
Qed.

Lemma endsWith_required (b : string) :
  all_chars not_question b = true -> endsWith "?" b = false.
Proof.
  induction b as [|c b IH]; intros H; [reflexivity|].
  cbn [all_chars] in H. apply andb_true_iff in H as [Hc H].
  unfold not_question in Hc. apply negb_true_iff in Hc.
  rewrite endsWith_unfold, (IH H), orb_false_r.
  cbn [String.eqb]. now rewrite Hc.
Qed.

Lemma split_first_optional (b : string) :
  all_chars not_question b = true ->
  split_first "?" (b ++ "?") = Some (b, EmptyString).
Proof.
  induction b as [|c b IH]; intros H; [reflexivity|].
  cbn [all_chars] in H. apply andb_true_iff in H as [Hc H].
  unfold not_question in Hc. apply negb_true_iff in Hc.
  change (String c b ++ "?") with (String c (b ++ "?")).
  rewrite split_first_unfold. cbn [starts_with].
  rewrite (Ascii.eqb_sym "?" c), Hc. cbn [andb]. now rewrite (IH H).
Qed.

Lemma split_first_required (b : string) :
  all_chars not_question b = true -> split_first "?" b = None.
Proof.
  induction b as [|c b IH]; intros H; [reflexivity|].
  cbn [all_chars] in H. apply andb_true_iff in H as [Hc H].
  unfold not_question in Hc. apply negb_true_iff in Hc.
  rewrite split_first_unfold. cbn [starts_with].
  rewrite (Ascii.eqb_sym "?" c), Hc. cbn [andb]. now rewrite (IH H).
Qed.

(** The first question mark of a written type is the one that marks it
    as optional. *)
Lemma baseType_written (k : param) :
  all_chars not_question (base_of k) = true ->
  replace_first "?" EmptyString (written k) = base_of k /\
  endsWith "?" (written k) = negb (is_required k).
Proof.
  intros H. destruct k as [b|b]; cbn [written base_of is_required negb] in *.
  - unfold replace_first. rewrite (split_first_required b H).
    split; [reflexivity | now apply endsWith_required].
  - unfold replace_first. rewrite (split_first_optional b H).
    cbn [GetSubstitution]. rewrite !append_empty_r.
    split; [reflexivity | apply endsWith_optional].
Qed.

Lemma assign_fresh (V : Type) (key : string) (v : V) (obj : list (string * V)) :
  ~ In key (map fst obj) -> assign key v obj = (obj ++ [(key, v)])%list.
Proof.
  induction obj as [|[k x] obj IH]; intros H; [reflexivity|].
  simpl in *. destruct (String.eqb_spec k key) as [->|Hk].
  - exfalso. apply H. now left.
  - rewrite IH; [reflexivity|]. intros Hin. apply H. now right.
Qed.

Lemma declare_all (params : list (string * param)) :
  forall properties required,
    NoDup (map fst properties ++ map fst params)%list ->
    Forall (fun e => all_chars not_question (base_of (snd e)) = true) params ->
    fold_left declare (map (fun e => (fst e, written (snd e))) params)
      (properties, required)
    = ((properties ++ map (fun e => (fst e, json_type (base_of (snd e)))) params)%list,
       (required ++ map fst (filter (fun e => is_required (snd e)) params))%list).
Proof.
  induction params as [|[p k] params IH]; intros properties required Hdup Hall.
  - simpl. now rewrite !app_nil_r.
  - inversion Hall as [|e l Hk Hrest]; subst. cbn [snd fst] in Hk.
    cbn [map fold_left fst snd]. unfold declare at 2.
    destruct (baseType_written k Hk) as [-> ->].
    rewrite assign_fresh.
    + rewrite IH; [| |exact Hrest].
      * cbn [filter snd fst]. fold (json_type (base_of k)).
        destruct (is_required k); cbn [negb map];
          now rewrite <- ?app_assoc.
      * rewrite map_app. cbn [map fst]. now rewrite <- app_assoc.
    + cbn [map fst] in Hdup. apply NoDup_remove_2 in Hdup.
      intros Hin. apply Hdup. apply in_or_app. now left.
Qed.

(** X27.  For a tool whose parameters have distinct names and base types
    without a question mark, [makeSchema] declares every parameter, in
    the order of the table, with its base type -- [integer] for
    [number] -- and lists as required exactly the parameters that the
    table does not mark as optional. *)
Theorem makeSchema_declares_each_parameter :
  forall (name description : string) (params : list (string * param)),
    NoDup (map fst params) ->
    Forall (fun e => all_chars not_question (base_of (snd e)) = true) params ->
    tool_schema (name, (description, map (fun e => (fst e, written (snd e))) params))
    = mkFunctionSchema name description
        (map (fun e => (fst e, json_type (base_of (snd e)))) params)
        (map fst (filter (fun e => is_required (snd e)) params)).
Proof.
  intros name description params Hdup Hall. unfold tool_schema.
  now rewrite (@declare_all params [] [] Hdup Hall).
Qed.

Lemma makeSchema_declares_each_parameter_witness :
  tool_schema
    ("read", ("Read file with line numbers (file path, not directory)",
              [("path", "string"); ("offset", "number?"); ("limit", "number?")]))
  = mkFunctionSchema "read" "Read file with line numbers (file path, not directory)"
      [("path", "string"); ("offset", "integer"); ("limit", "integer")]
      ["path"].
Proof.
  apply (@makeSchema_declares_each_parameter "read"
           "Read file with line numbers (file path, not directory)"
           [("path", Required "string"); ("offset", Optional "number");
            ("limit", Optional "number")]).
  - repeat constructor; simpl; intuition discriminate.
  - repeat constructor.
Defined.

(** The model is told of the tools that the dispatcher knows, under
    their names and in their order. *)
Example makeSchema_names (execSync : string -> FS -> exec * FS)
  (RegExp : string -> outcome (string -> bool)) :
  map s_name makeSchema = map fst (TOOLS execSync RegExp).
Proof. reflexivity. Qed.

(* ================================================================= *)
(** ** The loop of a conversation *)

Section Loop.

Variable execSync : string -> FS -> exec * FS.
Variable RegExp : string -> outcome (string -> bool).
Variable converts : string -> JSON -> FS -> completion * FS.
Variable callApi : list Message -> outcome (list Delta).

Lemma run_tool_calls_appends (calls : list ToolCall) :
  forall ag,
  exists added,
    messages (snd (run_tool_calls execSync RegExp converts calls ag))
    = (messages ag ++ added)%list.
Proof.
  induction calls as [|c calls IH]; intros ag.
  - exists []. simpl. now rewrite app_nil_r.
  - cbn [run_tool_calls].
    destruct (JSON_parse (tc_arguments c)) as [j|m|];
      try (exists []; simpl; now rewrite app_nil_r).
    destruct (argPreview j) as [u|m|];
      try (exists []; simpl; now rewrite app_nil_r).
    destruct (runTool execSync RegExp converts (tc_name c) j (disk ag))
      as [[result|m|] fs'];
      try (exists []; simpl; now rewrite app_nil_r).
    destruct (IH (mkAgent (messages ag ++ [ToolMsg (tc_id c) (tc_name c) result]) fs'))
      as [added Hadded].
    exists (ToolMsg (tc_id c) (tc_name c) result :: added).
    rewrite Hadded. simpl. now rewrite <- app_assoc.
Qed.

Lemma turn_appends (chunks : list Delta) (ag : Agent) :
  exists added,
    messages (snd (turn execSync RegExp converts chunks ag)) = (messages ag ++ added)%list.
Proof.
  unfold turn. destruct (assemble chunks) as [content calls].
  destruct calls as [|c calls]; [now eexists|].
  destruct (run_tool_calls_appends (c :: calls)
              (push (AssistantMsg content (Some (c :: calls))) ag)) as [added H].
  destruct (run_tool_calls execSync RegExp converts (c :: calls) _) as [[u|m|] ag'];
    cbn [snd] in *; rewrite H; unfold push; cbn [messages];
    rewrite <- app_assoc; now eexists.
Qed.

Lemma converse_appends (passes : nat) :
  forall ag,
  exists added,
    messages (snd (converse execSync RegExp converts callApi passes ag))
    = (messages ag ++ added)%list.
Proof.
  induction passes as [|k IH]; intros ag.
  - exists []. simpl. now rewrite app_nil_r.
  - cbn [converse].
    destruct (callApi (messages ag)) as [chunks|m|];
      try (exists []; simpl; now rewrite app_nil_r).
    destruct (turn_appends chunks ag) as [added H].
    destruct (turn execSync RegExp converts chunks ag) as [how ag1]. cbn [snd] in H.
    destruct how; try (exists added; exact H).
    destruct (IH ag1) as [added' H']. exists (added ++ added')%list.
    now rewrite H', H, app_assoc.
Qed.

(** Once the loop has ended within a number of passes, a larger bound
    gives the same end: the bound only says how long the loop is
    watched. *)
Lemma converse_more_passes (passes : nat) :
  forall ag how ag' more,
    converse execSync RegExp converts callApi passes ag = (how, ag') ->
    how <> Again ->
    converse execSync RegExp converts callApi (passes + more) ag = (how, ag').
Proof.
  induction passes as [|k IH]; intros ag how ag' more H Hend.
  - simpl in H. injection H as <- _. congruence.
  - cbn [converse Nat.add] in *.
    destruct (callApi (messages ag)) as [chunks|m|]; try exact H.
    destruct (turn execSync RegExp converts chunks ag) as [[| | |] ag1]; try exact H.
    now apply IH.
Qed.

(** X7.  The handler of a line forgets messages on [/clear] only: whatever
    else the user types, whatever the server answers and however the
    loop ends -- by a reply without tool calls or by an error -- the
    conversation that was there is still there, with the new messages
    behind it. *)
Theorem only_clear_forgets_messages :
  forall (passes : nat) (userInput : string) (ag : Agent),
  exists added,
    messages (snd (on_line execSync RegExp converts callApi passes userInput ag))
    = if String.eqb (trim userInput) "/clear" then []
      else (messages ag ++ added)%list.
Proof.
  intros passes userInput ag. unfold on_line. cbv zeta.
  generalize (trim userInput) as u. intros u.
  destruct u as [|c0 rest]; [exists []; simpl; now rewrite app_nil_r|].
  set (u := String c0 rest).
  destruct (String.eqb u "/quit" || String.eqb u "exit") eqn:Hq.
  - destruct (String.eqb_spec u "/clear") as [Hc|_].
    + rewrite Hc in Hq. discriminate.
    + exists []. simpl. now rewrite app_nil_r.
  - destruct (String.eqb u "/clear"); [now exists []|].
    destruct (converse_appends passes (push (UserMsg u) ag)) as [added H].
    exists (UserMsg u :: added).
    destruct (converse execSync RegExp converts callApi passes _) as [how ag'].
    cbn [snd] in *. rewrite H. unfold push. cbn [messages].
    now rewrite <- app_assoc.
Qed.

Lemma converse_finished (passes : nat) :
  forall ag ag',
    converse execSync RegExp converts callApi passes ag = (Finished, ag') ->
    exists added,
      messages ag' = (messages ag ++ added)%list /\ exchange added.
Proof.
  induction passes as [|k IH]; intros ag ag' H; cbn [converse] in H; [discriminate|].
  destruct (callApi (messages ag)) as [chunks|m|]; try discriminate.
  unfold turn in H. destruct (assemble chunks) as [content calls].
  destruct calls as [|c calls].
  - injection H as <-. exists [AssistantMsg content None].
    split; [reflexivity | constructor].
  - destruct (run_tool_calls execSync RegExp converts (c :: calls)
                (push (AssistantMsg content (Some (c :: calls))) ag))
      as [[u|m|] ag1] eqn:Hrun; try discriminate.
    destruct u.
    destruct (run_tool_calls_replies execSync RegExp converts (c :: calls) _ Hrun)
      as (replies & Hm & Hall).
    destruct (IH ag1 ag' H) as (added & Hadded & Hex).
    exists (AssistantMsg content (Some (c :: calls)) :: replies ++ added)%list.
    split.
    + rewrite Hadded, Hm. unfold push. cbn [messages].
      now rewrite <- !app_assoc.
    + constructor; [discriminate | exact Hall | exact Hex].
Qed.

(** X8.  When the loop is left because the model asked for no more tools,
    the conversation has gained the trimmed line of the user, then
    complete rounds only -- an assistant message with its tool calls
    and one tool-result message for each call, in their order -- and at
    last an assistant message without tool calls. *)
Theorem finished_exchange_is_complete :
  forall (passes : nat) (userInput : string) (ag ag' : Agent),
    on_line execSync RegExp converts callApi passes userInput ag = (Conversed Finished, ag') ->
    exists added,
      messages ag' = (messages ag ++ UserMsg (trim userInput) :: added)%list /\
      exchange added.
Proof.
  intros passes userInput ag ag' H. unfold on_line in H.
  destruct (trim userInput) as [|c0 rest] eqn:E; [discriminate|].
  destruct (String.eqb (String c0 rest) "/quit" || String.eqb (String c0 rest) "exit");
    [discriminate|].
  destruct (String.eqb (String c0 rest) "/clear"); [discriminate|].
  destruct (converse execSync RegExp converts callApi passes (push (UserMsg (String c0 rest)) ag))
    as [how ag1] eqn:Hc.
  injection H as -> ->.
  destruct (converse_finished passes _ Hc) as (added & Hm & Hex).
  exists added. split; [|exact Hex].
  rewrite Hm. unfold push. cbn [messages]. now rewrite <- app_assoc.
Qed.

Lemma runTool_catches (name : string) (args : JSON) (fs : FS) :
  forall m fs', runTool execSync RegExp converts name args fs <> (Throw m, fs').
Proof.
  intros m fs'. unfold runTool, try_catch.
  destruct (call_tool execSync RegExp converts name args fs) as [[s|m'|] fs1]; discriminate.
Qed.

(** A round is left by an exception only where the arguments of a call
    are read: in [JSON.parse], or in the preview of the values. *)
Lemma run_tool_calls_throws (calls : list ToolCall) :
  forall ag ag' m,
    run_tool_calls execSync RegExp converts calls ag = (Throw m, ag') ->
    exists call,
      In call calls /\
      (JSON_parse (tc_arguments call) = Throw m \/
       exists toolArgs,
         JSON_parse (tc_arguments call) = Ret toolArgs /\
         argPreview toolArgs = Throw m).
Proof.
  induction calls as [|c calls IH]; intros ag ag' m H; cbn [run_tool_calls] in H;
    [discriminate|].
  destruct (JSON_parse (tc_arguments c)) as [j|m0|] eqn:Hparse; [| |discriminate].
  - destruct (argPreview j) as [u|m0|] eqn:Hpreview; [| |discriminate].
    + pose proof (runTool_catches (tc_name c) j (disk ag)) as Hcatch.
      destruct (runTool execSync RegExp converts (tc_name c) j (disk ag))
        as [[result|m1|] fs'].
      * destruct (IH _ _ _ H) as (call & Hin & Hbad).
        exists call. split; [now right | exact Hbad].
      * exfalso. now apply (Hcatch m1 fs').
      * discriminate.
    + injection H as <- _. exists c. split; [now left|]. right. now exists j.
  - injection H as <- _. exists c. split; [now left | now left].
Qed.

(** X6.  Once the stream of a reply has been read, the pass ends in a
    reported error only because of the arguments of a tool call: some
    call of the reply has an arguments text that is no JSON text -- the
    message reported is the one of [JSON.parse] --, or one that spells
    a value of which no preview can be made: [null], or a value whose
    first member cannot be converted to a text.  No tool can make a
    pass end in this way. *)
Theorem pass_fails_only_on_bad_arguments :
  forall (chunks : list Delta) (ag ag' : Agent) (m : string),
    turn execSync RegExp converts chunks ag = (Reported m, ag') ->
    exists call,
      In call (snd (assemble chunks)) /\
      (JSON_parse (tc_arguments call) = Throw m \/
       exists toolArgs,
         JSON_parse (tc_arguments call) = Ret toolArgs /\
         argPreview toolArgs = Throw m /\
         previewable toolArgs = false).
Proof.
  intros chunks ag ag' m H. unfold turn in H.
  destruct (assemble chunks) as [content calls]. cbn [snd].
  destruct calls as [|c calls]; [discriminate|].
  destruct (run_tool_calls execSync RegExp converts (c :: calls) _)
    as [[u|m1|] ag1] eqn:Hrun; try discriminate.
  injection H as -> _.
  destruct (run_tool_calls_throws _ _ Hrun) as (call & Hin & [Hbad|(j & Hj & Hp)]).
  - exists call. split; [exact Hin | now left].
  - exists call. split; [exact Hin|]. right. exists j.
    repeat split; try assumption.
    destruct (previewable j) eqn:E; [|reflexivity].
    rewrite (previewable_argPreview j E) in Hp. discriminate.
Qed.

End Loop.

Lemma pass_fails_only_on_bad_arguments_witness :
  exists call,
    In call (snd (assemble poisoned_call)) /\
    (JSON_parse (tc_arguments call) = Throw "Cannot convert object to primitive value" \/
     exists toolArgs,
       JSON_parse (tc_arguments call) = Ret toolArgs /\
       argPreview toolArgs = Throw "Cannot convert object to primitive value" /\
       previewable toolArgs = false).
Proof.
  apply (@pass_fails_only_on_bad_arguments no_shell no_RegExp no_conversion
           poisoned_call asked
           (snd (turn no_shell no_RegExp no_conversion poisoned_call asked))
           "Cannot convert object to primitive value").
  reflexivity.
Defined.

(** The preview is made before the tool is run: a call whose first
    argument cannot be converted to a text ends the round, so that the
    call is neither run nor answered, and the call after it is not
    even looked at. *)
Example preview_ends_the_round :
  turn no_shell no_RegExp no_conversion poisoned_call asked
  = (Reported "Cannot convert object to primitive value",
     mkAgent
       [ UserMsg "save the notes";
         AssistantMsg EmptyString
           (Some [ mkToolCall (Some "call_0") "write" poisoned;
                   mkToolCall (Some "call_1") "write" write_b ]) ]
       empty_disk).
Proof. reflexivity. Qed.

Lemma finished_exchange_is_complete_witness :
  exists added,
    messages (snd (on_line no_shell no_RegExp no_conversion one_write 5 "  save the notes "
                     (mkAgent [] empty_disk)))
    = ([] ++ UserMsg (trim "  save the notes ") :: added)%list /\
    exchange added.
Proof.
  apply (@finished_exchange_is_complete no_shell no_RegExp no_conversion one_write 5
           "  save the notes " (mkAgent [] empty_disk)).
  reflexivity.
Defined.

(* ================================================================= *)
(** ** The lines of the stream *)

Lemma sse_chunks_skip (line : string) (rest : list string) :
  carries_nothing line -> sse_chunks (line :: rest) = sse_chunks rest.
Proof.
  intros H. cbn [sse_chunks]. cbv zeta.
  destruct H as [H|[H|[H|[m H]]]].
  - now rewrite H.
  - now rewrite H.
  - rewrite H. now destruct (_ || _).
  - rewrite H. destruct (_ || _); [reflexivity|]. now destruct (starts_with _ _).
Qed.

(** X9.  A line of the stream that carries no chunk -- a blank line, the
    end marker, a line that is no [data: ] line, or one whose data is
    no JSON text -- changes nothing: the generator yields what it
    yields without that line.  Neither a line that is broken nor the
    end marker ends the reading. *)
Theorem stream_passes_over_lines_without_a_chunk :
  forall (before after : list string) (line : string),
    carries_nothing line ->
    sse_chunks (before ++ line :: after) = sse_chunks (before ++ after).
Proof.
  intros before after line H.
  induction before as [|l before IH]; [now apply sse_chunks_skip|].
  cbn [app sse_chunks]. cbv zeta. now rewrite IH.
Qed.

Lemma stream_passes_over_lines_without_a_chunk_witness :
  sse_chunks (["data: {}"] ++ "data: {oops" :: ["data: [1]"])
  = sse_chunks (["data: {}"] ++ ["data: [1]"]).
Proof.
  apply (@stream_passes_over_lines_without_a_chunk ["data: {}"] ["data: [1]"]
           "data: {oops").
  right. right. right. exists json_error. reflexivity.
Defined.

(* ================================================================= *)
(** ** The loop of the non-streaming variant *)

Section NanoLoop.

Variable execSync : string -> FS -> exec * FS.
Variable RegExp : string -> outcome (string -> bool).
Variable converts : string -> JSON -> FS -> completion * FS.

Lemma nano_runTool_catches (name : string) (args : JSON) (fs : FS) :
  forall m fs',
    Nanocode.runTool execSync RegExp converts name args fs <> (Throw m, fs').
Proof.
  intros m fs'. unfold Nanocode.runTool, try_catch.
  destruct (Nanocode.call_tool execSync RegExp converts name args fs)
    as [[s|m'|] fs1]; discriminate.
Qed.

Lemma run_blocks_answers (blocks : list Nanocode.Block) :
  forall fs toolResults,
    (forall m fs',
        Nanocode.run_blocks execSync RegExp converts blocks fs toolResults
        = (Throw m, fs') ->
        exists input,
          In input (tool_use_inputs blocks) /\ argPreview input = Throw m) /\
    (forall results fs',
        Nanocode.run_blocks execSync RegExp converts blocks fs toolResults
        = (Ret results, fs') ->
        map Nanocode.tool_use_id results
        = (map Nanocode.tool_use_id toolResults ++ tool_use_ids blocks)%list).
Proof.
  induction blocks as [|b blocks IH]; intros fs toolResults.
  - split; [discriminate|]. intros results fs' H. injection H as <- _.
    simpl. now rewrite app_nil_r.
  - destruct b as [text|id name input|]; [apply IH | | apply IH].
    cbn [Nanocode.run_blocks tool_use_inputs tool_use_ids].
    destruct (argPreview input) as [u|m0|] eqn:Hpreview.
    + pose proof (nano_runTool_catches name input fs) as Hcatch.
      destruct (Nanocode.runTool execSync RegExp converts name input fs)
        as [[result|m1|] fs1].
      * destruct (IH fs1 (toolResults ++ [Nanocode.mkToolResult id result])%list)
          as [Hno Hids].
        split.
        -- intros m fs' H. destruct (Hno m fs' H) as (j & Hin & Hj).
           exists j. split; [now right | exact Hj].
        -- intros results fs' H.
           rewrite (Hids results fs' H), map_app. simpl. now rewrite <- app_assoc.
      * exfalso. now apply (Hcatch m1 fs1).
      * split; discriminate.
    + split; [|discriminate]. intros m fs' H. injection H as <- _.
      exists input. split; [now left | exact Hpreview].
    + split; discriminate.
Qed.

(** X28.  In the non-streaming variant the input of a tool call arrives as an
    object, and nothing is parsed in the loop: a pass ends in a
    reported error only when no preview can be made of an input -- the
    input is [null], or its first member cannot be converted to a
    text --, and a pass that asked for tools pushes the assistant
    message and then one message that holds an answer for every tool
    call, in the order of the calls. *)
Theorem nanocode_answers_every_tool_use :
  forall (blocks : list Nanocode.Block) (ag : Nanocode.Agent),
    (forall m ag',
        Nanocode.turn execSync RegExp converts blocks ag = (Reported m, ag') ->
        exists input,
          In input (tool_use_inputs blocks) /\
          previewable input = false /\
          argPreview input = Throw m) /\
    (forall ag',
        Nanocode.turn execSync RegExp converts blocks ag = (Again, ag') ->
        exists results,
          Nanocode.messages ag'
          = (Nanocode.messages ag
             ++ [Nanocode.AssistantMsg blocks; Nanocode.ResultsMsg results])%list /\
          map Nanocode.tool_use_id results = tool_use_ids blocks).
Proof.
  intros blocks ag.
  destruct (run_blocks_answers blocks (Nanocode.disk ag) []) as [Hno Hids].
  unfold Nanocode.turn.
  destruct (Nanocode.run_blocks execSync RegExp converts blocks (Nanocode.disk ag) [])
    as [[results|m1|] fs1].
  - split.
    + intros m ag'. destruct results; discriminate.
    + intros ag' H. destruct results as [|r results]; [discriminate|].
      injection H as <-. exists (r :: results). cbn [Nanocode.messages]. split.
      * now rewrite <- app_assoc.
      * apply (Hids _ fs1 eq_refl).
  - split; [|discriminate]. intros m ag' H. injection H as <- _.
    destruct (Hno m1 fs1 eq_refl) as (input & Hin & Hp).
    exists input. repeat split; try assumption.
    destruct (previewable input) eqn:E; [|reflexivity].
    rewrite (previewable_argPreview input E) in Hp. discriminate.
  - split; discriminate.
Qed.

End NanoLoop.

(** Two tool calls of one response, the second one for a tool that
    does not exist. *)
Lemma nanocode_answers_every_tool_use_witness :
  exists results,
    Nanocode.messages
      (snd (Nanocode.turn no_shell no_RegExp no_conversion
              [ Nanocode.TextBlock "saving";
                Nanocode.ToolUse (Some "t1") "write"
                  (JObj [("path", JStr "a.txt"); ("content", JStr "one")]);
                Nanocode.ToolUse (Some "t2") "nothing" (JObj []) ]
              (Nanocode.mkAgent [Nanocode.UserMsg "save the notes"] empty_disk)))
    = ([Nanocode.UserMsg "save the notes"]
       ++ [ Nanocode.AssistantMsg
              [ Nanocode.TextBlock "saving";
                Nanocode.ToolUse (Some "t1") "write"
                  (JObj [("path", JStr "a.txt"); ("content", JStr "one")]);
                Nanocode.ToolUse (Some "t2") "nothing" (JObj []) ];
            Nanocode.ResultsMsg results ])%list /\
    map Nanocode.tool_use_id results = [Some "t1"; Some "t2"].
Proof.
  apply (proj2 (@nanocode_answers_every_tool_use no_shell no_RegExp no_conversion
                  [ Nanocode.TextBlock "saving";
                    Nanocode.ToolUse (Some "t1") "write"
                      (JObj [("path", JStr "a.txt"); ("content", JStr "one")]);
                    Nanocode.ToolUse (Some "t2") "nothing" (JObj []) ]
                  (Nanocode.mkAgent [Nanocode.UserMsg "save the notes"] empty_disk))).
  reflexivity.
Defined.

(** An input whose first member has a member [toString] ends the pass
    before its tool is run: nothing is pushed, and nothing is written. *)
Example nanocode_preview_ends_the_pass :
  Nanocode.turn no_shell no_RegExp no_conversion
    [ Nanocode.ToolUse (Some "t1") "write"
        (JObj [("path", JObj [("toString", JNull)]); ("content", JStr "one")]) ]
    (Nanocode.mkAgent [Nanocode.UserMsg "save the notes"] empty_disk)
  = (Reported "Cannot convert object to primitive value",
     Nanocode.mkAgent [Nanocode.UserMsg "save the notes"] empty_disk).
Proof. reflexivity. Qed.

(* ================================================================= *)
(** ** Patterns without a wildcard, and with one star *)

Lemma all_chars_impl (p q : ascii -> bool) (s : string) :
  (forall c, p c = true -> q c = true) ->
  all_chars p s = true -> all_chars q s = true.
Proof.
  intros Hpq. induction s as [|c s IH]; intros H; [reflexivity|].
  cbn [all_chars] in *. apply andb_true_iff in H as [Hc H].
  now rewrite (Hpq c Hc), IH.
Qed.

Lemma all_chars_app (p : ascii -> bool) (a b : string) :
  all_chars p (a ++ b) = all_chars p a && all_chars p b.
Proof.
  induction a as [|c a IH]; [reflexivity|].
  simpl. now rewrite IH, andb_assoc.
Qed.

Lemma name_char_glob (c : ascii) : name_char c = true -> glob_char c = true.
Proof.
  unfold name_char, glob_char. intros H.
  apply orb_true_iff in H as [H|H]; rewrite H; now rewrite ?orb_true_r.
Qed.

(** A name character is a dot or a plain character: never a star. *)
Lemma name_char_cases (c : ascii) :
  name_char c = true ->
  Ascii.eqb c "*" = false /\
  (classify c = GDot /\ c = "."%char \/ classify c = GChar c).
Proof.
  unfold name_char, classify. intros H.
  destruct (Ascii.eqb_spec c ".") as [E|Hdot].
  { split; [now rewrite E | now left]. }
  simpl in H. apply negb_true_iff in H.
  assert (Hq : Ascii.eqb c "?" = false).
  { unfold syntax_char in H. simpl in H.
    repeat (apply orb_false_iff in H; destruct H as [? H]); assumption. }
  destruct (syntax_char_false c H) as (_ & _ & _ & _ & _ & Hs & _).
  rewrite Hq, Hs. split; [reflexivity | now right].
Qed.

(** The tokens of a text of name characters spell the text and nothing
    else. *)
Lemma name_tokens (wild : ascii -> bool) (rest : list gtoken) :
  forall name : string,
    all_chars name_char name = true ->
    forall s,
      glob_matches wild (tokens name ++ rest) s <->
      exists s', s = name ++ s' /\ glob_matches wild rest s'.
Proof.
  induction name as [|c name IH]; intros Hn s.
  - simpl. split; [intros H; now exists s | intros (s' & -> & H); exact H].
  - cbn [all_chars] in Hn. apply andb_true_iff in Hn as [Hc Hn].
    destruct (name_char_cases c Hc) as [Hstar Hclass].
    rewrite tokens_other by exact Hstar.
    change ((classify c :: tokens name) ++ rest)%list
      with (classify c :: (tokens name ++ rest))%list.
    destruct Hclass as [[Hcl Hd]|Hcl]; rewrite Hcl; clear Hcl.
    + subst c. split.
      * intros H. inversion H as [|ts s0 Hm| | | |]; subst.
        apply (IH Hn) in Hm as (s' & -> & Hm). now exists s'.
      * intros (s' & -> & H).
        change (String "." name ++ s') with (String "." (name ++ s')).
        constructor. apply (IH Hn). now exists s'.
    + split.
      * intros H. inversion H as [| |c0 ts s0 Hm| | |]; subst.
        apply (IH Hn) in Hm as (s' & -> & Hm). now exists s'.
      * intros (s' & -> & H).
        change (String c name ++ s') with (String c (name ++ s')).
        constructor. apply (IH Hn). now exists s'.
Qed.

Lemma tokens_app_name (name : string) :
  all_chars name_char name = true ->
  forall r, tokens (name ++ r) = (tokens name ++ tokens r)%list.
Proof.
  induction name as [|c name IH]; intros Hn r; [reflexivity|].
  cbn [all_chars] in Hn. apply andb_true_iff in Hn as [Hc Hn].
  destruct (name_char_cases c Hc) as [Hstar _].
  change (String c name ++ r) with (String c (name ++ r)).
  rewrite !tokens_other by exact Hstar. now rewrite (IH Hn).
Qed.

(** A name is matched by itself. *)
Lemma matchPattern_own_name (name : string) :
  all_chars name_char name = true ->
  includes name "__DOUBLE_STAR" = false ->
  matchPattern name name = Ret true.
Proof.
  intros Hn Hplace.
  unfold matchPattern, RegExp_test.
  rewrite (regexPattern_tokens name Hplace),
    (RegExp_new_images (tokens name)
       (tokens_plain name (all_chars_impl _ _ name name_char_glob Hn))).
  f_equal. apply test_tokens.
  rewrite <- (app_nil_r (tokens name)).
  apply (name_tokens not_newline [] name Hn).
  exists EmptyString. split; [now rewrite append_empty_r | constructor].
Qed.

(** X22.  A pattern without a wildcard -- made of dots and of characters that
    mean nothing in a regular expression -- matches the path that is
    the pattern itself, and no other path. *)
Theorem matchPattern_of_a_name_is_equality :
  forall name filepath : string,
    all_chars name_char name = true ->
    includes name "__DOUBLE_STAR" = false ->
    matchPattern filepath name = Ret (String.eqb filepath name).
Proof.
  intros name filepath Hn Hplace.
  unfold matchPattern, RegExp_test.
  rewrite (regexPattern_tokens name Hplace),
    (RegExp_new_images (tokens name)
       (tokens_plain name (all_chars_impl _ _ name name_char_glob Hn))).
  f_equal.
  pose proof (test_tokens (tokens name) filepath) as Ht.
  rewrite <- (app_nil_r (tokens name)) in Ht at 2.
  rewrite (name_tokens not_newline [] name Hn) in Ht.
  destruct (String.eqb_spec filepath name) as [->|Hne].
  - apply Ht. exists EmptyString. split; [now rewrite append_empty_r | constructor].
  - destruct (test _ filepath) eqn:E; [|reflexivity].
    exfalso. apply Hne. destruct (proj1 Ht eq_refl) as (s' & -> & Hs').
    inversion Hs'. apply append_empty_r.
Qed.

Lemma matchPattern_of_a_name_is_equality_witness :
  matchPattern "src/main.js" "package.json" = Ret (String.eqb "src/main.js" "package.json").
Proof.
  apply (@matchPattern_of_a_name_is_equality "package.json" "src/main.js");
    reflexivity.
Defined.

(** X23.  A pattern with one star between two texts without a wildcard
    matches the paths that begin with the first text, end with the
    second, and have no slash in between: [*.js] finds no file of a
    subdirectory. *)
Theorem matchPattern_star_stays_in_one_segment :
  forall front back filepath : string,
    all_chars name_char front = true ->
    all_chars name_char back = true ->
    includes (front ++ "*" ++ back) "__DOUBLE_STAR" = false ->
    exists b : bool,
      matchPattern filepath (front ++ "*" ++ back) = Ret b /\
      (b = true <->
       exists u, filepath = front ++ u ++ back /\ all_chars not_slash u = true).
Proof.
  intros front back filepath Hf Hb Hplace.
  assert (Hstar : forall c, name_char c = true -> Ascii.eqb c "*" = false)
    by (intros c Hc; apply (name_char_cases c Hc)).
  assert (Htok : tokens (front ++ "*" ++ back)
                 = (tokens front ++ GStar :: tokens back)%list).
  { rewrite (tokens_app_name front Hf). f_equal.
    change ("*" ++ back) with (String "*" back).
    apply tokens_star. destruct back as [|c back]; [reflexivity|].
    cbn [all_chars] in Hb. apply andb_true_iff in Hb as [Hc _].
    cbn [starts_with]. rewrite (Ascii.eqb_sym "*" c), (Hstar c Hc). reflexivity. }
  assert (Hglob : all_chars glob_char (front ++ "*" ++ back) = true).
  { rewrite !all_chars_app.
    rewrite (all_chars_impl _ _ front name_char_glob Hf),
      (all_chars_impl _ _ back name_char_glob Hb). reflexivity. }
  unfold matchPattern, RegExp_test.
  rewrite (regexPattern_tokens _ Hplace),
    (RegExp_new_images _ (tokens_plain _ Hglob)).
  eexists. split; [reflexivity|].
  rewrite test_tokens, Htok, (name_tokens not_newline _ front Hf).
  split.
  - intros (s' & -> & H).
    inversion H as [| | | |u ts v Hu Hv|]; subst.
    rewrite <- (app_nil_r (tokens back)) in Hv.
    apply (name_tokens not_newline [] back Hb) in Hv as (e & -> & He).
    inversion He. exists u. now rewrite append_empty_r.
  - intros (u & -> & Hu). exists (u ++ back). split; [reflexivity|].
    constructor; [exact Hu|].
    rewrite <- (app_nil_r (tokens back)).
    apply (name_tokens not_newline [] back Hb).
    exists EmptyString. split; [now rewrite append_empty_r | constructor].
Qed.

Lemma matchPattern_star_stays_in_one_segment_witness :
  exists b : bool,
    matchPattern "src/a.js" (EmptyString ++ "*" ++ ".js") = Ret b /\
    (b = true <->
     exists u, "src/a.js" = EmptyString ++ u ++ ".js" /\ all_chars not_slash u = true).
Proof.
  apply (@matchPattern_star_stays_in_one_segment EmptyString ".js" "src/a.js");
    reflexivity.
Defined.

Lemma all_chars_not_slash_app (u v : string) :
  all_chars not_slash (u ++ String "/" v) = false.
Proof.
  induction u as [|c u IH]; [reflexivity|].
  simpl. rewrite IH. apply andb_false_r.
Qed.

(** X24.  The pattern [**/*] followed by a text without a wildcard asks for
    a slash: it matches no path of a single segment, so the files that
    lie in the working directory itself are not found by it. *)
Theorem matchPattern_deep_star_slash_needs_a_slash :
  forall back filepath : string,
    all_chars name_char back = true ->
    includes ("**/*" ++ back) "__DOUBLE_STAR" = false ->
    all_chars not_slash filepath = true ->
    matchPattern filepath ("**/*" ++ back) = Ret false.
Proof.
  intros back filepath Hb Hplace Hflat.
  assert (Hstar : starts_with "*" back = false).
  { destruct back as [|c back]; [reflexivity|].
    cbn [all_chars] in Hb. apply andb_true_iff in Hb as [Hc _].
    destruct (name_char_cases c Hc) as [Hs _].
    cbn [starts_with]. now rewrite (Ascii.eqb_sym "*" c), Hs. }
  assert (Htok : tokens ("**/*" ++ back)
                 = GDeep :: GChar "/" :: GStar :: tokens back).
  { change ("**/*" ++ back) with (String "*" (String "*" (String "/" (String "*" back)))).
    rewrite tokens_deep, tokens_other by reflexivity.
    now rewrite (tokens_star back Hstar). }
  assert (Hglob : all_chars glob_char ("**/*" ++ back) = true).
  { rewrite all_chars_app. now rewrite (all_chars_impl _ _ back name_char_glob Hb). }
  unfold matchPattern, RegExp_test.
  rewrite (regexPattern_tokens _ Hplace),
    (RegExp_new_images _ (tokens_plain _ Hglob)).
  f_equal. destruct (test _ filepath) eqn:E; [|reflexivity].
  apply test_tokens in E. rewrite Htok in E.
  inversion E as [| | | | |u ts v Hu Hv]; subst.
  inversion Hv as [| |c ts s Hs| | |]; subst.
  now rewrite all_chars_not_slash_app in Hflat.
Qed.

Lemma matchPattern_deep_star_slash_needs_a_slash_witness :
  matchPattern "main.js" ("**/*" ++ ".js") = Ret false.
Proof.
  apply (@matchPattern_deep_star_slash_needs_a_slash ".js" "main.js"); reflexivity.
Defined.

(* ================================================================= *)
(** ** write, then glob *)

Lemma split_one_segment (s : string) :
  all_chars not_slash s = true -> split "/" s = [s].
Proof.
  unfold split. induction s as [|c s IH]; intros H; [reflexivity|].
  cbn [all_chars] in H. apply andb_true_iff in H as [Hc H].
  unfold not_slash in Hc. apply negb_true_iff in Hc.
  cbn [split_go starts_with]. rewrite (Ascii.eqb_sym "/" c), Hc. cbn [andb].
  now rewrite (IH H).
Qed.

Lemma split_dot_slash (name : string) :
  all_chars not_slash name = true ->
  split "/" (String "." (String "/" name)) = ["."; name].
Proof.
  intros H. pose proof (split_one_segment name H) as Hs. unfold split in *.
  cbn [split_go starts_with Ascii.eqb Bool.eqb andb String.length Nat.sub].
  now rewrite Hs.
Qed.

Lemma relative_name (name : string) :
  name <> EmptyString -> all_chars not_slash name = true -> is_absolute name = false.
Proof.
  intros Hne H. destruct name as [|c name]; [congruence|].
  cbn [all_chars] in H. apply andb_true_iff in H as [Hc _].
  unfold not_slash in Hc. apply negb_true_iff in Hc.
  unfold is_absolute. cbn [starts_with]. now rewrite (Ascii.eqb_sym "/" c), Hc.
Qed.

(** A name joined to the directory [.] is the name. *)
Lemma path_join_dot (name : string) :
  name <> EmptyString ->
  all_chars not_slash name = true ->
  is_dot name = false ->
  String.eqb name ".." = false ->
  path_join "." name = name.
Proof.
  intros Hne Hflat Hdot Hup.
  destruct name as [|c n]; [congruence|].
  set (name := String c n) in *.
  change (path_join "." name) with (path_normalize (String "." (String "/" name))).
  unfold path_normalize, ends_with_slash.
  rewrite (split_dot_slash name Hflat).
  change (is_absolute (String "." (String "/" name))) with false.
  cbn [negb last normalize_segs].
  change (is_dot ".") with true. cbv iota.
  rewrite Hdot, Hup. cbn [rev app].
  change (join "/" [name]) with name.
  change (String.eqb name EmptyString) with false.
  unfold name at 1. cbv iota. apply append_empty_r.
Qed.

Lemma normalize_segs_app (allowAboveRoot : bool) (xs : list string) :
  forall stack,
  exists stack',
    forall ys,
      normalize_segs allowAboveRoot stack (xs ++ ys)
      = normalize_segs allowAboveRoot stack' ys.
Proof.
  induction xs as [|x xs IH]; intros stack; [now exists stack|].
  cbn [app normalize_segs].
  destruct (is_dot x); [apply IH|].
  destruct (String.eqb x ".."); [|apply IH].
  destruct stack as [|t stack]; [destruct allowAboveRoot; apply IH|].
  destruct (String.eqb t ".."); apply IH.
Qed.

Lemma strip_common_prefix (l : list string) (name : string) :
  strip_common l (l ++ [name]) = ([], [name]).
Proof.
  induction l as [|x l IH]; [reflexivity|].
  cbn [app strip_common]. now rewrite String.eqb_refl.
Qed.

(** Seen from the working directory, a name is the name. *)
Lemma path_relative_name (wd : list string) (name : string) :
  name <> EmptyString ->
  all_chars not_slash name = true ->
  is_dot name = false ->
  String.eqb name ".." = false ->
  path_relative wd "." name = name.
Proof.
  intros Hne Hflat Hdot Hup. unfold path_relative, resolve_segs.
  rewrite (relative_name Hne Hflat), (split_one_segment name Hflat).
  change (is_absolute ".") with false. change (split "/" ".") with ["."].
  destruct (normalize_segs_app false wd []) as [stack Hstack].
  rewrite !Hstack. cbn [normalize_segs]. change (is_dot ".") with true.
  cbv iota. rewrite Hdot, Hup. cbn [normalize_segs rev].
  now rewrite strip_common_prefix.
Qed.

Lemma get_put_dir (name : string) (v : node) (dir : list string) :
  forall n es,
    get n dir = Some (Dir es) ->
    get (put n dir name v) dir = Some (Dir (set_entry name v es)).
Proof.
  induction dir as [|d dir IH]; intros n es H; simpl in *.
  - now injection H as ->.
  - destruct n as [| |fs| |]; try discriminate.
    simpl. rewrite lookup_map_entry, String.eqb_refl.
    destruct (lookup d fs) as [child|]; [|discriminate]. simpl.
    now apply IH.
Qed.

Lemma In_set_entry (name : string) (v : node) (es : list (string * node)) :
  In (name, v) (set_entry name v es).
Proof.
  induction es as [|[k x] es IH]; [now left|].
  cbn [set_entry]. destruct (String.eqb_spec k name) as [->|_]; [now left | now right].
Qed.

Lemma stat_files_cons (dir file : string) (child : node) (rest : list (string * node)) :
  stat_files dir (Dir ((file, child) :: rest))
  = (match child with
     | File _ mtime | Locked mtime => [(path_join dir file, mtime)]
     | Dir _ => stat_files (path_join dir file) child
     | NoList | Broken => []
     end ++ stat_files dir (Dir rest))%list.
Proof. reflexivity. Qed.

Lemma stat_files_in (dir file content : string) (mtime : Z)
  (files : list (string * node)) :
  In (file, File content mtime) files ->
  In (path_join dir file, mtime) (stat_files dir (Dir files)).
Proof.
  induction files as [|[f child] files IH]; intros H; [contradiction|].
  rewrite stat_files_cons. apply in_or_app.
  destruct H as [H|H]; [injection H as -> ->; left; now left | right; now apply IH].
Qed.

Lemma join_holds (sep x : string) (l : list string) :
  In x l -> x <> EmptyString -> join sep l <> EmptyString.
Proof.
  intros Hin Hx. induction l as [|y l IH]; [contradiction|].
  destruct l as [|z l].
  - destruct Hin as [->|[]]. exact Hx.
  - rewrite join_cons. destruct Hin as [->|Hin].
    + destruct x; [congruence | discriminate].
    + intros E. apply append_eq_empty in E as [_ E].
      apply append_eq_empty in E as [_ E]. now apply IH.
Qed.

Lemma written_name (fs fs' : FS) (p content : string) :
  writeFileSync fs p content = Ret fs' ->
  p <> EmptyString /\
  is_dot (last (split "/" p) EmptyString) = false /\
  String.eqb (last (split "/" p) EmptyString) ".." = false.
Proof.
  unfold writeFileSync. intros H.
  destruct p as [|c0 p0]; [discriminate|]. cbv beta iota zeta in H.
  split; [discriminate|].
  destruct (canon _ _ _); [|discriminate].
  destruct (get _ _) as [[| |es| |]|]; try discriminate.
  destruct (is_dot _); [discriminate|].
  destruct (String.eqb _ ".."); [discriminate | now split].
Qed.

(** X14.  A file that [write] has just put into the working directory under a
    name without a wildcard is found by [glob] under that name: the
    answer of [glob] for the name as pattern lists the name, with the
    time of the write. *)
Theorem glob_finds_the_file_just_written :
  forall (fs fs' : FS) (args : Args) (name content : string),
    a_path args = Some name ->
    a_content args = Some content ->
    all_chars name_char name = true ->
    all_chars not_slash name = true ->
    includes name "__DOUBLE_STAR" = false ->
    write args fs = (Ret "ok", fs') ->
    exists results : list found,
      glob (search_args name None) fs' = (Ret (join NL (map f_path results)), fs') /\
      In (mkFound name (now fs)) results.
Proof.
  intros fs fs' args name content Hpath Hcontent Hname Hflat Hplace Hwrite.
  unfold write in Hwrite. rewrite Hpath, Hcontent in Hwrite.
  destruct (writeFileSync fs name content) as [fs1| |] eqn:Hw; try discriminate.
  injection Hwrite as <-.
  destruct (@written_name _ _ _ _ Hw) as (Hne & Hdot & Hup).
  destruct (@written_located _ _ _ _ Hw)
    as (pos & es & last_name & _ & Hlast & Hfront & _ & Hdir & _ & Hfs).
  rewrite (split_one_segment name Hflat) in *. cbn [last removelast canon] in *.
  subst last_name. injection Hfront as <-.
  unfold start_of in Hdir, Hfs. rewrite (relative_name Hne Hflat) in Hdir, Hfs.
  rewrite rev_involutive in Hdir, Hfs.
  set (file := File content (now fs)) in *.
  assert (Hbase : node_or_missing fs1 "." = Dir (set_entry name file es)).
  { unfold node_or_missing, node_at. change (split "/" ".") with ["."].
    unfold start_of. change (is_absolute ".") with false. cbv iota.
    subst fs1. cbn [root cwd canon]. rewrite rev_involutive.
    rewrite (@get_put_dir name file (cwd fs) (root fs) es Hdir).
    change (is_dot ".") with true. cbv iota. rewrite rev_involutive.
    now rewrite (@get_put_dir name file (cwd fs) (root fs) es Hdir). }
  assert (Htrans : translatable name = true).
  { unfold translatable.
    rewrite (regexPattern_tokens name Hplace),
      (RegExp_new_images (tokens name)
         (tokens_plain name (all_chars_impl _ _ name name_char_glob Hname))).
    reflexivity. }
  set (results :=
         Array_sort by_mtime
           (filter (accepts_by fragment_RegExp (Some name))
              (map (fun '(filepath, mtime) =>
                      mkFound (path_relative (cwd fs1) "." filepath) mtime)
                 (stat_files "." (Dir (set_entry name file es)))))).
  assert (Hin : In (mkFound name (now fs)) results).
  { apply (Permutation_in _ (Array_sort_perm _)).
    apply filter_In. split.
    - apply in_map_iff. exists (path_join "." name, now fs). split.
      + rewrite (path_join_dot Hne Hflat Hdot Hup).
        now rewrite (path_relative_name (cwd fs1) Hne Hflat Hdot Hup).
      + apply stat_files_in with (content := content). apply In_set_entry.
    - rewrite accepts_by_fragment. unfold accepts. cbn [f_path].
      now rewrite (@matchPattern_own_name name Hname Hplace). }
  exists results. split; [|exact Hin].
  unfold glob, glob_by. cbn [search_args a_pat a_path or_str]. rewrite Hbase.
  rewrite glob_walk_spec by (now apply completes_fragment). cbn [app]. fold results.
  rewrite or_none_nonempty; [reflexivity|].
  apply join_holds with (x := name); [|exact Hne].
  apply in_map_iff. now exists (mkFound name (now fs)).
Qed.

Lemma glob_finds_the_file_just_written_witness :
  exists results : list found,
    glob (search_args "notes.txt" None)
      (mkFS (Dir [("work", Dir [("notes.txt", File poem 1000)])]) ["work"] 1000)
    = (Ret (join NL (map f_path results)),
       mkFS (Dir [("work", Dir [("notes.txt", File poem 1000)])]) ["work"] 1000) /\
    In (mkFound "notes.txt" (now empty_disk)) results.
Proof.
  apply (@glob_finds_the_file_just_written empty_disk _
           (mkArgs (Some "notes.txt") None None (Some poem) None None None None None)
           "notes.txt" poem); reflexivity.
Defined.

(* ================================================================= *)
(** ** The dispatcher *)

Lemma readFileSync_completes (fs : FS) (p : string) : readFileSync fs p <> Beyond.
Proof.
  unfold readFileSync. destruct (node_at fs p) as [[| | | |]|]; discriminate.
Qed.

Lemma writeFileSync_completes (fs : FS) (p content : string) :
  writeFileSync fs p content <> Beyond.
Proof.
  unfold writeFileSync. destruct p as [|c0 p0]; [discriminate|]. cbv zeta.
  destruct (canon _ _ _); [|discriminate].
  destruct (get _ _) as [[| |es| |]|]; try discriminate.
  destruct (_ || _); [discriminate|].
  destruct (lookup _ es) as [[| | | |]|]; discriminate.
Qed.

Section Completes.

Variable execSync : string -> FS -> exec * FS.
Variable engine : string -> regexp.
Variable converts : string -> JSON -> FS -> completion * FS.

Lemma read_completes (args : Args) (fs : FS) : fst (read args fs) <> Beyond.
Proof.
  unfold read. destruct (a_path args) as [p|]; [|discriminate].
  pose proof (readFileSync_completes fs p).
  destruct (readFileSync fs p); [discriminate | discriminate | contradiction].
Qed.

Lemma write_completes (args : Args) (fs : FS) : fst (write args fs) <> Beyond.
Proof.
  unfold write. destruct (a_content args) as [content|]; [|discriminate].
  destruct (a_path args) as [p|]; [|discriminate].
  pose proof (writeFileSync_completes fs p content).
  destruct (writeFileSync fs p content); [discriminate | discriminate | contradiction].
Qed.

Lemma edit_completes (args : Args) (fs : FS) : fst (edit args fs) <> Beyond.
Proof.
  unfold edit. destruct (a_path args) as [p|]; [|discriminate].
  pose proof (readFileSync_completes fs p) as Hread.
  destruct (readFileSync fs p) as [text| |]; [|discriminate | contradiction].
  destruct (negb (includes text _)); [discriminate|].
  destruct (a_old args) as [old|]; [|discriminate].
  rewrite RegExp_new_escapeRegExp. cbv zeta.
  destruct (_ && _); [discriminate|].
  match goal with
  | |- context [writeFileSync fs p ?r] =>
      pose proof (writeFileSync_completes fs p r) as Hwrite;
      destruct (writeFileSync fs p r); [discriminate | discriminate | contradiction]
  end.
Qed.

Lemma glob_completes (args : Args) (fs : FS) :
  fst (glob_by (RegExp_of engine) args fs) <> Beyond.
Proof. rewrite glob_by_sorted by apply completes_engine. discriminate. Qed.

Lemma grep_completes (args : Args) (fs : FS) :
  fst (grep (RegExp_of engine) args fs) <> Beyond.
Proof. unfold grep, RegExp_of. destruct (engine _); discriminate. Qed.

Lemma bash_completes (args : Args) (fs : FS) : fst (bash execSync args fs) <> Beyond.
Proof.
  unfold bash. destruct (a_cmd args) as [cmd|]; [|discriminate].
  destruct (execSync cmd fs) as [[stdout|message stdout stderr|message] fs'];
    discriminate.
Qed.

Lemma undo_completes (args : Args) (fs : FS) : fst (undo execSync args fs) <> Beyond.
Proof.
  unfold undo. cbv zeta.
  destruct (execSync _ fs) as [[out| |] fs1]; try discriminate.
  destruct (trim out); [discriminate|].
  destruct (execSync _ fs1) as [[| |] fs2]; discriminate.
Qed.

Lemma converting_completes (name : string) (args : JSON) (fs : FS) :
  fst (converting converts name args fs) <> Beyond.
Proof.
  unfold converting. destruct (converts name args fs) as [[text|m] fs']; discriminate.
Qed.

(** Every handler returns or throws. *)
Lemma TOOLS_complete (name : string) (fn : Args -> FS -> effect) :
  lookup name (TOOLS execSync (RegExp_of engine)) = Some fn ->
  forall args fs, fst (fn args fs) <> Beyond.
Proof.
  unfold TOOLS. cbn [lookup].
  repeat match goal with
         | |- (if ?b then _ else _) = _ -> _ => destruct b
         end;
    try discriminate; intros H; injection H as <-.
  - apply read_completes.
  - apply write_completes.
  - apply edit_completes.
  - apply glob_completes.
  - apply grep_completes.
  - apply bash_completes.
  - intros args fs. apply bash_completes.
  - apply undo_completes.
Qed.

Lemma call_tool_completes (name : string) (args : JSON) (fs : FS) :
  fst (call_tool execSync (RegExp_of engine) converts name args fs) <> Beyond.
Proof.
  unfold call_tool.
  destruct (lookup name (TOOLS execSync (RegExp_of engine))) as [fn|] eqn:Hfn.
  - pose proof (TOOLS_complete name Hfn) as Hcomplete.
    destruct args; try discriminate;
      (destruct (args_of _) as [a|]; [apply Hcomplete | apply converting_completes]).
  - destruct (inherited name); discriminate.
Qed.

End Completes.

(** C9.  Whatever the tool name and the argument value, whatever the
    shell, the engine of regular expressions and the conversions of
    JavaScript do, [runTool] returns a text and lets no exception
    through.  The handler returns a text, which [runTool] hands on as it
    is, or it throws, and [runTool] returns [error: ] followed by the
    message; a name that is not in the table and an argument that is
    [null] make the call throw, so that they end in such an error
    text. *)
Theorem runTool_never_throws :
  forall (execSync : string -> FS -> exec * FS)
         (engine : string -> regexp)
         (converts : string -> JSON -> FS -> completion * FS)
         (name : string) (args : JSON) (fs : FS),
  exists (text : string) (fs' : FS),
    runTool execSync (RegExp_of engine) converts name args fs = (Ret text, fs') /\
    fs' = snd (call_tool execSync (RegExp_of engine) converts name args fs) /\
    match fst (call_tool execSync (RegExp_of engine) converts name args fs) with
    | Ret result => text = result
    | Throw message => text = "error: " ++ message
    | Beyond => False
    end /\
    (lookup name (TOOLS execSync (RegExp_of engine)) = None \/ args = JNull ->
     starts_with "error: " text = true /\ fs' = fs).
Proof.
  intros execSync engine converts name args fs.
  pose proof (call_tool_completes execSync engine converts name args fs) as Hcomplete.
  assert (Hfail :
    lookup name (TOOLS execSync (RegExp_of engine)) = None \/ args = JNull ->
    exists m,
      call_tool execSync (RegExp_of engine) converts name args fs = (Throw m, fs)).
  { unfold call_tool. intros [Hnone| ->].
    - rewrite Hnone. destruct (inherited name); eexists; reflexivity.
    - destruct (lookup name _); [eexists; reflexivity|].
      destruct (inherited name); eexists; reflexivity. }
  unfold runTool, try_catch.
  destruct (call_tool execSync (RegExp_of engine) converts name args fs)
    as [[result|message|] fs1]; cbn [fst snd] in *.
  - exists result, fs1. split; [reflexivity|]. split; [reflexivity|].
    split; [reflexivity|].
    intros H. destruct (Hfail H) as [m Hm]. discriminate.
  - exists ("error: " ++ message), fs1. split; [reflexivity|]. split; [reflexivity|].
    split; [reflexivity|].
    intros H. destruct (Hfail H) as [m Hm]. split; [reflexivity | congruence].
  - now elim Hcomplete.
Qed.

(** [read] without a path: [fs] throws a [TypeError], and the
    dispatcher makes an error text of it. *)
Lemma runTool_never_throws_witness :
  runTool no_shell (RegExp_of small_engine) no_conversion "read" (JObj []) project
  = (Ret ("error: " ++ invalid_path), project).
Proof.
  destruct (runTool_never_throws no_shell small_engine no_conversion
              "read" (JObj []) project)
    as (text & fs' & Hrun & Hfs & Htext & _).
  rewrite Hrun, Hfs. cbn in Htext. now rewrite Htext.
Defined.

(** What the dispatcher makes of a name that is not in the table, of a
    name that every object inherits, of an argument that is [null], of
    a command that is missing, and of a handler that succeeds. *)
Example runTool_on_concrete_calls :
  runTool no_shell no_RegExp no_conversion "rm" (JObj []) project
  = (Ret "error: Cannot read properties of undefined (reading 'fn')", project) /\
  runTool no_shell no_RegExp no_conversion "toString" (JObj []) project
  = (Ret "error: TOOLS[name].fn is not a function", project) /\
  runTool no_shell no_RegExp no_conversion "read" JNull project
  = (Ret "error: Cannot read properties of null (reading 'path')", project) /\
  runTool no_shell no_RegExp no_conversion "bash" (JObj []) project
  = (Ret ("error: " ++ no_trim), project) /\
  runTool no_shell no_RegExp no_conversion "read"
    (JObj [("path", JStr "a.txt"); ("limit", JNum 1)]) project
  = (Ret "   1| hello", project).
Proof. repeat split; reflexivity. Qed.

(** An argument of another type than its schema says is left to the
    conversions of JavaScript; where they end in an exception, the
    dispatcher returns its message as an error text. *)
Example runTool_on_a_path_that_is_no_text :
  runTool no_shell no_RegExp no_conversion "read" (JObj [("path", JBool true)]) project
  = (Ret "error: a value of this type cannot be converted", project).
Proof. reflexivity. Qed.
